(** * Send to Kindle: EPUB container builder and SMTP client

    A shallow embedding of [epub.ts] (checksum, ZIP writer, EPUB skeleton),
    of [email.ts] (settings, MIME encoder, dot-stuffing, SMTP session
    client, the two sessions [sendEpubByEmail] and [testEmailPreferences])
    and of [sanitizeFilename] of [send-to-kindle.tsx], with the properties
    of the specification (Part II) and further properties of the code
    (Part III) stated and proved over the embedding.

    Conventions of the embedding:
    - a JavaScript number that only ever holds an integer is a [Z]; the
      32-bit conversions of the bitwise operators are written out
      ([ToInt32], [ToUint32]);
    - a JavaScript string is the list of its UTF-16 code units ([N]);
    - a [Buffer] is a [list byte]; a Buffer write of a value that does
      not fit its field raises a range error, as in Node.js;
    - a function that may throw returns a [result];
    - [crypto.randomUUID()], [new Date().toUTCString()], [os.hostname()],
      [String.prototype.normalize] and the conversion [Number] of a
      string are inputs of the functions that call them;
    - a port that [net.connect] and [tls.connect] refuse makes
      [connect] throw before any transport exists ([Smtp.connect]; for a
      port that is no integer, [Email.newSmtpClient]);
    - an [async] method of the SMTP client is a [task]: it has finished,
      normally or with an exception, or it waits for the pending promise
      of the client to be settled.  What the transport does is a list of
      events (data, error, expiry of the timer); an event is handled to
      its end before the next one, and a method whose promise the event
      settles runs up to its next suspension before the next event, as
      promise reactions do before the next I/O callback.  Writing to,
      ending and destroying a socket do not throw; what the client does
      to its sockets is recorded in a log. *)

From stdpp Require Import base list numbers option strings.
From Stdlib Require Import ZArith NArith Lia Strings.Byte Ascii.
From Stdlib Require DecimalString.

Open Scope Z_scope.

(* ================================================================== *)
(** * Part I: the model                                                *)
(* ================================================================== *)

(** ** JavaScript primitives used by the two source files *)
Module JS.

(** 32-bit conversions of ECMAScript (7.1.6 and 7.1.7) on integers. *)
Definition ToUint32 (x : Z) : Z := x mod 2 ^ 32.

Definition ToInt32 (x : Z) : Z :=
  let u := x mod 2 ^ 32 in if u <? 2 ^ 31 then u else u - 2 ^ 32.

(** [a ^ b], [a & b] and [a >>> n]. *)
Definition xor (a b : Z) : Z := ToInt32 (Z.lxor (ToInt32 a) (ToInt32 b)).
Definition and (a b : Z) : Z := ToInt32 (Z.land (ToInt32 a) (ToInt32 b)).
Definition ushr (a n : Z) : Z := Z.shiftr (ToUint32 a) (ToUint32 n mod 32).

(** The numeric value of a buffer element. *)
Definition byte_val (b : byte) : Z := Z.of_N (Byte.to_N b).

(** The byte holding [z mod 256] (what a typed-array store keeps). *)
Definition byte_of_Z (z : Z) : byte :=
  match Byte.of_N (Z.to_N (z mod 256)) with
  | Some b => b
  | None => x00%byte
  end.

(** *** Exceptions and fallible functions *)

Inductive exn : Type :=
| Error (message : list N)   (* [new Error(message)] *)
| RangeError (what : string) (* [ERR_OUT_OF_RANGE] of a Buffer write,
                                [ERR_SOCKET_BAD_PORT] of a connection *)
| URIError.                  (* [encodeURIComponent] on a lone surrogate *)

Inductive result (A : Type) : Type :=
| Ok (a : A)
| Throw (e : exn).
Arguments Ok {A} a.
Arguments Throw {A} e.

#[export] Instance result_ret : MRet result := fun A a => Ok a.
#[export] Instance result_bind : MBind result := fun A B f m =>
  match m with
  | Ok a => f a
  | Throw e => Throw e
  end.

(** *** Strings: lists of UTF-16 code units *)

Definition jsstring : Type := list N.

(** A string literal of the source.  Inside the quotes the escapes [\n]
    and [\r] of the source are kept as they are written there, and a
    double quote of the source is written as a backquote (no literal of
    the source holds a backquote). *)
Fixpoint lit_units (cs : list ascii) : jsstring :=
  match cs with
  | [] => []
  | "\"%char :: "n"%char :: rest => 10%N :: lit_units rest
  | "\"%char :: "r"%char :: rest => 13%N :: lit_units rest
  | "`"%char :: rest => 34%N :: lit_units rest
  | c :: rest => N_of_ascii c :: lit_units rest
  end.

Definition lit (s : string) : jsstring :=
  lit_units (String.list_ascii_of_string s).

(** [Array.prototype.join] on strings. *)
Fixpoint join (sep : jsstring) (parts : list jsstring) : jsstring :=
  match parts with
  | [] => []
  | [p] => p
  | p :: rest => p ++ sep ++ join sep rest
  end.

(** White space and line terminators of ECMAScript: what [trim] removes
    and what [\s] matches. *)
Definition is_space (c : N) : bool :=
  ((9 <=? c) && (c <=? 13) || (c =? 32) || (c =? 160) || (c =? 5760)
   || (8192 <=? c) && (c <=? 8202) || (c =? 8232) || (c =? 8233)
   || (c =? 8239) || (c =? 8287) || (c =? 12288) || (c =? 65279))%N.

Fixpoint trimStart (s : jsstring) : jsstring :=
  match s with
  | c :: rest => if is_space c then trimStart rest else s
  | [] => []
  end.

Definition trimEnd (s : jsstring) : jsstring := rev (trimStart (rev s)).

Definition trim (s : jsstring) : jsstring := trimEnd (trimStart s).

(** [s.replace(/c/g, by)] for a single code unit [c]. *)
Definition replace_unit (c : N) (by_ : jsstring) (s : jsstring) : jsstring :=
  flat_map (fun u => if (u =? c)%N then by_ else [u]) s.

(** [s.replace(/[class]+/g, by)]: every maximal run of units of the class
    becomes one copy of [by]. *)
Fixpoint replace_runs (cls : N -> bool) (by_ : jsstring) (s : jsstring)
  : jsstring :=
  match s with
  | [] => []
  | c :: rest =>
      if cls c then
        match rest with
        | d :: _ => if cls d then replace_runs cls by_ rest
                    else by_ ++ replace_runs cls by_ rest
        | [] => by_
        end
      else c :: replace_runs cls by_ rest
  end.

(** [s.startsWith(p)]. *)
Fixpoint startsWith (p s : jsstring) : bool :=
  match p, s with
  | [], _ => true
  | _ :: _, [] => false
  | a :: p', b :: s' => (a =? b)%N && startsWith p' s'
  end.

(** [s.split(/\r?\n/)]: a line feed, with the carriage return before it
    if there is one, separates two lines. *)
Definition cons_head (c : N) (ls : list jsstring) : list jsstring :=
  match ls with
  | l :: rest => (c :: l) :: rest
  | [] => [[c]]
  end.

Fixpoint split_lines (s : jsstring) : list jsstring :=
  match s with
  | [] => [[]]
  | c :: rest =>
      if (c =? 10)%N then [] :: split_lines rest
      else if (c =? 13)%N then
        match rest with
        | d :: rest' =>
            if (d =? 10)%N then [] :: split_lines rest'
            else cons_head c (split_lines rest)
        | [] => [[c]]
        end
      else cons_head c (split_lines rest)
  end.

(** [s.indexOf(c)] for a single code unit; [None] stands for [-1]. *)
Fixpoint indexOf (c : N) (s : jsstring) : option nat :=
  match s with
  | [] => None
  | u :: rest => if (u =? c)%N then Some O else S <$> indexOf c rest
  end.

(** [String(n)] for a natural number [n]. *)
Definition of_ascii (a : ascii) : N := N_of_ascii a.

Definition decimal (n : N) : jsstring :=
  map of_ascii
    (String.list_ascii_of_string (DecimalString.NilZero.string_of_uint (N.to_uint n))).

(** *** Buffers *)

Definition Buffer : Type := list byte.

Definition byte_of_N (n : N) : byte := byte_of_Z (Z.of_N n).

Definition is_high_surrogate (c : N) : bool :=
  ((0xD800 <=? c) && (c <=? 0xDBFF))%N.
Definition is_low_surrogate (c : N) : bool :=
  ((0xDC00 <=? c) && (c <=? 0xDFFF))%N.

(** UTF-8 bytes of one code point. *)
Definition utf8_code_point (cp : N) : list byte :=
  (if cp <? 0x80 then [byte_of_N cp]
   else if cp <? 0x800 then
     [byte_of_N (N.lor 0xC0 (N.shiftr cp 6));
      byte_of_N (N.lor 0x80 (N.land cp 0x3F))]
   else if cp <? 0x10000 then
     [byte_of_N (N.lor 0xE0 (N.shiftr cp 12));
      byte_of_N (N.lor 0x80 (N.land (N.shiftr cp 6) 0x3F));
      byte_of_N (N.lor 0x80 (N.land cp 0x3F))]
   else
     [byte_of_N (N.lor 0xF0 (N.shiftr cp 18));
      byte_of_N (N.lor 0x80 (N.land (N.shiftr cp 12) 0x3F));
      byte_of_N (N.lor 0x80 (N.land (N.shiftr cp 6) 0x3F));
      byte_of_N (N.lor 0x80 (N.land cp 0x3F))])%N.

Definition pair_code_point (hi lo : N) : N :=
  (0x10000 + (hi - 0xD800) * 0x400 + (lo - 0xDC00))%N.

(** [Buffer.from(s, "utf8")]: a surrogate pair is one code point, a lone
    surrogate is written as U+FFFD. *)
Fixpoint utf8 (s : jsstring) : Buffer :=
  match s with
  | [] => []
  | c :: rest =>
      if is_high_surrogate c then
        match rest with
        | d :: rest' =>
            if is_low_surrogate d
            then utf8_code_point (pair_code_point c d) ++ utf8 rest'
            else utf8_code_point 0xFFFD%N ++ utf8 rest
        | [] => utf8_code_point 0xFFFD%N
        end
      else if is_low_surrogate c then utf8_code_point 0xFFFD%N ++ utf8 rest
      else utf8_code_point c ++ utf8 rest
  end.

(** [Buffer.alloc(n)]. *)
Definition alloc (n : nat) : Buffer := replicate n x00%byte.

(** The [n] low bytes of [v], least significant first. *)
Fixpoint le_bytes (n : nat) (v : Z) : list byte :=
  match n with
  | O => []
  | S n' => byte_of_Z v :: le_bytes n' (v / 256)
  end.

(** [buf.writeUIntLE(value, offset, n)] of Node.js: a value outside
    [0 .. 2^(8n) - 1] or a field that does not fit raises a range error;
    otherwise the [n] bytes are stored in place. *)
Definition writeUIntLE (n : nat) (value : Z) (offset : nat) (buf : Buffer)
  : result Buffer :=
  if (value <? 0) || (2 ^ (8 * Z.of_nat n) - 1 <? value) then
    Throw (RangeError "value")
  else if (length buf <? offset + n)%nat then
    Throw (RangeError "offset")
  else Ok (list_inserts offset (le_bytes n value) buf).

Definition writeUInt16LE := writeUIntLE 2.
Definition writeUInt32LE := writeUIntLE 4.

(** [source.copy(target, targetStart)]: bytes that do not fit are dropped. *)
Definition copy (source target : Buffer) (targetStart : nat) : Buffer :=
  list_inserts targetStart source target.

(** [buf.readUIntLE(offset, n)], used to state properties of the output. *)
Fixpoint le_value (bs : list byte) : Z :=
  match bs with
  | [] => 0
  | b :: rest => byte_val b + 256 * le_value rest
  end.

Definition readUIntLE (n : nat) (buf : Buffer) (offset : nat) : Z :=
  le_value (take n (drop offset buf)).

(** *** Vocabulary of the properties *)

(** A computation that throws nothing but range errors. *)
Definition range_only {A} (m : result A) : Prop :=
  forall e, m = Throw e -> exists what, e = RangeError what.

(** A text that neither starts nor ends with white space. *)
Definition trimmed (s : jsstring) : Prop :=
  (forall c rest, s = c :: rest -> is_space c = false)
  /\ (forall front c, s = front ++ [c] -> is_space c = false).

(** A code unit that is no surrogate. *)
Definition ordinary (c : N) : Prop :=
  is_high_surrogate c = false /\ is_low_surrogate c = false.

(** Well-formed UTF-16: every high surrogate is followed by a low one,
    and no low surrogate stands alone. *)
Fixpoint well_formed_utf16 (s : jsstring) : bool :=
  match s with
  | [] => true
  | c :: rest =>
      if is_high_surrogate c then
        match rest with
        | d :: rest' => is_low_surrogate d && well_formed_utf16 rest'
        | [] => false
        end
      else negb (is_low_surrogate c) && well_formed_utf16 rest
  end.

End JS.

(** ** Checksum: [crc32] and [CRC_TABLE] of epub.ts *)
Module Crc.
Import JS.

(** One pass of the inner [for k] loop of the table initialiser:
    [c = c & 1 ? 0xedb88320 ^ (c >>> 1) : c >>> 1]. *)
Definition table_round (c : Z) : Z :=
  if JS.and c 1 =? 0 then ushr c 1 else JS.xor 0xedb88320 (ushr c 1).

(** [table[i] = c >>> 0] after eight rounds starting from [c = i]. *)
Definition table_entry (i : Z) : Z := ushr (Nat.iter 8 table_round i) 0.

Definition CRC_TABLE : list Z :=
  map (fun i : nat => table_entry (Z.of_nat i)) (seq 0 256).

(** [CRC_TABLE[index]]; an index outside the table reads [undefined],
    which the enclosing [^] converts to [0]. *)
Definition table_get (index : Z) : Z :=
  if index <? 0 then 0 else nth (Z.to_nat index) CRC_TABLE 0.

(** Body of the [for (const byte of buffer)] loop. *)
Definition crc_update (crc : Z) (byte : byte) : Z :=
  let index := JS.and (JS.xor crc (byte_val byte)) 0xff in
  JS.xor (ushr crc 8) (table_get index).

Definition crc32 (buffer : list byte) : Z :=
  let crc := fold_left crc_update buffer 0xffffffff in
  ushr (JS.xor crc 0xffffffff) 0.

(** The reference the specification names: the bit-serial CRC-32 of
    IEEE 802.3 in its reflected (ZIP, zlib, PNG) form.  The register
    starts at all ones; each input byte is exclusive-ored into its low
    byte and the register is shifted right eight times, the reflected
    generator polynomial being exclusive-ored in whenever a one is shifted
    out; the result is the complement of the register. *)
Definition ieee_poly : Z := 0xEDB88320.

Definition ieee_shift (r : Z) : Z :=
  if Z.odd r then Z.lxor (Z.shiftr r 1) ieee_poly else Z.shiftr r 1.

Definition ieee_byte (r : Z) (b : byte) : Z :=
  Nat.iter 8 ieee_shift (Z.lxor r (byte_val b)).

Definition crc32_reference (bs : list byte) : Z :=
  Z.lxor (fold_left ieee_byte bs 0xFFFFFFFF) 0xFFFFFFFF.

End Crc.

(** ** ZIP writer: [buildZip] of epub.ts *)
Module Zip.
Import JS.

Record ZipEntry : Type := { name : jsstring; data : Buffer }.

(** The local file header of the loop body, from [Buffer.alloc] to
    [nameBuffer.copy(localHeader, 30)]. *)
Definition localHeader (nameBuffer : Buffer) (dataLength crc : Z)
  : result Buffer :=
  h ← writeUInt32LE 0x04034b50 0 (alloc (30 + length nameBuffer));
  h ← writeUInt16LE 20 4 h;
  h ← writeUInt16LE 0 6 h;
  h ← writeUInt16LE 0 8 h;
  h ← writeUInt16LE 0 10 h;
  h ← writeUInt16LE 0 12 h;
  h ← writeUInt32LE crc 14 h;
  h ← writeUInt32LE dataLength 18 h;
  h ← writeUInt32LE dataLength 22 h;
  h ← writeUInt16LE (Z.of_nat (length nameBuffer)) 26 h;
  h ← writeUInt16LE 0 28 h;
  mret (copy nameBuffer h 30).

(** The central directory record of the loop body. *)
Definition centralHeader (nameBuffer : Buffer) (dataLength crc offset : Z)
  : result Buffer :=
  h ← writeUInt32LE 0x02014b50 0 (alloc (46 + length nameBuffer));
  h ← writeUInt16LE 20 4 h;
  h ← writeUInt16LE 20 6 h;
  h ← writeUInt16LE 0 8 h;
  h ← writeUInt16LE 0 10 h;
  h ← writeUInt16LE 0 12 h;
  h ← writeUInt16LE 0 14 h;
  h ← writeUInt32LE crc 16 h;
  h ← writeUInt32LE dataLength 20 h;
  h ← writeUInt32LE dataLength 24 h;
  h ← writeUInt16LE (Z.of_nat (length nameBuffer)) 28 h;
  h ← writeUInt16LE 0 30 h;
  h ← writeUInt16LE 0 32 h;
  h ← writeUInt16LE 0 34 h;
  h ← writeUInt16LE 0 36 h;
  h ← writeUInt32LE 0 38 h;
  h ← writeUInt32LE offset 42 h;
  mret (copy nameBuffer h 46).

(** The variables the loop of [buildZip] updates. *)
Record zip_state : Type := {
  fileChunks : list Buffer;
  centralChunks : list Buffer;
  offset : Z
}.

(** One iteration of [for (const entry of entries)]. *)
Definition zip_step (st : zip_state) (entry : ZipEntry) : result zip_state :=
  let nameBuffer := utf8 (name entry) in
  let data := data entry in
  let crc := Crc.crc32 data in
  let dataLength := Z.of_nat (length data) in
  local ← localHeader nameBuffer dataLength crc;
  central ← centralHeader nameBuffer dataLength crc (offset st);
  mret {| fileChunks := fileChunks st ++ [local; data];
          centralChunks := centralChunks st ++ [central];
          offset := offset st + Z.of_nat (length local)
                    + Z.of_nat (length data) |}.

Fixpoint zip_loop (entries : list ZipEntry) (st : zip_state)
  : result zip_state :=
  match entries with
  | [] => mret st
  | entry :: rest => st' ← zip_step st entry; zip_loop rest st'
  end.

Definition endRecord (count centralLength offset : Z) : result Buffer :=
  r ← writeUInt32LE 0x06054b50 0 (alloc 22);
  r ← writeUInt16LE 0 4 r;
  r ← writeUInt16LE 0 6 r;
  r ← writeUInt16LE count 8 r;
  r ← writeUInt16LE count 10 r;
  r ← writeUInt32LE centralLength 12 r;
  r ← writeUInt32LE offset 16 r;
  writeUInt16LE 0 20 r.

Definition buildZip (entries : list ZipEntry) : result Buffer :=
  st ← zip_loop entries
         {| fileChunks := []; centralChunks := []; offset := 0 |};
  let centralDirectory := concat (centralChunks st) in
  endRecord ← endRecord (Z.of_nat (length entries))
                (Z.of_nat (length centralDirectory)) (offset st);
  mret (concat (fileChunks st ++ [centralDirectory; endRecord])).

(** *** Layout vocabulary, used to state the properties of the output *)

(** Bytes an entry occupies in the file section: header, name, data. *)
Definition entry_size (e : ZipEntry) : nat :=
  30 + length (utf8 (name e)) + length (data e).

(** Sum of the sizes of the entries before entry [n]. *)
Definition local_offset (entries : list ZipEntry) (n : nat) : nat :=
  sum_list (entry_size <$> take n entries).

Definition central_size (e : ZipEntry) : nat := 46 + length (utf8 (name e)).

(** Where the central directory record of entry [n] starts in the output. *)
Definition central_offset (entries : list ZipEntry) (n : nat) : nat :=
  sum_list (entry_size <$> entries) + sum_list (central_size <$> take n entries).

(** The records as byte strings, field by field. *)
Definition local_record (e : ZipEntry) : Buffer :=
  le_bytes 4 0x04034b50 ++ le_bytes 2 20 ++ le_bytes 2 0 ++ le_bytes 2 0 ++
  le_bytes 2 0 ++ le_bytes 2 0 ++ le_bytes 4 (Crc.crc32 (data e)) ++
  le_bytes 4 (Z.of_nat (length (data e))) ++
  le_bytes 4 (Z.of_nat (length (data e))) ++
  le_bytes 2 (Z.of_nat (length (utf8 (name e)))) ++ le_bytes 2 0 ++
  utf8 (name e).

Definition central_record (off : nat) (e : ZipEntry) : Buffer :=
  le_bytes 4 0x02014b50 ++ le_bytes 2 20 ++ le_bytes 2 20 ++ le_bytes 2 0 ++
  le_bytes 2 0 ++ le_bytes 2 0 ++ le_bytes 2 0 ++
  le_bytes 4 (Crc.crc32 (data e)) ++
  le_bytes 4 (Z.of_nat (length (data e))) ++
  le_bytes 4 (Z.of_nat (length (data e))) ++
  le_bytes 2 (Z.of_nat (length (utf8 (name e)))) ++ le_bytes 2 0 ++
  le_bytes 2 0 ++ le_bytes 2 0 ++ le_bytes 2 0 ++ le_bytes 4 0 ++
  le_bytes 4 (Z.of_nat off) ++ utf8 (name e).

Definition file_section (entries : list ZipEntry) : Buffer :=
  concat (map (fun e => local_record e ++ data e) entries).

Fixpoint central_section (off : nat) (entries : list ZipEntry) : Buffer :=
  match entries with
  | [] => []
  | e :: rest => central_record off e ++ central_section (off + entry_size e) rest
  end.

(** Every field of every record holds its value without truncation:
    [off] is the offset of the first entry of the list. *)
Fixpoint zip_fits (off : nat) (entries : list ZipEntry) : Prop :=
  match entries with
  | [] => True
  | e :: rest =>
      (Z.of_nat off < 2 ^ 32
       /\ Z.of_nat (length (data e)) < 2 ^ 32
       /\ Z.of_nat (length (utf8 (name e))) < 2 ^ 16
       /\ 0 <= Crc.crc32 (data e) < 2 ^ 32)
      /\ zip_fits (off + entry_size e) rest
  end.

(** The end of central directory record, field by field. *)
Definition end_record (entries : list ZipEntry) : Buffer :=
  le_bytes 4 0x06054b50 ++ le_bytes 2 0 ++ le_bytes 2 0 ++
  le_bytes 2 (Z.of_nat (length entries)) ++
  le_bytes 2 (Z.of_nat (length entries)) ++
  le_bytes 4 (Z.of_nat (sum_list (central_size <$> entries))) ++
  le_bytes 4 (Z.of_nat (sum_list (entry_size <$> entries))) ++
  le_bytes 2 0.

(** Every field of the archive holds its value: the records of the
    entries, the number of entries, and the size and the offset of the
    central directory. *)
Definition archive_fits (entries : list ZipEntry) : Prop :=
  zip_fits 0 entries
  /\ Z.of_nat (length entries) < 2 ^ 16
  /\ Z.of_nat (sum_list (central_size <$> entries)) < 2 ^ 32
  /\ Z.of_nat (sum_list (entry_size <$> entries)) < 2 ^ 32.

End Zip.

(** ** EPUB skeleton: [buildEpubBuffer] and [escapeHtml] of epub.ts *)
Module Epub.
Import JS.

Record EpubResource : Type := {
  id : jsstring;
  href : jsstring;
  mediaType : jsstring;
  data : Buffer;
  properties : option jsstring
}.

(** A field that the caller may leave out is an [option]. *)
Record EpubOptions : Type := {
  title : option jsstring;
  author : option jsstring;
  language : option jsstring;
  bodyHtml : option jsstring;
  resources : option (list EpubResource);
  coverResource : option EpubResource;
  includeTitleInContent : option bool
}.

Definition escapeHtml (input : jsstring) : jsstring :=
  replace_unit 39 (lit "&#39;")
    (replace_unit 34 (lit "&quot;")
       (replace_unit 62 (lit "&gt;")
          (replace_unit 60 (lit "&lt;")
             (replace_unit 38 (lit "&amp;") input)))).

(** [v || d] on a possibly missing string: the empty string is falsy. *)
Definition or_default (v : option jsstring) (d : jsstring) : jsstring :=
  match v with
  | Some (c :: s) => c :: s
  | _ => d
  end.

(** [v?.trim() || d]. *)
Definition trim_or (v : option jsstring) (d : jsstring) : jsstring :=
  or_default (trim <$> v) d.

Definition title_of (options : EpubOptions) : jsstring :=
  trim_or (title options) (lit "Article").
Definition author_of (options : EpubOptions) : jsstring :=
  trim_or (author options) (lit "Inconnu").
Definition language_of (options : EpubOptions) : jsstring :=
  trim_or (language options) (lit "en").
Definition bodyHtml_of (options : EpubOptions) : jsstring :=
  or_default (bodyHtml options) [].
Definition resources_of (options : EpubOptions) : list EpubResource :=
  default [] (resources options).
Definition includeTitle_of (options : EpubOptions) : bool :=
  default true (includeTitleInContent options).

Definition allResources_of (options : EpubOptions) : list EpubResource :=
  match coverResource options with
  | Some cover => cover :: resources_of options
  | None => resources_of options
  end.

Definition mimetype : Buffer := utf8 (lit "application/epub+zip").

Definition containerXml : Buffer :=
  utf8 (lit "<?xml version=`1.0` encoding=`UTF-8`?>\n" ++
        lit "<container version=`1.0` xmlns=`urn:oasis:names:tc:opendocument:xmlns:container`>\n" ++
        lit "  <rootfiles>\n" ++
        lit "    <rootfile full-path=`OEBPS/content.opf` media-type=`application/oebps-package+xml`/>\n" ++
        lit "  </rootfiles>\n" ++
        lit "</container>\n").

Definition manifestItem (resource : EpubResource) : jsstring :=
  lit "    <item id=`" ++ escapeHtml (id resource) ++
  lit "` href=`" ++ escapeHtml (href resource) ++
  lit "` media-type=`" ++ escapeHtml (mediaType resource) ++ lit "`" ++
  match properties resource with
  | Some (c :: p) => lit " properties=`" ++ escapeHtml (c :: p) ++ lit "`"
  | _ => []
  end ++
  lit "/>".

Definition manifestItems (allResources : list EpubResource) : jsstring :=
  join (lit "\n") (map manifestItem allResources).

Definition manifestBlock (allResources : list EpubResource) : jsstring :=
  match manifestItems allResources with
  | [] => []
  | items => items ++ lit "\n"
  end.

Definition coverMeta (cover : option EpubResource) : jsstring :=
  match cover with
  | Some c => lit "    <meta name=`cover` content=`" ++ escapeHtml (id c) ++
              lit "`/>\n"
  | None => []
  end.

Definition coverManifest (cover : option EpubResource) : jsstring :=
  match cover with
  | Some _ =>
      lit "    <item id=`cover` href=`cover.xhtml` media-type=`application/xhtml+xml`/>\n"
  | None => []
  end.

Definition coverSpine (cover : option EpubResource) : jsstring :=
  match cover with
  | Some _ => lit "    <itemref idref=`cover`/>\n"
  | None => []
  end.

Definition contentOpf (uuid title language author : jsstring)
    (cover : option EpubResource) (allResources : list EpubResource)
  : Buffer :=
  utf8 (lit "<?xml version=`1.0` encoding=`UTF-8`?>\n" ++
        lit "<package version=`3.0` xmlns=`http://www.idpf.org/2007/opf` unique-identifier=`bookid`>\n" ++
        lit "  <metadata xmlns:dc=`http://purl.org/dc/elements/1.1/`>\n" ++
        lit "    <dc:identifier id=`bookid`>urn:uuid:" ++ uuid ++
        lit "</dc:identifier>\n" ++
        lit "    <dc:title>" ++ escapeHtml title ++ lit "</dc:title>\n" ++
        lit "    <dc:language>" ++ escapeHtml language ++
        lit "</dc:language>\n" ++
        lit "    <dc:creator>" ++ escapeHtml author ++ lit "</dc:creator>\n" ++
        coverMeta cover ++
        lit "  </metadata>\n" ++
        lit "  <manifest>\n" ++
        lit "    <item id=`nav` properties=`nav` href=`nav.xhtml` media-type=`application/xhtml+xml`/>\n" ++
        coverManifest cover ++
        lit "    <item id=`chapter` href=`chapter.xhtml` media-type=`application/xhtml+xml`/>\n" ++
        manifestBlock allResources ++
        lit "  </manifest>\n" ++
        lit "  <spine>\n" ++
        coverSpine cover ++
        lit "    <itemref idref=`chapter`/>\n" ++
        lit "  </spine>\n" ++
        lit "</package>\n").

Definition navXhtml (title language : jsstring) : Buffer :=
  utf8 (lit "<?xml version=`1.0` encoding=`UTF-8`?>\n" ++
        lit "<html xmlns=`http://www.w3.org/1999/xhtml` xmlns:epub=`http://www.idpf.org/2007/ops` lang=`" ++
        escapeHtml language ++ lit "`>\n" ++
        lit "  <head>\n" ++
        lit "    <title>" ++ escapeHtml title ++ lit "</title>\n" ++
        lit "  </head>\n" ++
        lit "  <body>\n" ++
        lit "    <nav epub:type=`toc` id=`toc`>\n" ++
        lit "      <ol>\n" ++
        lit "        <li><a href=`chapter.xhtml`>" ++ escapeHtml title ++
        lit "</a></li>\n" ++
        lit "      </ol>\n" ++
        lit "    </nav>\n" ++
        lit "  </body>\n" ++
        lit "</html>\n").

Definition chapterXhtml (title language bodyHtml : jsstring)
    (includeTitleInContent : bool) : Buffer :=
  utf8 (lit "<?xml version=`1.0` encoding=`UTF-8`?>\n" ++
        lit "<html xmlns=`http://www.w3.org/1999/xhtml` lang=`" ++
        escapeHtml language ++ lit "`>\n" ++
        lit "  <head>\n" ++
        lit "    <title>" ++ escapeHtml title ++ lit "</title>\n" ++
        lit "    <meta charset=`UTF-8` />\n" ++
        lit "    <style>\n" ++
        lit "      h1 { font-size: 1.2em; margin: 0 0 0.6em 0; line-height: 1.2; }\n" ++
        lit "      header { margin: 0; }\n" ++
        lit "    </style>\n" ++
        lit "  </head>\n" ++
        lit "  <body>\n" ++
        (if includeTitleInContent
         then lit "    <header>\n" ++
              lit "      <h1>" ++ escapeHtml title ++ lit "</h1>\n" ++
              lit "    </header>\n"
         else []) ++
        lit "    <article>\n" ++
        bodyHtml ++ lit "\n" ++
        lit "    </article>\n" ++
        lit "  </body>\n" ++
        lit "</html>\n").

Definition coverXhtml (title language : jsstring) (cover : EpubResource)
  : Buffer :=
  utf8 (lit "<?xml version=`1.0` encoding=`UTF-8`?>\n" ++
        lit "<html xmlns=`http://www.w3.org/1999/xhtml` lang=`" ++
        escapeHtml language ++ lit "`>\n" ++
        lit "  <head>\n" ++
        lit "    <title>" ++ escapeHtml title ++ lit "</title>\n" ++
        lit "    <meta charset=`UTF-8` />\n" ++
        lit "    <style>\n" ++
        lit "      html, body { margin: 0; padding: 0; height: 100%; }\n" ++
        lit "      img { display: block; width: 100%; height: 100%; object-fit: contain; }\n" ++
        lit "    </style>\n" ++
        lit "  </head>\n" ++
        lit "  <body>\n" ++
        lit "    <img src=`" ++ escapeHtml (href cover) ++ lit "` alt=`" ++
        escapeHtml title ++ lit "`/>\n" ++
        lit "  </body>\n" ++
        lit "</html>\n").

(** The [entries] array handed to [buildZip]; [uuid] is the value of
    [crypto.randomUUID()]. *)
Definition epubEntries (uuid : jsstring) (options : EpubOptions)
  : list Zip.ZipEntry :=
  let title := title_of options in
  let author := author_of options in
  let language := language_of options in
  let bodyHtml := bodyHtml_of options in
  let coverResource := coverResource options in
  let includeTitleInContent := includeTitle_of options in
  let allResources := allResources_of options in
  [ {| Zip.name := lit "mimetype"; Zip.data := mimetype |};
    {| Zip.name := lit "META-INF/container.xml"; Zip.data := containerXml |};
    {| Zip.name := lit "OEBPS/content.opf";
       Zip.data := contentOpf uuid title language author coverResource
                     allResources |};
    {| Zip.name := lit "OEBPS/nav.xhtml";
       Zip.data := navXhtml title language |} ] ++
  match coverResource with
  | Some cover => [ {| Zip.name := lit "OEBPS/cover.xhtml";
                       Zip.data := coverXhtml title language cover |} ]
  | None => []
  end ++
  [ {| Zip.name := lit "OEBPS/chapter.xhtml";
       Zip.data := chapterXhtml title language bodyHtml
                     includeTitleInContent |} ] ++
  map (fun resource => {| Zip.name := lit "OEBPS/" ++ href resource;
                          Zip.data := data resource |}) allResources.

Definition buildEpubBuffer (uuid : jsstring) (options : EpubOptions)
  : result Buffer :=
  Zip.buildZip (epubEntries uuid options).

(** *** Vocabulary of the properties *)

(** A field that is missing, empty, or made of white space only. *)
Definition blank (v : option jsstring) : Prop :=
  match v with
  | None => True
  | Some s => Forall (fun c => is_space c = true) s
  end.

(** [needle] is a substring of [text]. *)
Definition substring (needle text : jsstring) : Prop :=
  exists before after, text = before ++ needle ++ after.

(** [needle] occurs in the text whose UTF-8 encoding is [document]. *)
Definition occurs_in (needle : jsstring) (document : Buffer) : Prop :=
  exists text, document = utf8 text /\ substring needle text.

(** The entry names in the order the specification's sentence gives: the
    content document fifth, the cover document after it. *)
Definition names_as_specified (options : EpubOptions) : list jsstring :=
  [ lit "mimetype"; lit "META-INF/container.xml"; lit "OEBPS/content.opf";
    lit "OEBPS/nav.xhtml"; lit "OEBPS/chapter.xhtml" ] ++
  match coverResource options with
  | Some _ => [ lit "OEBPS/cover.xhtml" ]
  | None => []
  end ++
  map (fun resource => lit "OEBPS/" ++ href resource)
    (allResources_of options).

(** The first 58 bytes of a container whose first entry is the stored,
    bare [mimetype] file: a minimal local header followed by the name and
    the 20 bytes of data. *)
Definition mimetype_record : Buffer :=
  le_bytes 4 0x04034b50 ++  (* local file header signature *)
  le_bytes 2 20 ++          (* version needed to extract *)
  le_bytes 2 0 ++           (* general purpose flags *)
  le_bytes 2 0 ++           (* compression method: stored *)
  le_bytes 2 0 ++           (* modification time *)
  le_bytes 2 0 ++           (* modification date *)
  le_bytes 4 0x2CAB616F ++  (* CRC-32 of the data *)
  le_bytes 4 20 ++          (* compressed size *)
  le_bytes 4 20 ++          (* uncompressed size *)
  le_bytes 2 8 ++           (* length of the name *)
  le_bytes 2 0 ++           (* length of the extra field: none *)
  String.list_byte_of_string "mimetype" ++
  String.list_byte_of_string "application/epub+zip".

(** The name of the cover document, when there is a cover. *)
Definition cover_names (options : EpubOptions) : list jsstring :=
  match coverResource options with
  | Some _ => [ lit "OEBPS/cover.xhtml" ]
  | None => []
  end.

(** The five characters [escapeHtml] replaces, and what one code unit
    becomes when each is replaced on its own. *)
Definition is_markup (c : N) : bool :=
  ((c =? 38) || (c =? 60) || (c =? 62) || (c =? 34) || (c =? 39))%N.

Definition entity (c : N) : jsstring :=
  (if c =? 38 then lit "&amp;"
   else if c =? 60 then lit "&lt;"
   else if c =? 62 then lit "&gt;"
   else if c =? 34 then lit "&quot;"
   else if c =? 39 then lit "&#39;"
   else [c])%N.

(** *** Sample inputs *)

Definition sample_image : EpubResource :=
  {| id := lit "img1"; href := lit "images/a.png";
     mediaType := lit "image/png"; data := [x89; x50; x4e; x47]%byte;
     properties := None |}.

Definition sample_cover : EpubResource :=
  {| id := lit "cover-image"; href := lit "images/cover.jpg";
     mediaType := lit "image/jpeg"; data := [xff; xd8; xff]%byte;
     properties := Some (lit "cover-image") |}.

(** A blank title, no author, an empty language, one image and a cover. *)
Definition sample_options : EpubOptions :=
  {| title := Some (lit "  "); author := None; language := Some [];
     bodyHtml := Some (lit "<p>Hi</p>"); resources := Some [sample_image];
     coverResource := Some sample_cover; includeTitleInContent := None |}.

Definition sample_uuid : jsstring :=
  lit "123e4567-e89b-42d3-a456-426614174000".

(** The archive built from the sample. *)
Definition sample_epub :=
  Eval vm_compute in
    match buildEpubBuffer sample_uuid sample_options with
    | Ok bytes => bytes
    | Throw _ => []
    end.

End Epub.

(** ** Message encoder: [buildMimeMessage] and its helpers of email.ts *)
Module Mime.
Import JS.

Definition CRLF : jsstring := lit "\r\n".

Definition isAscii (value : jsstring) : bool :=
  forallb (fun c => negb (127 <? c)%N) value.

Definition is_cr_or_lf (c : N) : bool := ((c =? 13) || (c =? 10))%N.

Definition sanitizeHeader (value : jsstring) : jsstring :=
  trim (replace_runs is_cr_or_lf (lit " ") value).

(** The base64 alphabet and [buf.toString("base64")]. *)
Definition base64_char (n : N) : N :=
  (if n <? 26 then 65 + n
   else if n <? 52 then 97 + (n - 26)
   else if n <? 62 then 48 + (n - 52)
   else if n =? 62 then 43 else 47)%N.

Fixpoint base64 (bs : Buffer) : jsstring :=
  match bs with
  | [] => []
  | [a] =>
      let x := Byte.to_N a in
      [ base64_char (N.shiftr x 2);
        base64_char (N.shiftl (N.land x 3) 4); 61%N; 61%N ]
  | [a; b] =>
      let x := Byte.to_N a in
      let y := Byte.to_N b in
      [ base64_char (N.shiftr x 2);
        base64_char (N.lor (N.shiftl (N.land x 3) 4) (N.shiftr y 4));
        base64_char (N.shiftl (N.land y 15) 2); 61%N ]
  | a :: b :: c :: rest =>
      let x := Byte.to_N a in
      let y := Byte.to_N b in
      let z := Byte.to_N c in
      base64_char (N.shiftr x 2)
      :: base64_char (N.lor (N.shiftl (N.land x 3) 4) (N.shiftr y 4))
      :: base64_char (N.lor (N.shiftl (N.land y 15) 2) (N.shiftr z 6))
      :: base64_char (N.land z 63)
      :: base64 rest
  end.

(** The loop of [chunkBase64]; each pass consumes 76 units, so as many
    passes as the string has units are enough. *)
Fixpoint chunk_loop (fuel : nat) (value : jsstring) : jsstring :=
  match fuel with
  | O => []
  | S fuel' =>
      match value with
      | [] => []
      | _ => take 76 value ++ CRLF ++ chunk_loop fuel' (drop 76 value)
      end
  end.

Definition chunkBase64 (value : jsstring) : jsstring :=
  trimEnd (chunk_loop (length value) value).

Definition encodeHeader (value : jsstring) : jsstring :=
  if isAscii value then sanitizeHeader value
  else lit "=?UTF-8?B?" ++ base64 (utf8 value) ++ lit "?=".

Definition is_printable_ascii (c : N) : bool := ((32 <=? c) && (c <=? 126))%N.
Definition is_quote_or_backslash (c : N) : bool := ((c =? 34) || (c =? 92))%N.

(** [normalize] stands for [String.prototype.normalize("NFKD")]. *)
Definition toAsciiFilename (normalize : jsstring -> jsstring)
    (value : jsstring) : jsstring :=
  let normalized := filter (fun c => is_printable_ascii c = true)
                      (normalize value) in
  let cleaned :=
    trim (replace_runs is_space (lit " ")
            (replace_runs is_quote_or_backslash (lit " ") normalized)) in
  match cleaned with
  | [] => lit "Article.epub"
  | _ => cleaned
  end.

Definition hex_digit (n : N) : N := (if n <? 10 then 48 + n else 55 + n)%N.

(** ["%" + XX], upper case. *)
Definition percent (n : N) : jsstring :=
  [37%N; hex_digit (n / 16); hex_digit (n mod 16)].

Definition is_alnum (c : N) : bool :=
  ((65 <=? c) && (c <=? 90) || (97 <=? c) && (c <=? 122)
   || (48 <=? c) && (c <=? 57))%N.

(** Units [encodeURIComponent] leaves alone: letters, digits and
    [- _ . ! ~ * ' ( )]. *)
Definition uri_unreserved (c : N) : bool :=
  (is_alnum c || (c =? 45) || (c =? 95) || (c =? 46) || (c =? 33)
   || (c =? 126) || (c =? 42) || (c =? 39) || (c =? 40) || (c =? 41))%N.

Definition percent_bytes (bs : list byte) : jsstring :=
  flat_map (fun b => percent (Byte.to_N b)) bs.

(** [encodeURIComponent]: raises a URI error on a lone surrogate. *)
Fixpoint encodeURIComponent (s : jsstring) : result jsstring :=
  match s with
  | [] => Ok []
  | c :: rest =>
      if is_low_surrogate c then Throw URIError
      else if is_high_surrogate c then
        match rest with
        | d :: rest' =>
            if is_low_surrogate d then
              tail ← encodeURIComponent rest';
              mret (percent_bytes (utf8_code_point (pair_code_point c d))
                    ++ tail)
            else Throw URIError
        | [] => Throw URIError
        end
      else if uri_unreserved c then
        tail ← encodeURIComponent rest; mret (c :: tail)
      else
        tail ← encodeURIComponent rest;
        mret (percent_bytes (utf8_code_point c) ++ tail)
  end.

Definition is_rfc5987_extra (c : N) : bool :=
  ((c =? 33) || (c =? 39) || (c =? 40) || (c =? 41) || (c =? 42))%N.

Definition encodeRFC5987ValueChars (value : jsstring) : result jsstring :=
  encoded ← encodeURIComponent value;
  mret (flat_map (fun c => if is_rfc5987_extra c then percent c else [c])
          encoded).

Definition encodeFilenameHeader (normalize : jsstring -> jsstring)
    (value : jsstring) : result (jsstring * jsstring) :=
  let sanitized := sanitizeHeader value in
  let asciiFilename := toAsciiFilename normalize sanitized in
  rfc5987Filename ← encodeRFC5987ValueChars sanitized;
  mret (asciiFilename, rfc5987Filename).

Record MimeInput : Type := {
  title : jsstring;
  filename : jsstring;
  epubBuffer : Buffer;
  senderEmail : jsstring;
  kindleEmail : jsstring
}.

(** What a call reads from its environment: [crypto.randomUUID()] and
    [new Date().toUTCString()]. *)
Record MimeEnv : Type := { randomUUID : jsstring; utcNow : jsstring }.

(** [v || d] on a string. *)
Definition or_else (v d : jsstring) : jsstring :=
  match v with
  | [] => d
  | _ => v
  end.

(** The [lines] array of [buildMimeMessage]. *)
Definition mimeLines (normalize : jsstring -> jsstring) (env : MimeEnv)
    (input : MimeInput) : result (list jsstring) :=
  let boundary := lit "raycast-" ++ randomUUID env in
  let subject := encodeHeader (or_else (title input) (lit "Reading")) in
  let now := utcNow env in
  let textBody := lit "Here is your article in EPUB format." in
  let attachmentBase64 := chunkBase64 (base64 (epubBuffer input)) in
  names ← encodeFilenameHeader normalize
             (or_else (filename input) (lit "Article.epub"));
  let asciiFilename := names.1 in
  let rfc5987Filename := names.2 in
  mret [ lit "Date: " ++ now;
         lit "From: " ++ sanitizeHeader (senderEmail input);
         lit "To: " ++ sanitizeHeader (kindleEmail input);
         lit "Subject: " ++ subject;
         lit "MIME-Version: 1.0";
         lit "Content-Type: multipart/mixed; boundary=`" ++ boundary ++ lit "`";
         [];
         lit "--" ++ boundary;
         lit "Content-Type: text/plain; charset=`utf-8`";
         lit "Content-Transfer-Encoding: 7bit";
         [];
         textBody;
         [];
         lit "--" ++ boundary;
         lit "Content-Type: application/epub+zip; name=`" ++ asciiFilename ++
           lit "`; name*=UTF-8''" ++ rfc5987Filename;
         lit "Content-Transfer-Encoding: base64";
         lit "Content-Disposition: attachment; filename=`" ++ asciiFilename ++
           lit "`; filename*=UTF-8''" ++ rfc5987Filename;
         [];
         attachmentBase64;
         [];
         lit "--" ++ boundary ++ lit "--";
         [] ].

Definition buildMimeMessage (normalize : jsstring -> jsstring)
    (env : MimeEnv) (input : MimeInput) : result jsstring :=
  lines ← mimeLines normalize env input;
  mret (join CRLF lines).

(** [dotStuff]. *)
Definition stuff_line (line : jsstring) : jsstring :=
  if startsWith (lit ".") line then lit "." ++ line else line.

Definition dotStuff (message : jsstring) : jsstring :=
  join CRLF (map stuff_line (split_lines message)).

(** *** Vocabulary of the properties and sample inputs *)

(** Every line feed of [s] comes right after a carriage return;
    [after_cr] tells whether the unit before [s] is one. *)
Fixpoint crlf_only (after_cr : bool) (s : jsstring) : bool :=
  match s with
  | [] => true
  | c :: rest =>
      (if (c =? 10)%N then after_cr else true) && crlf_only (c =? 13)%N rest
  end.

(** A text without line feed. *)
Definition no_lf (l : jsstring) : Prop := ~ In 10%N l.

(** A text without carriage return and without line feed. *)
Definition single_line (s : jsstring) : Prop :=
  Forall (fun c => is_cr_or_lf c = false) s.

(** The characters of base64 text: letters, digits, [+], [/] and [=]. *)
Definition base64_alphabet (c : N) : bool :=
  (is_alnum c || (c =? 43) || (c =? 47) || (c =? 61))%N.

(** The characters of an encoded parameter value: letters, digits,
    [- _ . ~] and the percent sign of an escape. *)
Definition attr_char (c : N) : bool :=
  (is_alnum c || (c =? 45) || (c =? 95) || (c =? 46) || (c =? 126)
   || (c =? 37))%N.

(** Positions in [lines] of the header and of the delimiters that carry
    the boundary. *)
Definition boundary_lines : list nat := [5; 7; 13; 20]%nat.
Definition date_line : nat := 0%nat.
Definition payload_line : nat := 18%nat.

Definition sample_input : MimeInput :=
  {| title := lit "Hello"; filename := lit "Hello.epub";
     epubBuffer := String.list_byte_of_string "PK";
     senderEmail := lit "me@example.org";
     kindleEmail := lit "me@kindle.com" |}.

(** Two calls that draw the same identifier at different times. *)
Definition sample_env_1 : MimeEnv :=
  {| randomUUID := lit "123e4567-e89b-42d3-a456-426614174000";
     utcNow := lit "Mon, 02 Nov 2026 10:00:00 GMT" |}.
Definition sample_env_2 : MimeEnv :=
  {| randomUUID := lit "123e4567-e89b-42d3-a456-426614174000";
     utcNow := lit "Mon, 02 Nov 2026 10:00:01 GMT" |}.

End Mime.

(** ** SMTP session client: class [SmtpClient] of email.ts *)
Module Smtp.
Import JS.

Inductive SmtpSecurity : Type := ssl | starttls | none.

Record SmtpClientOptions : Type := {
  host : jsstring;
  port : Z;
  security : SmtpSecurity;
  timeoutMs : option Z
}.

Record SmtpResponse : Type := { code : N; lines : list jsstring }.

(** The transports the client opens. *)
Inductive socket : Type :=
| NetSocket (host : jsstring) (port : Z)      (* [net.connect({host, port})] *)
| TlsSocket (host : jsstring) (port : Z)      (* [tls.connect({host, port, servername})] *)
| TlsOver (inner : socket) (servername : jsstring).
                                              (* [tls.connect({socket, servername})] *)

(** What the client does to its transports, in order. *)
Inductive action : Type :=
| Connect (s : socket)
| Write (s : socket) (data : jsstring)
| End (s : socket)
| Destroy (s : socket).

(** The [pending] slot.  Its [resolve] and [reject] functions are the
    continuation of the suspended caller, kept by [Wait] below; its timer
    runs for [timeout] milliseconds. *)
Record pending_slot : Type := { expected : option (list N); timeout : Z }.

(** The fields of an [SmtpClient], and the log of its transport actions. *)
Record client : Type := {
  socket_ : option socket;
  buffer : jsstring;
  currentResponseCode : option N;
  currentResponseLines : list jsstring;
  queuedResponses : list SmtpResponse;
  pending : option pending_slot;
  options : SmtpClientOptions;
  log : list action
}.

Definition set_socket (v : option socket) (c : client) : client :=
  {| socket_ := v; buffer := buffer c;
     currentResponseCode := currentResponseCode c;
     currentResponseLines := currentResponseLines c;
     queuedResponses := queuedResponses c; pending := pending c;
     options := options c; log := log c |}.

Definition set_buffer (v : jsstring) (c : client) : client :=
  {| socket_ := socket_ c; buffer := v;
     currentResponseCode := currentResponseCode c;
     currentResponseLines := currentResponseLines c;
     queuedResponses := queuedResponses c; pending := pending c;
     options := options c; log := log c |}.

Definition set_current (code : option N) (lines : list jsstring)
    (c : client) : client :=
  {| socket_ := socket_ c; buffer := buffer c;
     currentResponseCode := code; currentResponseLines := lines;
     queuedResponses := queuedResponses c; pending := pending c;
     options := options c; log := log c |}.

Definition set_queued (v : list SmtpResponse) (c : client) : client :=
  {| socket_ := socket_ c; buffer := buffer c;
     currentResponseCode := currentResponseCode c;
     currentResponseLines := currentResponseLines c;
     queuedResponses := v; pending := pending c;
     options := options c; log := log c |}.

Definition set_pending (v : option pending_slot) (c : client) : client :=
  {| socket_ := socket_ c; buffer := buffer c;
     currentResponseCode := currentResponseCode c;
     currentResponseLines := currentResponseLines c;
     queuedResponses := queuedResponses c; pending := v;
     options := options c; log := log c |}.

Definition record (a : action) (c : client) : client :=
  {| socket_ := socket_ c; buffer := buffer c;
     currentResponseCode := currentResponseCode c;
     currentResponseLines := currentResponseLines c;
     queuedResponses := queuedResponses c; pending := pending c;
     options := options c; log := log c ++ [a] |}.

(** [new SmtpClient(options)]. *)
Definition SmtpClient (options : SmtpClientOptions) : client :=
  {| socket_ := None; buffer := []; currentResponseCode := None;
     currentResponseLines := []; queuedResponses := []; pending := None;
     options := options; log := [] |}.

(** How a pending promise is settled: [resolve(response)] or
    [reject(error)]. *)
Inductive settlement : Type :=
| Resolve (response : SmtpResponse)
| Reject (error : exn).

(** *** Response parsing *)

Definition is_digit (c : N) : bool := ((48 <=? c) && (c <=? 57))%N.

(** Units that [.] does not match. *)
Definition is_line_terminator (c : N) : bool :=
  ((c =? 10) || (c =? 13) || (c =? 8232) || (c =? 8233))%N.

(** The regular expression of [processLine]: three digits, then a space
    or a hyphen, then any text without a line terminator up to the end of
    the line.  The result is [Number(match[1])] and the separator. *)
Definition match_line (line : jsstring) : option (N * N) :=
  match line with
  | d1 :: d2 :: d3 :: separator :: rest =>
      if is_digit d1 && is_digit d2 && is_digit d3
         && ((separator =? 32) || (separator =? 45))%N
         && forallb (fun c => negb (is_line_terminator c)) rest
      then Some ((100 * (d1 - 48) + 10 * (d2 - 48) + (d3 - 48))%N, separator)
      else None
  | _ => None
  end.

Definition unexpected_response (code : N) : exn :=
  Error (lit "Unexpected SMTP response (" ++ decimal code ++ lit ").").

(** [expected && !expected.includes(code)]. *)
Definition is_unexpected (expected : option (list N)) (code : N) : bool :=
  match expected with
  | Some codes => negb (existsb (N.eqb code) codes)
  | None => false
  end.

(** [processLine]; the second component is the call of [pending.resolve]
    or [pending.reject] it makes, if any. *)
Definition processLine (c : client) (line : jsstring)
  : client * option settlement :=
  match match_line line with
  | None => (c, None)
  | Some (code, separator) =>
      let c1 :=
        set_current
          (match currentResponseCode c with
           | None => Some code
           | Some first => Some first
           end)
          (currentResponseLines c ++ [line]) c in
      if (separator =? 32)%N then
        let response :=
          {| code := code; lines := currentResponseLines c1 |} in
        let c2 := set_current None [] c1 in
        match pending c2 with
        | Some slot =>
            let c3 := set_pending None c2 in
            if is_unexpected (expected slot) code
            then (c3, Some (Reject (unexpected_response code)))
            else (c3, Some (Resolve response))
        | None =>
            (set_queued (queuedResponses c2 ++ [response]) c2, None)
        end
      else (c1, None)
  end.

(** [rawLine.replace(/\r?\n$/, ...)] with the empty string: the final
    line feed goes, with the carriage return before it if there is one. *)
Definition strip_eol (rawLine : jsstring) : jsstring :=
  match rev rawLine with
  | n :: r :: rest =>
      if (n =? 10)%N then
        if (r =? 13)%N then rev rest else rev (r :: rest)
      else rawLine
  | [n] => if (n =? 10)%N then [] else rawLine
  | [] => rawLine
  end.

(** At most one caller is pending, so at most one line of a chunk settles
    a promise; the first settlement is the one kept. *)
Definition first_settlement (a b : option settlement) : option settlement :=
  match a with
  | Some _ => a
  | None => b
  end.

(** The [while (index !== -1)] loop of [handleData]; every pass removes at
    least one unit from the buffer. *)
Fixpoint handleData_loop (fuel : nat) (c : client) (s : option settlement)
  : client * option settlement :=
  match fuel with
  | O => (c, s)
  | S fuel' =>
      match indexOf 10 (buffer c) with
      | None => (c, s)
      | Some index =>
          let rawLine := take (index + 1) (buffer c) in
          let c1 := set_buffer (drop (index + 1) (buffer c)) c in
          let line := strip_eol rawLine in
          let '(c2, s2) := processLine c1 line in
          handleData_loop fuel' c2 (first_settlement s s2)
      end
  end.

Definition handleData (c : client) (chunk : jsstring)
  : client * option settlement :=
  let c1 := set_buffer (buffer c ++ chunk) c in
  handleData_loop (S (length (buffer c1))) c1 None.

(** [failPending], the handler of the socket's "error" event. *)
Definition failPending (c : client) (error : exn)
  : client * option settlement :=
  match pending c with
  | None => (c, None)
  | Some _ => (set_pending None c, Some (Reject error))
  end.

(** The callback of the timer set by [readResponse]. *)
Definition timer_fired (c : client) : client * option settlement :=
  match pending c with
  | Some _ =>
      (set_pending None c,
       Some (Reject (Error (lit "SMTP connection timed out."))))
  | None => (c, None)
  end.

(** *** Asynchronous methods

    An [async] method runs until it returns, throws, or awaits the pending
    promise; in the last case it resumes, with the settlement and the
    client as it then is, when the promise is settled. *)
Inductive task (A : Type) : Type :=
| Done (r : result A) (c : client)
| Wait (c : client) (k : settlement -> client -> task A).
Arguments Done {A} r c.
Arguments Wait {A} c k.

Definition async (A : Type) : Type := client -> task A.

Fixpoint task_bind {A B} (t : task A) (f : A -> async B) : task B :=
  match t with
  | Done (Ok a) c => f a c
  | Done (Throw e) c => Done (Throw e) c
  | Wait c k => Wait c (fun s c' => task_bind (k s c') f)
  end.

#[export] Instance async_ret : MRet async := fun A a c => Done (Ok a) c.
#[export] Instance async_bind : MBind async := fun A B f m c =>
  task_bind (m c) f.

Definition throw {A} (e : exn) : async A := fun c => Done (Throw e) c.

(** [try { body } catch { handler }]. *)
Fixpoint task_catch {A} (t : task A) (handler : exn -> async A) : task A :=
  match t with
  | Done (Ok a) c => Done (Ok a) c
  | Done (Throw e) c => handler e c
  | Wait c k => Wait c (fun s c' => task_catch (k s c') handler)
  end.

(** [try { body } finally { cleanup }] for a cleanup that cannot throw. *)
Fixpoint task_finally {A} (t : task A) (cleanup : client -> client)
  : task A :=
  match t with
  | Done r c => Done r (cleanup c)
  | Wait c k => Wait c (fun s c' => task_finally (k s c') cleanup)
  end.

(** [write]. *)
Definition write (data : jsstring) : async unit := fun c =>
  match socket_ c with
  | None => Done (Throw (Error (lit "SMTP connection unavailable."))) c
  | Some s => Done (Ok tt) (record (Write s data) c)
  end.

(** What the caller of [readResponse] gets when its promise is settled. *)
Definition settled (s : settlement) : async SmtpResponse := fun c =>
  match s with
  | Resolve response => Done (Ok response) c
  | Reject error => Done (Throw error) c
  end.

(** [readResponse]. *)
Definition readResponse (expected : option (list N)) : async SmtpResponse :=
  fun c =>
  match pending c with
  | Some _ =>
      Done (Throw (Error (lit "An SMTP response is already pending."))) c
  | None =>
      let timeoutMs := default 15000 (timeoutMs (options c)) in
      match queuedResponses c with
      | existing :: rest =>
          let c1 := set_queued rest c in
          if is_unexpected expected (code existing)
          then Done (Throw (unexpected_response (code existing))) c1
          else Done (Ok existing) c1
      | [] =>
          Wait (set_pending
                  (Some {| expected := expected; timeout := timeoutMs |}) c)
               settled
      end
  end.

Definition sendCommand (command : jsstring) (expected : option (list N))
  : async SmtpResponse :=
  _ ← write (command ++ lit "\r\n");
  readResponse expected.

Definition sendData (data : jsstring) : async unit :=
  write (data ++ lit "\r\n").

(** The ports [net.connect] and [tls.connect] accept: the integers from
    0 to 65535.  For any other port they throw ERR_SOCKET_BAD_PORT, a
    range error, as soon as they are called. *)
Definition valid_port (port : Z) : bool := (0 <=? port) && (port <=? 65535).

(** [connect].  With a port the transport accepts, opening it does not
    fail at once: a refused or broken connection is reported later by
    the "error" event.  With any other port the call that opens the
    transport throws, before [this.socket] is assigned and before
    anything is awaited: the client is left as it was. *)
Definition open_transport (options : SmtpClientOptions) : socket :=
  match security options with
  | ssl => TlsSocket (host options) (port options)
  | _ => NetSocket (host options) (port options)
  end.

Definition connect : async unit := fun c =>
  if valid_port (port (options c)) then
    let s := open_transport (options c) in
    (_ ← readResponse (Some [220%N]); mret tt)
      (record (Connect s) (set_socket (Some s) c))
  else Done (Throw (RangeError "port")) c.

(** [sendEhlo]; [hostname] is [os.hostname()]. *)
Definition sendEhlo (hostname : jsstring) : async unit :=
  _ ← sendCommand
        (lit "EHLO " ++ Mime.sanitizeHeader
                          (Mime.or_else hostname (lit "raycast")))
        (Some [250%N]);
  mret tt.

(** The second half of [startTls]: the transport is wrapped in place. *)
Definition upgrade : async unit := fun c =>
  match socket_ c with
  | None => Done (Throw (Error (lit "SMTP connection unavailable."))) c
  | Some current =>
      let s := TlsOver current (host (options c)) in
      Done (Ok tt) (record (Connect s) (set_socket (Some s) c))
  end.

Definition startTls : async unit :=
  _ ← sendCommand (lit "STARTTLS") (Some [220%N]);
  upgrade.

Definition authLogin (username password : jsstring) : async unit :=
  _ ← sendCommand (lit "AUTH LOGIN") (Some [334%N]);
  _ ← sendCommand (Mime.base64 (utf8 username)) (Some [334%N]);
  _ ← sendCommand (Mime.base64 (utf8 password)) (Some [235%N]);
  mret tt.

Record MailInput : Type := {
  from : jsstring;
  to : jsstring;
  message : jsstring
}.

Definition sendMail (input : MailInput) : async unit :=
  _ ← sendCommand (lit "MAIL FROM:<" ++ from input ++ lit ">")
        (Some [250%N]);
  _ ← sendCommand (lit "RCPT TO:<" ++ to input ++ lit ">")
        (Some [250%N; 251%N]);
  _ ← sendCommand (lit "DATA") (Some [354%N]);
  _ ← sendData (Mime.dotStuff (message input));
  _ ← sendCommand (lit ".") (Some [250%N]);
  mret tt.

Definition verifyRecipient (from to : jsstring) : async unit :=
  _ ← sendCommand (lit "MAIL FROM:<" ++ from ++ lit ">") (Some [250%N]);
  _ ← sendCommand (lit "RCPT TO:<" ++ to ++ lit ">") (Some [250%N; 251%N]);
  _ ← sendCommand (lit "RSET") (Some [250%N]);
  mret tt.

(** The [finally] block of [quit]: [this.socket?.end()] and
    [this.socket?.destroy()]. *)
Definition teardown (c : client) : client :=
  match socket_ c with
  | Some s => record (Destroy s) (record (End s) c)
  | None => c
  end.

Definition quit : async unit := fun c =>
  task_finally
    (task_catch
       ((_ ← sendCommand (lit "QUIT") (Some [221%N; 250%N]); mret tt) c)
       (fun _ => mret tt))
    teardown.

(** *** The event loop

    Between two events of the transport the suspended method does not
    run; each event is handled to its end, and then the method, if the
    event settled its promise, runs up to its next suspension. *)
Inductive event : Type :=
| Data (chunk : jsstring)      (* the socket's "data" event *)
| SocketError (error : exn)    (* the socket's "error" event *)
| TimerFired.                  (* the timer of the pending slot expires *)

Definition dispatch (ev : event) (c : client) : client * option settlement :=
  match ev with
  | Data chunk => handleData c chunk
  | SocketError error => failPending c error
  | TimerFired => timer_fired c
  end.

Definition deliver {A} (t : task A) (ev : event) : task A :=
  match t with
  | Done r c => Done r (dispatch ev c).1
  | Wait c k =>
      let '(c', s) := dispatch ev c in
      match s with
      | Some s => k s c'
      | None => Wait c' k
      end
  end.

Definition run {A} (t : task A) (events : list event) : task A :=
  foldl deliver t events.

(** *** Vocabulary of the properties

    A server reply on the wire: continuation lines, each with its code, a
    hyphen and a text, then the final line with the code of the reply, a
    space and a text; every line ends with CR LF. *)
Record reply : Type := {
  continuation : list (N * jsstring);
  reply_code : N;
  reply_text : jsstring
}.

Definition digits3 (code : N) : jsstring :=
  [ 48 + code / 100; 48 + (code / 10) mod 10; 48 + code mod 10 ]%N.

Definition reply_line (code separator : N) (text : jsstring) : jsstring :=
  digits3 code ++ separator :: text.

Definition continuation_lines (r : reply) : list jsstring :=
  map (fun l => reply_line l.1 45 l.2) (continuation r).

Definition reply_lines (r : reply) : list jsstring :=
  continuation_lines r ++ [reply_line (reply_code r) 32 (reply_text r)].

Definition wire (r : reply) : jsstring :=
  flat_map (fun line => line ++ lit "\r\n") (reply_lines r).

Definition plain_text (text : jsstring) : Prop :=
  forallb (fun c => negb (is_line_terminator c)) text = true.

Definition well_formed (r : reply) : Prop :=
  (reply_code r < 1000)%N /\ plain_text (reply_text r)
  /\ Forall (fun l => (l.1 < 1000)%N /\ plain_text l.2) (continuation r).

(** The response record the client builds from a reply. *)
Definition response_of (r : reply) : SmtpResponse :=
  {| code := reply_code r; lines := reply_lines r |}.

(** How the pending promise is settled by a reply. *)
Definition settle (expected : option (list N)) (r : reply) : settlement :=
  if is_unexpected expected (reply_code r)
  then Reject (unexpected_response (reply_code r))
  else Resolve (response_of r).

(** The client [c] part-way through a response: [lines] collected so
    far, [rest] still in the buffer. *)
Definition receiving (c : client) (first : option N) (lines : list jsstring)
    (rest : jsstring) : client :=
  {| socket_ := socket_ c; buffer := rest; currentResponseCode := first;
     currentResponseLines := lines; queuedResponses := queuedResponses c;
     pending := pending c; options := options c; log := log c |}.

(** The transport delivers [text] cut into the non-empty [chunks]. *)
Definition chunked (text : jsstring) (chunks : list jsstring) : Prop :=
  concat chunks = text /\ Forall (fun chunk => chunk <> []) chunks.

(** A connected client with nothing in flight: no partial line, no
    partial response, no queued response, no pending caller. *)
Definition idle (c : client) (s : socket) : Prop :=
  socket_ c = Some s /\ buffer c = [] /\ currentResponseLines c = []
  /\ queuedResponses c = [] /\ pending c = None.

(** The idle client after one more transport action. *)
Definition idle_after (a : list action) (c : client) : client :=
  {| socket_ := socket_ c; buffer := []; currentResponseCode := None;
     currentResponseLines := []; queuedResponses := []; pending := None;
     options := options c; log := log c ++ a |}.

(** The transport was shut down last: [end] then [destroy]. *)
Definition torn_down (c : client) : Prop :=
  match socket_ c with
  | Some s => exists before, log c = before ++ [End s; Destroy s]
  | None => True
  end.

(** What [quit], called on [c], has done when it has finished with the
    client [c']: the client holds what it held, and if that is a socket,
    QUIT was written to it, then it was ended and destroyed, and nothing
    else was done to any transport. *)
Definition closed_by_quit (c c' : client) : Prop :=
  socket_ c' = socket_ c
  /\ log c' = log c ++ match socket_ c with
                       | Some s => [Write s (lit "QUIT\r\n"); End s; Destroy s]
                       | None => []
                       end.

(** A call of [quit] on its way: if it has finished, it has returned
    normally and the transport is shut down; if it waits, a caller is
    pending and any settlement makes it finish that way. *)
Definition quit_progress (t : task unit) : Prop :=
  match t with
  | Done r c => r = Ok tt /\ torn_down c
  | Wait c k =>
      pending c <> None
      /\ forall s c', k s c' = Done (Ok tt) (teardown c')
  end.

(** A call of [connect] that waits for the greeting. *)
Definition awaits_greeting (t : task unit) : Prop :=
  match t with
  | Done _ _ => False
  | Wait c k =>
      (exists slot, pending c = Some slot /\ expected slot = Some [220%N])
      /\ forall s c', k s c' = match s with
                               | Resolve _ => Done (Ok tt) c'
                               | Reject error => Done (Throw error) c'
                               end
  end.

Definition sample_options : SmtpClientOptions :=
  {| host := lit "smtp.example.org"; port := 587; security := starttls;
     timeoutMs := None |}.

Definition sample_socket : socket := NetSocket (lit "smtp.example.org") 587.

(** The sample client once connected and greeted. *)
Definition sample_connected : client :=
  idle_after [Connect sample_socket]
    (set_socket (Some sample_socket) (SmtpClient sample_options)).

Definition sample_mail : MailInput :=
  {| from := lit "me@example.org"; to := lit "me@kindle.com";
     message := lit "Subject: hi\r\n\r\n.hidden\r\nbye" |}.

Definition sample_reply (code : N) (text : string) : reply :=
  {| continuation := []; reply_code := code; reply_text := lit text |}.

End Smtp.

(** ** The name of the generated file: [sanitizeFilename] of
    send-to-kindle.tsx, whose result [sendArticle] hands to
    [sendEpubByEmail] *)
Module Article.
Import JS.

(** The characters the first replacement removes: backslash, slash,
    colon, asterisk, question mark, double quote, the angle brackets and
    the vertical bar. *)
Definition is_forbidden (c : N) : bool :=
  ((c =? 92) || (c =? 47) || (c =? 58) || (c =? 42) || (c =? 63)
   || (c =? 34) || (c =? 60) || (c =? 62) || (c =? 124))%N.

(** [code > 31 && code !== 127]. *)
Definition is_visible (c : N) : bool := ((31 <? c) && negb (c =? 127))%N.

Definition sanitizeFilename (input : jsstring) : jsstring :=
  take 120
    (replace_runs is_space (lit " ")
       (filter (fun c => is_visible c = true)
          (replace_runs is_forbidden (lit " ") (trim input)))).

End Article.

(** ** Sending: [normalizePreferences], [sendEpubByEmail] and
    [testEmailPreferences] of email.ts *)
Module Email.
Import JS Smtp.

(** [EmailPreferences]: every field may be missing. *)
Module Preferences.
Record EmailPreferences : Type := {
  kindleEmail : option jsstring;
  senderEmail : option jsstring;
  smtpHost : option jsstring;
  smtpPort : option jsstring;
  smtpSecurity : option SmtpSecurity;
  smtpUsername : option jsstring;
  smtpPassword : option jsstring
}.
End Preferences.

(** A JavaScript number as far as the code looks at it: not-a-number, an
    infinity, or a finite value, which is a ratio of integers. *)
Inductive number : Type :=
| NaN
| Infinity (negative : bool)
| Ratio (numerator : Z) (denominator : positive).

(** [Number.isFinite(x)] and [x <= 0]. *)
Definition isFinite (x : number) : bool :=
  match x with
  | Ratio _ _ => true
  | _ => false
  end.

Definition le_zero (x : number) : bool :=
  match x with
  | NaN => false
  | Infinity negative => negative
  | Ratio numerator _ => numerator <=? 0
  end.

Record NormalizedEmailPreferences : Type := {
  kindleEmail : jsstring;
  senderEmail : jsstring;
  smtpHost : jsstring;
  smtpPort : number;
  smtpSecurity : SmtpSecurity;
  smtpUsername : jsstring;
  smtpPassword : jsstring
}.

(** Truthiness of a string, and of a string that may be [undefined]. *)
Definition truthy (v : jsstring) : bool :=
  match v with
  | [] => false
  | _ => true
  end.

Definition present (v : option jsstring) : bool :=
  match v with
  | Some s => truthy s
  | None => false
  end.

(** The [missing] array of [normalizePreferences], push by push. *)
Definition missing_settings (kindleEmail senderEmail smtpHost : option jsstring)
    (smtpPort : number) (smtpUsername smtpPassword : jsstring)
  : list jsstring :=
  (if present kindleEmail then [] else [lit "Kindle Address"]) ++
  (if present senderEmail then [] else [lit "Sender Address"]) ++
  (if present smtpHost then [] else [lit "SMTP Server"]) ++
  (if negb (isFinite smtpPort) || le_zero smtpPort
   then [lit "SMTP Port"] else []) ++
  (if truthy smtpUsername && negb (truthy smtpPassword)
      || negb (truthy smtpUsername) && truthy smtpPassword
   then [lit "Complete SMTP credentials"] else []).

(** [normalizePreferences]; [Number] is the conversion of a string to a
    number. *)
Definition normalizePreferences (Number : jsstring -> number)
    (preferences : Preferences.EmailPreferences)
  : result NormalizedEmailPreferences :=
  let kindleEmail := trim <$> Preferences.kindleEmail preferences in
  let senderEmail := trim <$> Preferences.senderEmail preferences in
  let smtpHost := trim <$> Preferences.smtpHost preferences in
  let smtpPort := Number (default [] (Preferences.smtpPort preferences)) in
  let smtpSecurity := default ssl (Preferences.smtpSecurity preferences) in
  let smtpUsername :=
    default [] (trim <$> Preferences.smtpUsername preferences) in
  let smtpPassword := default [] (Preferences.smtpPassword preferences) in
  let missing :=
    missing_settings kindleEmail senderEmail smtpHost smtpPort smtpUsername
      smtpPassword in
  match missing with
  | _ :: _ =>
      Throw (Error (lit "Incomplete email settings: "
                    ++ join (lit ", ") missing ++ lit "."))
  | [] =>
      Ok {| kindleEmail := default [] kindleEmail;
            senderEmail := default [] senderEmail;
            smtpHost := default [] smtpHost;
            smtpPort := smtpPort;
            smtpSecurity := smtpSecurity;
            smtpUsername := smtpUsername;
            smtpPassword := smtpPassword |}
  end.

(** The port that [net.connect] and [tls.connect] accept: an integer from
    0 to 65535. *)
Definition socket_port (x : number) : option Z :=
  match x with
  | Ratio numerator denominator =>
      let d := Z.pos denominator in
      if (numerator mod d =? 0) && (0 <=? numerator / d)
         && (numerator / d <=? 65535)
      then Some (numerator / d)
      else None
  | _ => None
  end.

(** [new SmtpClient({ host, port, security })].  The port of the
    settings is any number; the options of the model hold an integer.
    A number that is not an integer from 0 to 65535 makes [net.connect]
    and [tls.connect] raise ERR_SOCKET_BAD_PORT as soon as [connect]
    calls them (see [Smtp.connect]): [connect] then fails before the
    socket is assigned, [quit] finds no socket and returns, and the
    range error is what the caller gets, nothing having been done to any
    transport.  Such a call is modelled as failing here, with the same
    error. *)
Definition newSmtpClient (settings : NormalizedEmailPreferences)
  : result client :=
  match socket_port (smtpPort settings) with
  | Some port =>
      Ok (SmtpClient {| host := smtpHost settings; port := port;
                        security := smtpSecurity settings;
                        timeoutMs := None |})
  | None => Throw (RangeError "port")
  end.

(** [try { body } finally { await cleanup() }]: the outcome is that of
    the body, unless the cleanup throws. *)
Fixpoint task_then {A} (cleanup : task unit) (r : result A) : task A :=
  match cleanup with
  | Done (Ok _) c => Done r c
  | Done (Throw e) c => Done (Throw e) c
  | Wait c k => Wait c (fun s c' => task_then (k s c') r)
  end.

Fixpoint task_finally_await {A} (t : task A) (cleanup : async unit)
  : task A :=
  match t with
  | Done r c => task_then (cleanup c) r
  | Wait c k => Wait c (fun s c' => task_finally_await (k s c') cleanup)
  end.

Record SendEmailInput : Type := {
  title : jsstring;
  filename : jsstring;
  epubBuffer : Buffer;
  preferences : Preferences.EmailPreferences
}.

(** [sendEpubByEmail]; [hostname] is [os.hostname()].  The result is the
    error thrown before anything is done to a transport, or the session
    with the server. *)
Definition sendEpubByEmail (Number : jsstring -> number)
    (normalize : jsstring -> jsstring) (env : Mime.MimeEnv)
    (hostname : jsstring) (input : SendEmailInput) : result (task unit) :=
  settings ← normalizePreferences Number (preferences input);
  message ← Mime.buildMimeMessage normalize env
               {| Mime.title := title input;
                  Mime.filename := filename input;
                  Mime.epubBuffer := epubBuffer input;
                  Mime.senderEmail := senderEmail settings;
                  Mime.kindleEmail := kindleEmail settings |};
  client ← newSmtpClient settings;
  mret (task_finally_await
          ((_ ← connect;
            _ ← sendEhlo hostname;
            _ ← match smtpSecurity settings with
                | starttls => _ ← startTls; sendEhlo hostname
                | _ => mret tt
                end;
            _ ← (if truthy (smtpUsername settings)
                    && truthy (smtpPassword settings)
                 then authLogin (smtpUsername settings)
                        (smtpPassword settings)
                 else mret tt);
            sendMail {| from := senderEmail settings;
                        to := kindleEmail settings;
                        message := message |}) client)
          quit).

(** [testEmailPreferences]. *)
Definition testEmailPreferences (Number : jsstring -> number)
    (hostname : jsstring) (preferences : Preferences.EmailPreferences)
  : result (task unit) :=
  settings ← normalizePreferences Number preferences;
  client ← newSmtpClient settings;
  mret (task_finally_await
          ((_ ← connect;
            _ ← sendEhlo hostname;
            _ ← match smtpSecurity settings with
                | starttls => _ ← startTls; sendEhlo hostname
                | _ => mret tt
                end;
            _ ← (if truthy (smtpUsername settings)
                    && truthy (smtpPassword settings)
                 then authLogin (smtpUsername settings)
                        (smtpPassword settings)
                 else mret tt);
            verifyRecipient (senderEmail settings) (kindleEmail settings))
             client)
          quit).

(** *** Vocabulary of the properties *)

(** A method that can be stopped: whenever it waits, a caller is pending,
    a rejection makes it throw the error at once, and after a response it
    can be stopped again. *)
Inductive abortable {A} : task A -> Prop :=
| abortable_Done r c : abortable (Done r c)
| abortable_Wait c k :
    pending c <> None ->
    (forall e c', k (Reject e) c' = Done (Throw e) c') ->
    (forall response c', abortable (k (Resolve response) c')) ->
    abortable (Wait c k).

(** What a method does to the transport: started on a client with the
    socket [pre] and the options [opts], once it has finished the client
    still has these options and has a socket; if it has returned, the
    socket is [post] and [l] was added to the log; if it has thrown, a
    part of [l], from its start, was added to the log. *)
Definition effect {A} (m : async A) (opts : SmtpClientOptions)
    (pre post : option socket) (l : list action) : Prop :=
  forall c evs r c',
    socket_ c = pre -> options c = opts -> run (m c) evs = Done r c' ->
    options c' = opts
    /\ socket_ c' <> None
    /\ match r with
       | Ok _ => socket_ c' = post /\ log c' = log c ++ l
       | Throw _ => exists l', l' `prefix_of` l /\ log c' = log c ++ l'
       end.

(** A command line written to a socket. *)
Definition command (s : socket) (text : jsstring) : action :=
  Write s (text ++ lit "\r\n").

(** The options of the client of a session. *)
Definition client_options (settings : NormalizedEmailPreferences) (port : Z)
  : SmtpClientOptions :=
  {| host := smtpHost settings; port := port;
     security := smtpSecurity settings; timeoutMs := None |}.

Definition authenticates (settings : NormalizedEmailPreferences) : bool :=
  truthy (smtpUsername settings) && truthy (smtpPassword settings).

(** What [sendEpubByEmail] and [testEmailPreferences] have in common:
    everything in their [try] block but its last step. *)
Definition session (hostname : jsstring)
    (settings : NormalizedEmailPreferences) (final : async unit)
  : async unit :=
  _ ← connect;
  _ ← sendEhlo hostname;
  _ ← match smtpSecurity settings with
      | starttls => _ ← startTls; sendEhlo hostname
      | _ => mret tt
      end;
  _ ← (if truthy (smtpUsername settings) && truthy (smtpPassword settings)
       then authLogin (smtpUsername settings) (smtpPassword settings)
       else mret tt);
  final.

(** The socket a session ends on: the one [connect] opens, wrapped after
    STARTTLS. *)
Definition session_socket (opts : SmtpClientOptions) : socket :=
  match security opts with
  | starttls => TlsOver (open_transport opts) (host opts)
  | _ => open_transport opts
  end.

Definition ehlo (hostname : jsstring) : jsstring :=
  lit "EHLO " ++ Mime.sanitizeHeader (Mime.or_else hostname (lit "raycast")).

(** The transport actions of a session that goes through, in order. *)
Definition opening (hostname : jsstring)
    (settings : NormalizedEmailPreferences) (opts : SmtpClientOptions)
  : list action :=
  let plain := open_transport opts in
  let s := session_socket opts in
  [Connect plain; command plain (ehlo hostname)] ++
  match security opts with
  | starttls => [command plain (lit "STARTTLS"); Connect s;
                 command s (ehlo hostname)]
  | _ => []
  end ++
  (if authenticates settings
   then [command s (lit "AUTH LOGIN");
         command s (Mime.base64 (utf8 (smtpUsername settings)));
         command s (Mime.base64 (utf8 (smtpPassword settings)))]
   else []).

Definition mail_commands (s : socket) (input : MailInput) : list action :=
  [command s (lit "MAIL FROM:<" ++ from input ++ lit ">");
   command s (lit "RCPT TO:<" ++ to input ++ lit ">");
   command s (lit "DATA");
   command s (Mime.dotStuff (message input));
   command s (lit ".")].

Definition verify_commands (s : socket) (sender recipient : jsstring)
  : list action :=
  [command s (lit "MAIL FROM:<" ++ sender ++ lit ">");
   command s (lit "RCPT TO:<" ++ recipient ++ lit ">");
   command s (lit "RSET")].

Definition closing (s : socket) : list action :=
  [command s (lit "QUIT"); End s; Destroy s].

(** A server that answers: its replies, each with the chunks it arrives
    in, and the data events they make. *)
Definition served (replies : list (reply * list jsstring)) : list event :=
  flat_map (fun answer => map Data answer.2) replies.

(** Each reply is well formed, arrives in non-empty chunks, and has one of
    the codes the client expects at that point. *)
Definition answers (replies : list (reply * list jsstring))
    (codes : list (list N)) : Prop :=
  Forall2 (fun answer expected =>
             well_formed answer.1 /\ chunked (wire answer.1) answer.2
             /\ In (reply_code answer.1) expected)
    replies codes.

(** The codes a session expects, in order, up to its last step. *)
Definition opening_codes (settings : NormalizedEmailPreferences)
  : list (list N) :=
  [[220]; [250]]%N ++
  match smtpSecurity settings with
  | starttls => [[220]; [250]]%N
  | _ => []
  end ++
  (if authenticates settings then [[334]; [334]; [235]]%N else []).

Definition mail_codes : list (list N) := [[250]; [250; 251]; [354]; [250]]%N.
Definition verify_codes : list (list N) := [[250]; [250; 251]; [250]]%N.
Definition closing_codes : list (list N) := [[221; 250]]%N.

(** A method goes through: on an idle client with the socket [s] and the
    options [opts], when the server answers with the codes [codes], the
    method returns, and what follows it goes on from an idle client with
    the socket [s'] and [l] added to the log. *)
Definition completes {A} (m : async A) (opts : SmtpClientOptions)
    (s s' : socket) (l : list action) (codes : list (list N)) : Prop :=
  forall c replies,
    idle c s -> currentResponseCode c = None -> options c = opts ->
    answers replies codes ->
    exists a,
      forall B (f : A -> async B) more r c',
        run (f a (idle_after l (set_socket (Some s') c))) more = Done r c' ->
        run ((m ≫= f) c) (served replies ++ more) = Done r c'.

(** *** Sample inputs *)

(** A conversion that reads the one port the sample gives. *)
Definition sample_Number (s : jsstring) : number :=
  match s with
  | [53; 56; 55]%N => Ratio 587 1
  | _ => NaN
  end.

Definition sample_preferences : Preferences.EmailPreferences :=
  {| Preferences.kindleEmail := Some (lit " me@kindle.com ");
     Preferences.senderEmail := Some (lit "me@example.org");
     Preferences.smtpHost := Some (lit "smtp.example.org");
     Preferences.smtpPort := Some (lit "587");
     Preferences.smtpSecurity := Some starttls;
     Preferences.smtpUsername := Some (lit "me");
     Preferences.smtpPassword := Some (lit "secret") |}.

Definition sample_settings : NormalizedEmailPreferences :=
  {| kindleEmail := lit "me@kindle.com";
     senderEmail := lit "me@example.org";
     smtpHost := lit "smtp.example.org";
     smtpPort := Ratio 587 1;
     smtpSecurity := starttls;
     smtpUsername := lit "me";
     smtpPassword := lit "secret" |}.

Definition sample_send : SendEmailInput :=
  {| title := lit "Hello"; filename := lit "Hello.epub";
     epubBuffer := String.list_byte_of_string "PK";
     preferences := sample_preferences |}.

(** A server that answers each step with the given code, one reply per
    chunk. *)
Definition sample_answer (code : N) : reply * list jsstring :=
  (sample_reply code "ok", [wire (sample_reply code "ok")]).

Definition sample_server : list (reply * list jsstring) :=
  map sample_answer
    [220; 250; 220; 250; 334; 334; 235; 250; 250; 354; 250; 221]%N.

Definition sample_test_server : list (reply * list jsstring) :=
  map sample_answer
    [220; 250; 220; 250; 334; 334; 235; 250; 250; 250; 221]%N.

End Email.
(* ================================================================== *)
(** * Part II: properties                                              *)
(* ================================================================== *)

(** ** 32-bit arithmetic *)
Section Int32Facts.
Import JS.

Lemma ToUint32_range x : 0 <= ToUint32 x < 2 ^ 32.
Proof. unfold ToUint32. apply Z.mod_pos_bound. lia. Qed.

Lemma ToUint32_small x : 0 <= x < 2 ^ 32 -> ToUint32 x = x.
Proof. intros H. unfold ToUint32. apply Z.mod_small. lia. Qed.

Lemma ToUint32_ToInt32 x : ToUint32 (ToInt32 x) = ToUint32 x.
Proof.
  unfold ToInt32, ToUint32.
  destruct (x mod 2 ^ 32 <? 2 ^ 31).
  - apply Z.mod_mod. lia.
  - rewrite <- (Z.mod_add (x mod 2 ^ 32 - 2 ^ 32) 1 (2 ^ 32)) by lia.
    replace (x mod 2 ^ 32 - 2 ^ 32 + 1 * 2 ^ 32) with (x mod 2 ^ 32) by lia.
    apply Z.mod_mod. lia.
Qed.

Lemma ToUint32_testbit x n :
  0 <= n -> Z.testbit (ToUint32 x) n = (n <? 32) && Z.testbit x n.
Proof.
  intros Hn. unfold ToUint32.
  destruct (Z.ltb_spec n 32).
  - rewrite Z.mod_pow2_bits_low by lia. reflexivity.
  - rewrite Z.mod_pow2_bits_high by lia. reflexivity.
Qed.

Lemma ToUint32_lxor a b :
  ToUint32 (Z.lxor a b) = Z.lxor (ToUint32 a) (ToUint32 b).
Proof.
  apply Z.bits_inj'. intros n Hn.
  rewrite Z.lxor_spec, !ToUint32_testbit, Z.lxor_spec by assumption.
  destruct (n <? 32); reflexivity.
Qed.

Lemma ToUint32_land a b :
  ToUint32 (Z.land a b) = Z.land (ToUint32 a) (ToUint32 b).
Proof.
  apply Z.bits_inj'. intros n Hn.
  rewrite Z.land_spec, !ToUint32_testbit, Z.land_spec by assumption.
  destruct (n <? 32); reflexivity.
Qed.

Lemma ToUint32_xor a b :
  ToUint32 (JS.xor a b) = Z.lxor (ToUint32 a) (ToUint32 b).
Proof.
  unfold JS.xor. rewrite ToUint32_ToInt32, ToUint32_lxor, !ToUint32_ToInt32.
  reflexivity.
Qed.

Lemma ToUint32_and a b :
  ToUint32 (JS.and a b) = Z.land (ToUint32 a) (ToUint32 b).
Proof.
  unfold JS.and. rewrite ToUint32_ToInt32, ToUint32_land, !ToUint32_ToInt32.
  reflexivity.
Qed.

Lemma ToInt32_small x : 0 <= x < 2 ^ 31 -> ToInt32 x = x.
Proof.
  intros H. unfold ToInt32. rewrite Z.mod_small by lia.
  destruct (Z.ltb_spec x (2 ^ 31)); lia.
Qed.

Lemma ToInt32_mod_pow2 x k :
  0 <= k <= 32 -> ToInt32 x mod 2 ^ k = ToUint32 x mod 2 ^ k.
Proof.
  intros Hk. unfold ToInt32, ToUint32.
  destruct (x mod 2 ^ 32 <? 2 ^ 31); [reflexivity | ].
  replace (2 ^ 32) with (2 ^ (32 - k) * 2 ^ k) at 2
    by (rewrite <- Z.pow_add_r by lia; f_equal; lia).
  replace (x mod 2 ^ 32 - 2 ^ (32 - k) * 2 ^ k)
    with (x mod 2 ^ 32 + (- 2 ^ (32 - k)) * 2 ^ k) by lia.
  apply Z.mod_add. apply Z.pow_nonzero; lia.
Qed.

(** Masking with [2^k - 1] keeps the low [k] bits of the unsigned value. *)
Lemma and_ones x k :
  0 <= k < 31 -> JS.and x (Z.ones k) = ToUint32 x mod 2 ^ k.
Proof.
  intros Hk.
  assert (Hp : 0 < 2 ^ k < 2 ^ 31).
  { split; [apply Z.pow_pos_nonneg; lia | apply Z.pow_lt_mono_r; lia]. }
  unfold JS.and.
  rewrite (ToInt32_small (Z.ones k)) by (rewrite Z.ones_equiv; lia).
  rewrite Z.land_ones by lia.
  rewrite ToInt32_mod_pow2 by lia.
  apply ToInt32_small.
  pose proof (Z.mod_pos_bound (ToUint32 x) (2 ^ k)). lia.
Qed.

Lemma ushr_spec a n : 0 <= n < 32 -> ushr a n = Z.shiftr (ToUint32 a) n.
Proof.
  intros Hn. unfold ushr.
  rewrite (ToUint32_small n) by lia. rewrite Z.mod_small by lia. reflexivity.
Qed.

Lemma shiftr_range a n :
  0 <= n -> 0 <= a < 2 ^ 32 -> 0 <= Z.shiftr a n < 2 ^ 32.
Proof.
  intros Hn Ha. rewrite Z.shiftr_div_pow2 by lia.
  assert (0 < 2 ^ n) by (apply Z.pow_pos_nonneg; lia).
  split; [apply Z.div_pos; lia | ].
  apply Z.le_lt_trans with a; [ | lia].
  apply Z.div_le_upper_bound; nia.
Qed.

End Int32Facts.

(** ** The checksum *)
Section CrcFacts.
Import JS Crc.

Lemma byte_val_range b : 0 <= byte_val b < 256.
Proof. unfold byte_val. pose proof (Byte.to_N_bounded b). lia. Qed.

Lemma lxor_range a b :
  0 <= a < 2 ^ 32 -> 0 <= b < 2 ^ 32 -> 0 <= Z.lxor a b < 2 ^ 32.
Proof.
  intros Ha Hb.
  rewrite <- (ToUint32_small a), <- (ToUint32_small b) by assumption.
  rewrite <- ToUint32_lxor. apply ToUint32_range.
Qed.

Lemma ieee_shift_range r : 0 <= r < 2 ^ 32 -> 0 <= ieee_shift r < 2 ^ 32.
Proof.
  intros Hr. unfold ieee_shift.
  pose proof (shiftr_range r 1 ltac:(lia) Hr).
  destruct (Z.odd r); [ | assumption].
  apply lxor_range; [assumption | unfold ieee_poly; lia].
Qed.

Lemma ieee_iter_range k r :
  0 <= r < 2 ^ 32 -> 0 <= Nat.iter k ieee_shift r < 2 ^ 32.
Proof.
  intros Hr. induction k as [|k IH]; [exact Hr | ].
  simpl. apply ieee_shift_range, IH.
Qed.

(** The shift register is linear over exclusive or. *)
Lemma ieee_shift_lxor a b :
  ieee_shift (Z.lxor a b) = Z.lxor (ieee_shift a) (ieee_shift b).
Proof.
  unfold ieee_shift.
  rewrite <- !Z.bit0_odd, Z.lxor_spec, Z.shiftr_lxor.
  destruct (Z.testbit a 0), (Z.testbit b 0); simpl.
  - rewrite Z.lxor_assoc, (Z.lxor_comm ieee_poly), Z.lxor_assoc.
    rewrite Z.lxor_nilpotent, Z.lxor_0_r. reflexivity.
  - rewrite !Z.lxor_assoc. f_equal. apply Z.lxor_comm.
  - rewrite Z.lxor_assoc. reflexivity.
  - reflexivity.
Qed.

Lemma ieee_shift_0 : ieee_shift 0 = 0.
Proof. reflexivity. Qed.

Lemma ieee_iter_lxor k a b :
  Nat.iter k ieee_shift (Z.lxor a b)
  = Z.lxor (Nat.iter k ieee_shift a) (Nat.iter k ieee_shift b).
Proof.
  induction k as [|k IH]; [reflexivity | ].
  simpl. rewrite IH. apply ieee_shift_lxor.
Qed.

(** A register whose low [k] bits are clear is just shifted [k] times. *)
Lemma ieee_iter_shiftl k h :
  Nat.iter k ieee_shift (Z.shiftl h (Z.of_nat k)) = h.
Proof.
  induction k as [|k IH].
  - simpl. apply Z.shiftl_0_r.
  - rewrite Nat.iter_succ_r. unfold ieee_shift at 2.
    rewrite <- Z.bit0_odd, Z.shiftl_spec_low by lia.
    rewrite Z.shiftr_shiftl_l by lia.
    replace (Z.of_nat (S k) - 1) with (Z.of_nat k) by lia.
    exact IH.
Qed.

Lemma split_low_bits x k :
  0 <= k ->
  x = Z.lxor (Z.shiftl (Z.shiftr x k) k) (Z.land x (Z.ones k)).
Proof.
  intros Hk. apply Z.bits_inj'. intros n Hn.
  rewrite Z.lxor_spec, Z.land_spec.
  destruct (Z.ltb_spec n k).
  - rewrite Z.shiftl_spec_low, Z.ones_spec_low by lia.
    rewrite andb_true_r. reflexivity.
  - rewrite Z.shiftl_spec, Z.shiftr_spec, Z.ones_spec_high by lia.
    rewrite andb_false_r, xorb_false_r. f_equal. lia.
Qed.

(** Eight shifts of a register are its high part exclusive-ored with
    eight shifts of its low byte: the identity behind the table. *)
Lemma ieee_iter_split k x :
  Nat.iter k ieee_shift x
  = Z.lxor (Z.shiftr x (Z.of_nat k))
           (Nat.iter k ieee_shift (Z.land x (Z.ones (Z.of_nat k)))).
Proof.
  rewrite (split_low_bits x (Z.of_nat k)) at 1 by lia.
  rewrite ieee_iter_lxor, ieee_iter_shiftl. reflexivity.
Qed.

Lemma table_round_spec c : ToUint32 (table_round c) = ieee_shift (ToUint32 c).
Proof.
  pose proof (ToUint32_range c) as Hc.
  unfold table_round, ieee_shift.
  change 1 with (Z.ones 1) at 1. rewrite and_ones by lia.
  rewrite !ushr_spec by lia.
  change (2 ^ 1) with 2. rewrite Zmod_odd.
  destruct (Z.odd (ToUint32 c)); simpl.
  - rewrite ToUint32_xor, Z.lxor_comm. f_equal.
    apply ToUint32_small, shiftr_range; lia.
  - apply ToUint32_small, shiftr_range; lia.
Qed.

Lemma table_iter_spec k c :
  ToUint32 (Nat.iter k table_round c) = Nat.iter k ieee_shift (ToUint32 c).
Proof.
  induction k as [|k IH]; [reflexivity | ].
  simpl. rewrite table_round_spec, IH. reflexivity.
Qed.

Lemma table_entry_spec i :
  0 <= i < 2 ^ 32 -> table_entry i = Nat.iter 8 ieee_shift i.
Proof.
  intros Hi. unfold table_entry.
  rewrite ushr_spec by lia. rewrite Z.shiftr_0_r, table_iter_spec.
  rewrite ToUint32_small by assumption. reflexivity.
Qed.

Lemma table_get_spec index :
  0 <= index < 256 -> table_get index = Nat.iter 8 ieee_shift index.
Proof.
  intros Hi. unfold table_get.
  destruct (Z.ltb_spec index 0); [lia | ].
  unfold CRC_TABLE.
  rewrite (nth_indep _ 0 (table_entry (Z.of_nat 0)))
    by (rewrite length_map, length_seq; lia).
  rewrite (map_nth (fun i : nat => table_entry (Z.of_nat i))).
  rewrite seq_nth by lia.
  rewrite Nat.add_0_l, Z2Nat.id by lia.
  apply table_entry_spec. lia.
Qed.

(** One table-driven step of the code is one byte of the reference. *)
Lemma crc_update_spec crc b :
  ToUint32 (crc_update crc b) = ieee_byte (ToUint32 crc) b.
Proof.
  pose proof (ToUint32_range crc) as Hc.
  pose proof (byte_val_range b) as Hb.
  unfold crc_update, ieee_byte.
  change 255 with (Z.ones 8). rewrite and_ones by lia.
  rewrite (ToUint32_xor crc), (ToUint32_small (byte_val b)) by lia.
  set (x := Z.lxor (ToUint32 crc) (byte_val b)).
  assert (Hx : 0 <= x mod 2 ^ 8 < 256) by (apply Z.mod_pos_bound; lia).
  rewrite table_get_spec by exact Hx.
  rewrite ToUint32_xor, ushr_spec by lia.
  rewrite (ToUint32_small (Z.shiftr _ 8)) by (apply shiftr_range; lia).
  rewrite (ToUint32_small (Nat.iter _ _ _)) by (apply ieee_iter_range; lia).
  rewrite (ieee_iter_split 8 x).
  change (Z.of_nat 8) with 8. rewrite Z.land_ones by lia.
  f_equal. unfold x. rewrite Z.shiftr_lxor.
  rewrite (Z.shiftr_div_pow2 (byte_val b)) by lia.
  rewrite (Z.div_small (byte_val b)) by lia.
  symmetry. apply Z.lxor_0_r.
Qed.

Lemma crc_fold_spec bs crc :
  ToUint32 (fold_left crc_update bs crc)
  = fold_left ieee_byte bs (ToUint32 crc).
Proof.
  revert crc. induction bs as [|b bs IH]; intros crc; [reflexivity | ].
  simpl. rewrite IH, crc_update_spec. reflexivity.
Qed.

(** C1.  [crc32] is the IEEE 802.3 (ZIP) CRC-32: on every byte sequence
    it returns the value of the bit-serial reference, which starts from
    all ones and complements the result; it returns [0] on the empty input
    and [0xCBF43926] on the nine ASCII bytes "123456789". *)
Theorem crc32_is_ieee_crc32 :
  (forall buffer : list byte, crc32 buffer = crc32_reference buffer)
  /\ crc32 [] = 0
  /\ crc32 (String.list_byte_of_string "123456789") = 0xCBF43926.
Proof.
  split; [ | split; vm_compute; reflexivity].
  intros buffer. unfold crc32, crc32_reference.
  rewrite ushr_spec by lia. rewrite Z.shiftr_0_r.
  rewrite ToUint32_xor, crc_fold_spec. reflexivity.
Qed.

End CrcFacts.

(** ** Buffers *)
Section BufferFacts.
Import JS.

Lemma byte_val_of_Z z : byte_val (byte_of_Z z) = z mod 256.
Proof.
  unfold byte_val, byte_of_Z.
  pose proof (Z.mod_pos_bound z 256 ltac:(lia)) as Hm.
  destruct (Byte.of_N (Z.to_N (z mod 256))) as [b|] eqn:E.
  - apply Byte.to_of_N in E. rewrite E. lia.
  - apply Byte.of_N_None_iff in E. lia.
Qed.

Lemma length_le_bytes n v : length (le_bytes n v) = n.
Proof. revert v. induction n as [|n IH]; intros v; simpl; [ | rewrite IH]; reflexivity. Qed.

(** Reading back what was written. *)
Lemma le_value_le_bytes n v :
  0 <= v < 2 ^ (8 * Z.of_nat n) -> le_value (le_bytes n v) = v.
Proof.
  revert v. induction n as [|n IH]; intros v Hv.
  - simpl in *. lia.
  - cbn [le_bytes le_value]. rewrite byte_val_of_Z.
    replace (8 * Z.of_nat (S n)) with (8 + 8 * Z.of_nat n) in Hv by lia.
    rewrite Z.pow_add_r in Hv by lia. change (2 ^ 8) with 256 in Hv.
    rewrite IH.
    + pose proof (Z.div_mod v 256 ltac:(lia)). lia.
    + split; [apply Z.div_pos; lia | ].
      apply Z.div_lt_upper_bound; lia.
Qed.

Lemma writeUIntLE_Ok n v off buf h :
  writeUIntLE n v off buf = Ok h ->
  0 <= v < 2 ^ (8 * Z.of_nat n)
  /\ (off + n <= length buf)%nat
  /\ h = list_inserts off (le_bytes n v) buf.
Proof.
  unfold writeUIntLE.
  destruct (Z.ltb_spec v 0); simpl; [discriminate | ].
  destruct (Z.ltb_spec (2 ^ (8 * Z.of_nat n) - 1) v); [discriminate | ].
  destruct (Nat.ltb_spec (length buf) (off + n)); [discriminate | ].
  intros [= <-]. repeat split; lia.
Qed.

(** A field written over a stretch of equal length replaces it. *)
Lemma list_inserts_middle (pre old new post : list byte) :
  length old = length new ->
  list_inserts (length pre) new (pre ++ old ++ post) = pre ++ new ++ post.
Proof.
  intros Hlen.
  rewrite <- (Nat.add_0_r (length pre)), list_inserts_app_r.
  rewrite list_inserts_0_r by (symmetry; exact Hlen). reflexivity.
Qed.

Lemma bind_Ok {A B} (m : result A) (f : A -> result B) b :
  (m ≫= f) = Ok b -> exists a, m = Ok a /\ f a = Ok b.
Proof. destruct m as [a|e]; simpl; [eauto | discriminate]. Qed.

End BufferFacts.

(** ** The ZIP writer *)
Section ZipFacts.
Import JS Zip.

Lemma list_inserts_fresh (nb : list byte) :
  list_inserts 0 nb (replicate (length nb) x00%byte) = nb.
Proof.
  rewrite <- (app_nil_r (replicate _ _)).
  rewrite list_inserts_0_r by (rewrite length_replicate; reflexivity).
  apply app_nil_r.
Qed.

(** Peel one [writeUIntLE] off a successful chain of writes. *)
Ltac step_write H :=
  apply bind_Ok in H;
  let h := fresh "h" in
  let Hw := fresh "Hw" in
  destruct H as (h & Hw & H);
  apply writeUIntLE_Ok in Hw;
  let Hv := fresh "Hv" in
  let Hl := fresh "Hl" in
  destruct Hw as (Hv & Hl & ->); clear Hl.

Ltac layout_by_computation :=
  unfold copy, alloc;
  cbn [le_bytes list_inserts Nat.add replicate insert list_insert app];
  rewrite ?list_inserts_cons; repeat f_equal;
  try apply list_inserts_fresh.

Lemma localHeader_Ok e h :
  localHeader (utf8 (name e)) (Z.of_nat (length (data e)))
    (Crc.crc32 (data e)) = Ok h ->
  h = local_record e
  /\ Z.of_nat (length (data e)) < 2 ^ 32
  /\ Z.of_nat (length (utf8 (name e))) < 2 ^ 16
  /\ 0 <= Crc.crc32 (data e) < 2 ^ 32.
Proof.
  unfold localHeader, writeUInt32LE, writeUInt16LE. intros H.
  repeat step_write H.
  cbv [mret result_ret] in H. injection H as <-.
  repeat split; try lia.
  unfold local_record. layout_by_computation.
Qed.

Lemma centralHeader_Ok e off h :
  centralHeader (utf8 (name e)) (Z.of_nat (length (data e)))
    (Crc.crc32 (data e)) (Z.of_nat off) = Ok h ->
  h = central_record off e /\ Z.of_nat off < 2 ^ 32.
Proof.
  unfold centralHeader, writeUInt32LE, writeUInt16LE. intros H.
  repeat step_write H.
  cbv [mret result_ret] in H. injection H as <-.
  split; [ | lia].
  unfold central_record. layout_by_computation.
Qed.

Lemma length_local_record e :
  length (local_record e) = (30 + length (utf8 (name e)))%nat.
Proof. unfold local_record. rewrite !length_app, !length_le_bytes. lia. Qed.

Lemma length_central_record off e :
  length (central_record off e) = central_size e.
Proof.
  unfold central_record, central_size.
  rewrite !length_app, !length_le_bytes. lia.
Qed.

Lemma zip_step_Ok st off e st' :
  offset st = Z.of_nat off ->
  zip_step st e = Ok st' ->
  fileChunks st' = fileChunks st ++ [local_record e; data e]
  /\ centralChunks st' = centralChunks st ++ [central_record off e]
  /\ offset st' = Z.of_nat (off + entry_size e)
  /\ Z.of_nat off < 2 ^ 32
  /\ Z.of_nat (length (data e)) < 2 ^ 32
  /\ Z.of_nat (length (utf8 (name e))) < 2 ^ 16
  /\ 0 <= Crc.crc32 (data e) < 2 ^ 32.
Proof.
  intros Hoff H. unfold zip_step in H. rewrite Hoff in H.
  apply bind_Ok in H. destruct H as (local & Hl & H).
  apply bind_Ok in H. destruct H as (central & Hc & H).
  apply localHeader_Ok in Hl. destruct Hl as (-> & ? & ? & ?).
  apply centralHeader_Ok in Hc. destruct Hc as (-> & ?).
  unfold mret, result_ret in H. injection H as <-.
  split; [reflexivity | ]. split; [reflexivity | ].
  split; [ | auto].
  change (Z.of_nat off + Z.of_nat (length (local_record e))
          + Z.of_nat (length (data e)) = Z.of_nat (off + entry_size e)).
  rewrite length_local_record. unfold entry_size. lia.
Qed.

(** The loop appends the records of the entries, in order, and its
    running offset is the sum of the sizes of the entries written. *)
Lemma zip_loop_Ok entries : forall st off st',
  offset st = Z.of_nat off ->
  zip_loop entries st = Ok st' ->
  concat (fileChunks st') = concat (fileChunks st) ++ file_section entries
  /\ concat (centralChunks st')
     = concat (centralChunks st) ++ central_section off entries
  /\ offset st' = Z.of_nat (off + sum_list (entry_size <$> entries))
  /\ zip_fits off entries.
Proof.
  induction entries as [|e rest IH]; intros st off st' Hoff H.
  - cbv [zip_loop mret result_ret] in H. injection H as <-.
    unfold file_section. simpl. rewrite !app_nil_r, Nat.add_0_r. auto.
  - cbn [zip_loop] in H. apply bind_Ok in H. destruct H as (st1 & H1 & H).
    destruct (zip_step_Ok _ _ _ _ Hoff H1)
      as (Hf & Hc & Ho & ? & ? & ? & ?).
    destruct (IH _ _ _ Ho H) as (Hf' & Hc' & Ho' & Hfits).
    rewrite Hf', Hc', Ho', Hf, Hc. unfold file_section.
    cbn [map concat central_section fmap list_fmap sum_list zip_fits].
    rewrite !concat_app. cbn [concat]. rewrite !app_nil_r, <- !app_assoc.
    split; [reflexivity | ]. split; [reflexivity | ].
    split; [f_equal; unfold id; lia | auto].
Qed.

Lemma length_file_section entries :
  length (file_section entries) = sum_list (entry_size <$> entries).
Proof.
  unfold file_section. induction entries as [|e rest IH]; [reflexivity | ].
  cbn [map concat fmap list_fmap sum_list].
  rewrite !length_app, length_local_record, IH. unfold entry_size, id. lia.
Qed.

(** The whole output: the file section, the central directory, and an
    end record of 22 bytes. *)
Lemma buildZip_Ok entries bytes :
  buildZip entries = Ok bytes ->
  zip_fits 0 entries
  /\ exists endRecord,
       length endRecord = 22%nat
       /\ bytes = file_section entries ++ central_section 0 entries
                  ++ endRecord.
Proof.
  unfold buildZip. intros H.
  apply bind_Ok in H. destruct H as (st & Hloop & H).
  apply bind_Ok in H. destruct H as (er & Her & H).
  cbv [mret result_ret] in H. injection H as <-.
  destruct (zip_loop_Ok entries
              {| fileChunks := []; centralChunks := []; offset := 0 |}
              0%nat st eq_refl Hloop) as (Hf & Hc & _ & Hfits).
  simpl in Hf, Hc. split; [exact Hfits | ].
  exists er. split.
  - unfold endRecord, writeUInt32LE, writeUInt16LE in Her.
    repeat step_write Her. apply writeUIntLE_Ok in Her.
    destruct Her as (_ & _ & ->). rewrite !length_inserts. reflexivity.
  - rewrite concat_app, Hf, Hc. cbn [concat]. rewrite app_nil_r.
    reflexivity.
Qed.

Lemma local_offset_S e rest n :
  local_offset (e :: rest) (S n) = (entry_size e + local_offset rest n)%nat.
Proof. reflexivity. Qed.

Lemma zip_fits_lookup entries : forall off n e,
  zip_fits off entries -> entries !! n = Some e ->
  Z.of_nat (off + local_offset entries n) < 2 ^ 32
  /\ Z.of_nat (length (data e)) < 2 ^ 32
  /\ Z.of_nat (length (utf8 (name e))) < 2 ^ 16.
Proof.
  induction entries as [|e0 rest IH]; intros off n e Hfits Hn.
  - destruct n; discriminate.
  - destruct Hfits as ((? & ? & ? & ?) & Hrest). destruct n as [|n].
    + injection Hn as <-. unfold local_offset. simpl.
      rewrite Nat.add_0_r. auto.
    + rewrite local_offset_S, Nat.add_assoc. apply (IH _ _ _ Hrest Hn).
Qed.

(** The local header of entry [n] starts at [local_offset entries n]. *)
Lemma drop_file_section entries : forall n e tail,
  entries !! n = Some e ->
  exists tl, drop (local_offset entries n) (file_section entries ++ tail)
             = local_record e ++ tl.
Proof.
  induction entries as [|e0 rest IH]; intros n e tail Hn.
  - destruct n; discriminate.
  - destruct n as [|n].
    + injection Hn as <-. unfold local_offset, file_section. simpl.
      rewrite <- !app_assoc. eauto.
    + destruct (IH n e tail Hn) as (tl & Htl). exists tl.
      rewrite local_offset_S. unfold file_section in *.
      cbn [map concat]. rewrite <- !app_assoc, <- Htl.
      rewrite (app_assoc (local_record e0)).
      replace (entry_size e0)
        with (length (local_record e0 ++ data e0))
        by (rewrite length_app, length_local_record; reflexivity).
      rewrite <- drop_drop, drop_app_length. reflexivity.
Qed.

(** The central record of entry [n] starts [sum of the earlier records]
    into the central directory and names the offset of its local header. *)
Lemma drop_central_section entries : forall off n e tail,
  entries !! n = Some e ->
  exists tl,
    drop (sum_list (central_size <$> take n entries))
         (central_section off entries ++ tail)
    = central_record (off + local_offset entries n) e ++ tl.
Proof.
  induction entries as [|e0 rest IH]; intros off n e tail Hn.
  - destruct n; discriminate.
  - destruct n as [|n].
    + injection Hn as <-. unfold local_offset. simpl.
      rewrite Nat.add_0_r, <- app_assoc. eauto.
    + destruct (IH (off + entry_size e0)%nat n e tail Hn) as (tl & Htl).
      exists tl. rewrite local_offset_S, Nat.add_assoc, <- Htl.
      change (sum_list (central_size <$> take (S n) (e0 :: rest)))
        with (central_size e0 + sum_list (central_size <$> take n rest))%nat.
      cbn [central_section]. rewrite <- app_assoc.
      rewrite <- (length_central_record off e0) at 1.
      rewrite <- drop_drop, drop_app_length. reflexivity.
Qed.

Lemma readUIntLE_at k buf o f rec tl :
  drop o buf = rec ++ tl ->
  readUIntLE k buf (o + f) = le_value (take k (drop f (rec ++ tl))).
Proof. intros H. unfold readUIntLE. rewrite <- drop_drop, H. reflexivity. Qed.

(** C3.  In the output of [buildZip], for every entry [n] of the list:
    the local header sits at the sum of the sizes (30 + name length + data
    length) of the entries before it, and that sum is the offset in the
    entry's central directory record; the compressed and uncompressed size
    fields of both records equal the length of the data; the general
    purpose flags of both records are zero; and the version fields of both
    records are 20. *)
Theorem buildZip_record_fields entries bytes n e :
  buildZip entries = Ok bytes ->
  entries !! n = Some e ->
  let lo := local_offset entries n in
  let co := central_offset entries n in
  let len := Z.of_nat (length (data e)) in
  readUIntLE 4 bytes lo = 0x04034b50
  /\ readUIntLE 4 bytes co = 0x02014b50
  /\ readUIntLE 4 bytes (co + 42) = Z.of_nat lo
  /\ readUIntLE 4 bytes (lo + 18) = len
  /\ readUIntLE 4 bytes (lo + 22) = len
  /\ readUIntLE 4 bytes (co + 20) = len
  /\ readUIntLE 4 bytes (co + 24) = len
  /\ readUIntLE 2 bytes (lo + 6) = 0
  /\ readUIntLE 2 bytes (co + 8) = 0
  /\ readUIntLE 2 bytes (lo + 4) = 20
  /\ readUIntLE 2 bytes (co + 4) = 20
  /\ readUIntLE 2 bytes (co + 6) = 20.
Proof.
  intros Hzip Hn lo co len.
  destruct (buildZip_Ok _ _ Hzip) as (Hfits & er & _ & ->).
  destruct (zip_fits_lookup _ _ _ _ Hfits Hn) as (Hlo & Hlen & _).
  rewrite Nat.add_0_l in Hlo. fold lo in Hlo. fold len in Hlen.
  destruct (drop_file_section _ _ _ (central_section 0 entries ++ er) Hn)
    as (tl & Hl).
  destruct (drop_central_section _ 0%nat _ _ er Hn) as (tc & Hc).
  rewrite Nat.add_0_l in Hc. fold lo in Hl, Hc.
  assert (Hco : drop co (file_section entries ++ central_section 0 entries
                         ++ er) = central_record lo e ++ tc).
  { unfold co, central_offset. rewrite <- length_file_section.
    rewrite <- drop_drop, drop_app_length. exact Hc. }
  rewrite <- (Nat.add_0_r lo) at 1. rewrite <- (Nat.add_0_r co) at 1.
  rewrite !(readUIntLE_at _ _ lo _ _ _ Hl).
  rewrite !(readUIntLE_at _ _ co _ _ _ Hco).
  unfold local_record, central_record.
  cbn [le_bytes app drop take]. fold len.
  repeat split; rewrite ?take_0; apply (le_value_le_bytes 4); lia.
Qed.

Lemma crc32_range buffer : 0 <= Crc.crc32 buffer < 2 ^ 32.
Proof.
  unfold Crc.crc32. rewrite ushr_spec by lia. rewrite Z.shiftr_0_r.
  apply ToUint32_range.
Qed.

Lemma writeUIntLE_fits n v off buf :
  0 <= v < 2 ^ (8 * Z.of_nat n) -> (off + n <= length buf)%nat ->
  writeUIntLE n v off buf = Ok (list_inserts off (le_bytes n v) buf).
Proof.
  intros Hv Hl. unfold writeUIntLE.
  destruct (Z.ltb_spec v 0); [lia | ].
  destruct (Z.ltb_spec (2 ^ (8 * Z.of_nat n) - 1) v); [lia | ].
  destruct (Nat.ltb_spec (length buf) (off + n)); [lia | ].
  reflexivity.
Qed.

Ltac write_fits :=
  rewrite writeUIntLE_fits;
  [ cbn [mbind result_bind]
  | lia
  | rewrite ?length_inserts; unfold alloc; rewrite length_replicate; lia ].

Lemma localHeader_fits nb len crc :
  0 <= crc < 2 ^ 32 -> 0 <= len < 2 ^ 32 -> Z.of_nat (length nb) < 2 ^ 16 ->
  exists h, localHeader nb len crc = Ok h.
Proof.
  intros Hc Hl Hn. unfold localHeader, writeUInt32LE, writeUInt16LE.
  do 11 write_fits. eexists. reflexivity.
Qed.

Lemma centralHeader_fits nb len crc off :
  0 <= crc < 2 ^ 32 -> 0 <= len < 2 ^ 32 -> Z.of_nat (length nb) < 2 ^ 16 ->
  0 <= off < 2 ^ 32 ->
  exists h, centralHeader nb len crc off = Ok h.
Proof.
  intros Hc Hl Hn Ho. unfold centralHeader, writeUInt32LE, writeUInt16LE.
  do 17 write_fits. eexists. reflexivity.
Qed.

Lemma zip_loop_fits entries : forall st off,
  offset st = Z.of_nat off -> zip_fits off entries ->
  exists st', zip_loop entries st = Ok st'.
Proof.
  induction entries as [|e rest IH]; intros st off Hoff Hfits.
  - eexists. reflexivity.
  - destruct Hfits as ((Ho & Hd & Hn & Hc) & Hrest).
    cbn [zip_loop].
    destruct (localHeader_fits (utf8 (name e)) (Z.of_nat (length (data e)))
                (Crc.crc32 (data e))) as (local & Hlocal); [lia..| ].
    destruct (centralHeader_fits (utf8 (name e))
                (Z.of_nat (length (data e))) (Crc.crc32 (data e))
                (Z.of_nat off)) as (central & Hcentral); [lia..| ].
    assert (Hstep : exists st1, zip_step st e = Ok st1).
    { unfold zip_step. rewrite Hoff, Hlocal, Hcentral. eexists. reflexivity. }
    destruct Hstep as (st1 & Hstep). rewrite Hstep. cbn [mbind result_bind].
    destruct (zip_step_Ok _ _ _ _ Hoff Hstep) as (_ & _ & Ho1 & _).
    exact (IH st1 _ Ho1 Hrest).
Qed.

(** [buildZip] returns an archive exactly when every field holds its
    value: the sizes, the name lengths and the offsets of the entries, the
    number of entries, and the size and the offset of the central
    directory. *)
Lemma buildZip_succeeds entries :
  zip_fits 0 entries ->
  Z.of_nat (length entries) < 2 ^ 16 ->
  Z.of_nat (sum_list (entry_size <$> entries)) < 2 ^ 32 ->
  Z.of_nat (sum_list (central_size <$> entries)) < 2 ^ 32 ->
  exists bytes, buildZip entries = Ok bytes.
Proof.
  intros Hfits Hcount Hfiles Hcentral. unfold buildZip.
  destruct (zip_loop_fits entries
              {| fileChunks := []; centralChunks := []; offset := 0 |}
              0%nat eq_refl Hfits) as (st & Hloop).
  rewrite Hloop. cbn [mbind result_bind].
  destruct (zip_loop_Ok entries
              {| fileChunks := []; centralChunks := []; offset := 0 |}
              0%nat st eq_refl Hloop) as (_ & Hc & Ho & _).
  cbn [centralChunks concat app] in Hc. rewrite Hc, Ho.
  assert (Hlen : forall off es,
            length (central_section off es) = sum_list (central_size <$> es)).
  { intros off es. revert off.
    induction es as [|e es IH]; intros off; [reflexivity | ].
    cbn [central_section fmap list_fmap sum_list sum_list_with].
    rewrite length_app, length_central_record, IH. reflexivity. }
  rewrite Hlen. unfold endRecord, writeUInt32LE, writeUInt16LE.
  do 7 write_fits.
  rewrite writeUIntLE_fits;
    [ | lia | rewrite ?length_inserts; unfold alloc;
              rewrite length_replicate; lia ].
  eexists. reflexivity.
Qed.

End ZipFacts.

(** ** The EPUB skeleton *)
Section EpubFacts.
Import JS Epub.

Lemma trimStart_blank s :
  Forall (fun c => is_space c = true) s -> trimStart s = [].
Proof.
  induction 1 as [|c s Hc _ IH]; [reflexivity | ].
  simpl. rewrite Hc. exact IH.
Qed.

Lemma trim_blank s : Forall (fun c => is_space c = true) s -> trim s = [].
Proof. intros H. unfold trim. rewrite trimStart_blank by exact H. reflexivity. Qed.

Lemma trim_or_blank v d : blank v -> trim_or v d = d.
Proof.
  destruct v as [s|]; [ | reflexivity].
  intros H. unfold trim_or. simpl. rewrite trim_blank by exact H. reflexivity.
Qed.

Lemma or_default_nonempty v d : d <> [] -> or_default v d <> [].
Proof. intros Hd. destruct v as [[|c s]|]; simpl; [exact Hd | discriminate | exact Hd]. Qed.

Lemma replace_unit_nonempty c by_ s :
  by_ <> [] -> s <> [] -> replace_unit c by_ s <> [].
Proof.
  intros Hby Hs. destruct s as [|u s]; [contradiction | ].
  unfold replace_unit. simpl. destruct (u =? c)%N.
  - destruct by_; [contradiction | discriminate].
  - discriminate.
Qed.

Lemma escapeHtml_nonempty s : s <> [] -> escapeHtml s <> [].
Proof.
  intros Hs. unfold escapeHtml.
  repeat (apply replace_unit_nonempty; [discriminate | ]). exact Hs.
Qed.

Lemma substring_skip p needle text :
  substring needle text -> substring needle (p ++ text).
Proof.
  intros (b & a & ->). exists (p ++ b), a. rewrite <- app_assoc. reflexivity.
Qed.

(** Find [needle] in a concatenation, after the chunk [indent] that opens
    the line on which it sits. *)
Ltac find_substring indent :=
  repeat first
    [ exists indent; eexists; rewrite <- ?app_assoc; reflexivity
    | apply substring_skip ].

Ltac find_in_document indent :=
  eexists; split; [reflexivity | find_substring indent].

(** C10.  A missing, empty or white-space-only title, author or language
    is replaced by "Article", "Inconnu" or "en"; the values in use are
    never empty, also after HTML escaping; and it is these escaped values
    that the package document, the navigation document and the content
    document carry in their metadata, table of contents and heading. *)
Theorem blank_metadata_defaults uuid options :
  let t := title_of options in
  let a := author_of options in
  let l := language_of options in
  (blank (title options) -> t = lit "Article")
  /\ (blank (author options) -> a = lit "Inconnu")
  /\ (blank (language options) -> l = lit "en")
  /\ (escapeHtml t <> [] /\ escapeHtml a <> [] /\ escapeHtml l <> [])
  /\ exists opf nav chapter,
       epubEntries uuid options !! 2%nat
         = Some {| Zip.name := lit "OEBPS/content.opf"; Zip.data := opf |}
       /\ epubEntries uuid options !! 3%nat
         = Some {| Zip.name := lit "OEBPS/nav.xhtml"; Zip.data := nav |}
       /\ In {| Zip.name := lit "OEBPS/chapter.xhtml"; Zip.data := chapter |}
            (epubEntries uuid options)
       /\ occurs_in (lit "<dc:title>" ++ escapeHtml t ++ lit "</dc:title>") opf
       /\ occurs_in (lit "<dc:language>" ++ escapeHtml l
                     ++ lit "</dc:language>") opf
       /\ occurs_in (lit "<dc:creator>" ++ escapeHtml a
                     ++ lit "</dc:creator>") opf
       /\ occurs_in (lit "<title>" ++ escapeHtml t ++ lit "</title>") nav
       /\ occurs_in (lit "<a href=`chapter.xhtml`>" ++ escapeHtml t
                     ++ lit "</a>") nav
       /\ occurs_in (lit "<title>" ++ escapeHtml t ++ lit "</title>") chapter
       /\ (includeTitle_of options = true ->
           occurs_in (lit "<h1>" ++ escapeHtml t ++ lit "</h1>") chapter).
Proof.
  intros t a l.
  split; [apply trim_or_blank | ].
  split; [apply trim_or_blank | ].
  split; [apply trim_or_blank | ].
  split.
  { repeat split; apply escapeHtml_nonempty, or_default_nonempty;
      discriminate. }
  exists (contentOpf uuid t l a (coverResource options)
            (allResources_of options)),
         (navXhtml t l),
         (chapterXhtml t l (bodyHtml_of options) (includeTitle_of options)).
  split; [reflexivity | ]. split; [reflexivity | ].
  split.
  { unfold epubEntries. fold t a l.
    apply in_or_app. right. apply in_or_app. right.
    apply in_or_app. left. left. reflexivity. }
  unfold contentOpf, navXhtml, chapterXhtml.
  split; [find_in_document (lit "    ") | ].
  split; [find_in_document (lit "    ") | ].
  split; [find_in_document (lit "    ") | ].
  split; [find_in_document (lit "    ") | ].
  split; [find_in_document (lit "        <li>") | ].
  split; [find_in_document (lit "    ") | ].
  intros ->. find_in_document (lit "    <header>\n      ").
Qed.

Lemma substring_here needle after : substring needle (needle ++ after).
Proof. exists [], after. reflexivity. Qed.

Lemma mimetype_bytes :
  mimetype = String.list_byte_of_string "application/epub+zip".
Proof. vm_compute. reflexivity. Qed.

Lemma mimetype_local_record :
  Zip.local_record {| Zip.name := lit "mimetype"; Zip.data := mimetype |}
  ++ mimetype = mimetype_record.
Proof. vm_compute. reflexivity. Qed.

Lemma mimetype_record_fields rest :
  take 58 (mimetype_record ++ rest) = mimetype_record
  /\ readUIntLE 2 (mimetype_record ++ rest) 8 = 0
  /\ readUIntLE 2 (mimetype_record ++ rest) 28 = 0
  /\ take 8 (drop 30 (mimetype_record ++ rest))
     = String.list_byte_of_string "mimetype"
  /\ take 20 (drop 38 (mimetype_record ++ rest))
     = String.list_byte_of_string "application/epub+zip".
Proof. vm_compute. repeat split. Qed.

Lemma buildEpubBuffer_eq uuid options :
  buildEpubBuffer uuid options = Zip.buildZip (epubEntries uuid options).
Proof. reflexivity. Qed.

Lemma epubEntries_head uuid options :
  exists rest,
    epubEntries uuid options
    = {| Zip.name := lit "mimetype"; Zip.data := mimetype |} :: rest.
Proof. unfold epubEntries. cbn [app]. eexists. reflexivity. Qed.

Lemma file_section_cons e r tail :
  Zip.file_section (e :: r) ++ tail
  = (Zip.local_record e ++ Zip.data e) ++ (Zip.file_section r ++ tail).
Proof.
  unfold Zip.file_section. cbn [map concat]. rewrite <- !app_assoc.
  reflexivity.
Qed.

(** C2.  Whatever the document, the resources and the cover, the first
    entry handed to the ZIP writer is the file "mimetype" holding the 20
    ASCII bytes "application/epub+zip", and the archive produced starts
    with its minimal local header (method stored, flags zero, no extra
    field), its name and these 20 bytes. *)
Theorem mimetype_entry_first uuid options bytes :
  buildEpubBuffer uuid options = Ok bytes ->
  head (epubEntries uuid options)
  = Some {| Zip.name := lit "mimetype";
            Zip.data := String.list_byte_of_string "application/epub+zip" |}
  /\ take 58 bytes = mimetype_record
  /\ readUIntLE 2 bytes 8 = 0
  /\ readUIntLE 2 bytes 28 = 0
  /\ take 8 (drop 30 bytes) = String.list_byte_of_string "mimetype"
  /\ take 20 (drop 38 bytes)
     = String.list_byte_of_string "application/epub+zip".
Proof.
  rewrite buildEpubBuffer_eq.
  destruct (epubEntries_head uuid options) as (rest & ->).
  intros H. apply buildZip_Ok in H. destruct H as (_ & er & _ & ->).
  split; [rewrite mimetype_bytes; reflexivity | ].
  rewrite file_section_cons. cbn [Zip.data].
  rewrite mimetype_local_record.
  apply mimetype_record_fields.
Qed.

(** The sample archive starts with the bare [mimetype] entry. *)
Lemma mimetype_entry_first_sample :
  buildEpubBuffer sample_uuid sample_options = Ok sample_epub
  /\ take 58 sample_epub = mimetype_record.
Proof.
  assert (H : buildEpubBuffer sample_uuid sample_options = Ok sample_epub)
    by (vm_compute; reflexivity).
  split; [exact H | ].
  apply (mimetype_entry_first sample_uuid sample_options sample_epub H).
Defined.

(** C4, as the code has it.  The entries are, in this order: the mimetype
    literal, the container descriptor, the package document, the
    navigation document, then the cover document if and only if there is a
    cover resource, then the content document with the body markup, then
    the raw bytes of the cover resource (if any) and of every resource,
    each at "OEBPS/" followed by its href. *)
Theorem epub_entry_order uuid options :
  let entries := epubEntries uuid options in
  map Zip.name entries
  = [ lit "mimetype"; lit "META-INF/container.xml"; lit "OEBPS/content.opf";
      lit "OEBPS/nav.xhtml" ] ++ cover_names options ++
    [ lit "OEBPS/chapter.xhtml" ] ++
    map (fun r => lit "OEBPS/" ++ href r) (allResources_of options)
  /\ (cover_names options = [] <-> coverResource options = None)
  /\ allResources_of options
     = match coverResource options with
       | Some cover => [cover]
       | None => []
       end ++ resources_of options
  /\ map Zip.data (drop (5 + length (cover_names options)) entries)
     = map data (allResources_of options)
  /\ Zip.data <$> entries !! 0%nat
     = Some (String.list_byte_of_string "application/epub+zip")
  /\ exists chapter,
       Zip.data <$> entries !! (4 + length (cover_names options))%nat
       = Some chapter
       /\ occurs_in (bodyHtml_of options) chapter.
Proof.
  intros entries. unfold entries, epubEntries, cover_names, allResources_of.
  destruct (coverResource options) as [cover|];
    lazy beta iota zeta delta [app length Nat.add drop fmap option_fmap
                               option_map lookup list_lookup];
    (split; [cbn [map Zip.name]; rewrite map_map; reflexivity | ]);
    (split; [split; (discriminate || reflexivity) | ]);
    (split; [reflexivity | ]);
    (split; [rewrite map_map; reflexivity | ]);
    (split; [rewrite mimetype_bytes; reflexivity | ]);
    (eexists; split; [reflexivity | ]);
    unfold chapterXhtml; (eexists; split; [reflexivity | ]);
    repeat first [ apply substring_here | apply substring_skip ].
Qed.

(** With a cover, the cover document is the fifth entry and the content
    document the sixth: not the order of the specification's sentence. *)
Lemma cover_document_precedes_chapter :
  map Zip.name (epubEntries sample_uuid sample_options) !! 4%nat
  = Some (lit "OEBPS/cover.xhtml")
  /\ map Zip.name (epubEntries sample_uuid sample_options) !! 5%nat
     = Some (lit "OEBPS/chapter.xhtml")
  /\ map Zip.name (epubEntries sample_uuid sample_options)
     <> names_as_specified sample_options.
Proof.
  split; [reflexivity | ]. split; [reflexivity | ].
  intros H. apply (f_equal (fun names => names !! 4%nat)) in H.
  vm_compute in H. discriminate H.
Qed.

(** The sample: a blank title, no author, an empty language. *)
Lemma blank_metadata_defaults_sample :
  (blank (title sample_options) /\ blank (author sample_options)
   /\ blank (language sample_options))
  /\ title_of sample_options = lit "Article"
  /\ author_of sample_options = lit "Inconnu"
  /\ language_of sample_options = lit "en".
Proof.
  assert (Ht : blank (title sample_options))
    by (cbn; repeat constructor).
  assert (Ha : blank (author sample_options)) by exact I.
  assert (Hl : blank (language sample_options)) by constructor.
  split; [auto | ].
  destruct (blank_metadata_defaults sample_uuid sample_options)
    as (H1 & H2 & H3 & _).
  auto.
Defined.

(** The cover image of the sample archive, its seventh entry. *)
Lemma buildZip_record_fields_sample :
  Zip.buildZip (epubEntries sample_uuid sample_options) = Ok sample_epub
  /\ epubEntries sample_uuid sample_options !! 6%nat
     = Some {| Zip.name := lit "OEBPS/images/cover.jpg";
               Zip.data := [xff; xd8; xff]%byte |}
  /\ readUIntLE 4 sample_epub
       (Zip.central_offset (epubEntries sample_uuid sample_options) 6 + 42)
     = Z.of_nat (Zip.local_offset (epubEntries sample_uuid sample_options) 6)
  /\ readUIntLE 4 sample_epub
       (Zip.local_offset (epubEntries sample_uuid sample_options) 6 + 18)
     = 3.
Proof.
  assert (H1 : Zip.buildZip (epubEntries sample_uuid sample_options)
               = Ok sample_epub) by (vm_compute; reflexivity).
  assert (H2 : epubEntries sample_uuid sample_options !! 6%nat
               = Some {| Zip.name := lit "OEBPS/images/cover.jpg";
                         Zip.data := [xff; xd8; xff]%byte |})
    by (vm_compute; reflexivity).
  split; [exact H1 | ]. split; [exact H2 | ].
  destruct (buildZip_record_fields _ _ _ _ H1 H2)
    as (_ & _ & Hoff & Hsize & _).
  split; [exact Hoff | exact Hsize].
Defined.

End EpubFacts.

(** ** The message encoder and dot-stuffing *)
Section MimeFacts.
Import JS Mime.

(** The loop of [chunkBase64] never stops for lack of passes: any bound
    from the length of the string on gives the same output. *)
Lemma chunk_loop_fuel fuel1 : forall fuel2 value,
  (length value <= fuel1)%nat -> (length value <= fuel2)%nat ->
  chunk_loop fuel1 value = chunk_loop fuel2 value.
Proof.
  induction fuel1 as [|fuel1 IH]; intros fuel2 value H1 H2.
  - destruct value; [ | simpl in H1; lia]. destruct fuel2; reflexivity.
  - destruct value as [|c value]; [destruct fuel2; reflexivity | ].
    destruct fuel2 as [|fuel2]; [simpl in H2; lia | ].
    cbn [chunk_loop]. f_equal. f_equal.
    apply IH; rewrite length_drop; simpl in *; lia.
Qed.
Lemma split_lines_nonempty s : split_lines s <> [].
Proof.
  induction s as [|c rest IH]; [discriminate | ].
  cbn [split_lines]. destruct (c =? 10)%N; [discriminate | ].
  destruct (c =? 13)%N.
  - destruct rest as [|d rest']; [discriminate | ].
    destruct (d =? 10)%N; [discriminate | ].
    destruct (split_lines (d :: rest')); discriminate.
  - destruct (split_lines rest); discriminate.
Qed.

Lemma cons_head_app c x y : x <> [] -> cons_head c (x ++ y) = cons_head c x ++ y.
Proof. destruct x; [contradiction | reflexivity]. Qed.

(** A line break written as CR LF separates what is before it from what
    is after it, whatever the two texts are. *)
Lemma split_lines_crlf_bounded n : forall a b,
  (length a <= n)%nat ->
  split_lines (a ++ CRLF ++ b) = split_lines a ++ split_lines b.
Proof.
  induction n as [|n IH]; intros a b Hlen.
  - destruct a; [reflexivity | simpl in Hlen; lia].
  - destruct a as [|c a]; [reflexivity | ].
    simpl in Hlen. cbn [app split_lines].
    destruct (c =? 10)%N.
    { rewrite IH by lia. reflexivity. }
    destruct (c =? 13)%N.
    + destruct a as [|d a].
      * reflexivity.
      * cbn [app]. destruct (d =? 10)%N eqn:Ed.
        { simpl in Hlen. rewrite IH by lia. reflexivity. }
        change (d :: a ++ CRLF ++ b) with ((d :: a) ++ CRLF ++ b).
        rewrite IH by lia.
        apply cons_head_app, split_lines_nonempty.
    + rewrite IH by lia. apply cons_head_app, split_lines_nonempty.
Qed.

Lemma split_lines_crlf a b :
  split_lines (a ++ CRLF ++ b) = split_lines a ++ split_lines b.
Proof. apply (split_lines_crlf_bounded (length a)). lia. Qed.

Lemma split_lines_join ls :
  ls <> [] -> split_lines (join CRLF ls) = flat_map split_lines ls.
Proof.
  induction ls as [|l ls IH]; [contradiction | intros _].
  destruct ls as [|l2 ls].
  - simpl. rewrite app_nil_r. reflexivity.
  - change (join CRLF (l :: l2 :: ls)) with (l ++ CRLF ++ join CRLF (l2 :: ls)).
    rewrite split_lines_crlf, IH by discriminate. reflexivity.
Qed.

Lemma split_lines_no_lf s : Forall no_lf (split_lines s).
Proof.
  assert (Hcons : forall c ls, c <> 10%N -> Forall no_lf ls ->
                               Forall no_lf (cons_head c ls)).
  { intros c ls Hc Hls. destruct Hls as [|l ls Hl Hls]; simpl.
    - constructor; [ | constructor]. intros [H|[]]. congruence.
    - constructor; [ | exact Hls]. intros [H|H]; [congruence | exact (Hl H)]. }
  assert (Hnil : no_lf []) by (intros []).
  set (bound := length s). assert (Hb : (length s <= bound)%nat) by lia.
  clearbody bound. revert s Hb.
  induction bound as [|n IH]; intros s Hb.
  - destruct s; [ | simpl in Hb; lia]. constructor; [exact Hnil | constructor].
  - destruct s as [|c rest]; [constructor; [exact Hnil | constructor] | ].
    simpl in Hb. cbn [split_lines].
    destruct (N.eqb_spec c 10); [constructor; [exact Hnil | apply IH; lia] | ].
    destruct (c =? 13)%N.
    + destruct rest as [|d rest'].
      * constructor; [ | constructor]. intros [H|[]]. congruence.
      * destruct (d =? 10)%N.
        -- simpl in Hb. constructor; [exact Hnil | apply IH; lia].
        -- apply Hcons; [assumption | apply IH; lia].
    + apply Hcons; [assumption | apply IH; lia].
Qed.

Lemma split_lines_single l : no_lf l -> split_lines l = [l].
Proof.
  induction l as [|c l IH]; intros Hl; [reflexivity | ].
  assert (Hc : c <> 10%N) by (intros ->; apply Hl; left; reflexivity).
  assert (Hl' : no_lf l) by (intros H; apply Hl; right; exact H).
  cbn [split_lines]. destruct (N.eqb_spec c 10); [contradiction | ].
  destruct (c =? 13)%N.
  - destruct l as [|d l']; [reflexivity | ].
    destruct (N.eqb_spec d 10) as [->|_].
    + exfalso. apply Hl'. left. reflexivity.
    + rewrite (IH Hl'). reflexivity.
  - rewrite (IH Hl'). reflexivity.
Qed.

Lemma stuff_line_no_lf l : no_lf l -> no_lf (stuff_line l).
Proof.
  intros Hl. unfold stuff_line.
  destruct (startsWith (lit ".") l); [ | exact Hl].
  intros [H|H]; [discriminate H | exact (Hl H)].
Qed.

Lemma flat_map_split_single ls :
  Forall no_lf ls -> flat_map split_lines ls = ls.
Proof.
  induction 1 as [|l ls Hl _ IH]; [reflexivity | ].
  simpl. rewrite split_lines_single, IH by exact Hl. reflexivity.
Qed.

Lemma crlf_only_line l b s :
  no_lf l -> crlf_only b (l ++ CRLF ++ s) = crlf_only false s.
Proof.
  revert b. induction l as [|c l IH]; intros b Hl; [reflexivity | ].
  cbn [app crlf_only].
  destruct (N.eqb_spec c 10) as [->|_].
  - exfalso. apply Hl. left. reflexivity.
  - apply IH. intros H. apply Hl. right. exact H.
Qed.

Lemma crlf_only_last l b : no_lf l -> crlf_only b l = true.
Proof.
  revert b. induction l as [|c l IH]; intros b Hl; [reflexivity | ].
  cbn [crlf_only].
  destruct (N.eqb_spec c 10) as [->|_].
  - exfalso. apply Hl. left. reflexivity.
  - apply IH. intros H. apply Hl. right. exact H.
Qed.

Lemma crlf_only_join ls b :
  Forall no_lf ls -> crlf_only b (join CRLF ls) = true.
Proof.
  intros H. revert b. induction H as [|l ls Hl Hls IH]; intros b.
  - reflexivity.
  - destruct ls as [|l2 ls].
    + apply crlf_only_last, Hl.
    + change (join CRLF (l :: l2 :: ls))
        with (l ++ CRLF ++ join CRLF (l2 :: ls)).
      rewrite crlf_only_line by exact Hl. apply IH.
Qed.

(** What [dotStuff] does to the lines of a message. *)
Lemma dotStuff_lines message :
  split_lines (dotStuff message) = map stuff_line (split_lines message)
  /\ crlf_only false (dotStuff message) = true.
Proof.
  pose proof (split_lines_no_lf message) as Hno.
  assert (Hstuffed : Forall no_lf (map stuff_line (split_lines message))).
  { induction Hno as [|l ls Hl _ IH]; [constructor | ].
    constructor; [apply stuff_line_no_lf, Hl | exact IH]. }
  unfold dotStuff. split.
  - rewrite split_lines_join.
    + apply flat_map_split_single, Hstuffed.
    + pose proof (split_lines_nonempty message).
      destruct (split_lines message); [contradiction | discriminate].
  - apply crlf_only_join, Hstuffed.
Qed.

(** C9, as the code has it.  Two calls of the encoder on the same input
    either both fail with the same error or both produce 22 lines in the
    same order; the lines agree everywhere except in the [Date] header,
    which carries the time of the call, and in the four lines that carry
    the boundary; the [Date] headers agree when the two calls read the
    same time, the boundary lines when they draw the same identifier; and
    the base64 payload is the same function of the attachment. *)
Theorem mime_output_varies_only_in_date_and_boundary
    normalize env1 env2 input :
  match mimeLines normalize env1 input, mimeLines normalize env2 input with
  | Ok lines1, Ok lines2 =>
      length lines1 = 22%nat /\ length lines2 = 22%nat
      /\ (forall i, i <> date_line -> ~ In i boundary_lines ->
                    lines1 !! i = lines2 !! i)
      /\ (utcNow env1 = utcNow env2 ->
          lines1 !! date_line = lines2 !! date_line)
      /\ (randomUUID env1 = randomUUID env2 ->
          forall i, In i boundary_lines -> lines1 !! i = lines2 !! i)
      /\ lines1 !! payload_line
         = Some (chunkBase64 (base64 (epubBuffer input)))
  | Throw e1, Throw e2 => e1 = e2
  | _, _ => False
  end.
Proof.
  unfold mimeLines.
  destruct (encodeFilenameHeader normalize _) as [[asciiName rfcName]|e];
    [ | reflexivity].
  cbn [mbind result_bind mret result_ret fst snd].
  split; [reflexivity | ]. split; [reflexivity | ].
  split.
  { intros i Hdate Hb. unfold date_line, boundary_lines in *.
    do 21 (destruct i as [|i];
           [first [reflexivity | contradiction
                  | exfalso; apply Hb; simpl; tauto] | ]).
    destruct i; reflexivity. }
  split; [intros ->; reflexivity | ].
  split; [ | reflexivity].
  intros -> i Hin. unfold boundary_lines in Hin. simpl in Hin.
  destruct Hin as [<-|[<-|[<-|[<-|[]]]]]; reflexivity.
Qed.

(** Same input, same identifier, one second apart: the boundary lines are
    equal and the messages differ, in the [Date] header. *)
Lemma date_header_varies_between_calls :
  randomUUID sample_env_1 = randomUUID sample_env_2
  /\ buildMimeMessage (fun s => s) sample_env_1 sample_input
     <> buildMimeMessage (fun s => s) sample_env_2 sample_input
  /\ match mimeLines (fun s => s) sample_env_1 sample_input,
           mimeLines (fun s => s) sample_env_2 sample_input with
     | Ok lines1, Ok lines2 =>
         lines1 !! date_line <> lines2 !! date_line
         /\ ~ In date_line boundary_lines
     | _, _ => False
     end.
Proof.
  split; [reflexivity | ]. split.
  - intros H. vm_compute in H. discriminate H.
  - vm_compute. split; [intros H; discriminate H | ].
    intros H. repeat (destruct H as [H|H]; [discriminate H | ]). exact H.
Qed.

End MimeFacts.

(** ** The SMTP client: parsing *)
Section SmtpParsing.
Import JS Smtp.

Lemma processLine_frame c line :
  let c' := (processLine c line).1 in
  socket_ c' = socket_ c /\ buffer c' = buffer c /\ log c' = log c
  /\ options c' = options c.
Proof.
  unfold processLine. destruct (match_line line) as [[code sep]|]; [ | auto].
  destruct (sep =? 32)%N; [ | simpl; auto].
  cbn [pending set_current]. destruct (pending c) as [slot|]; [ | simpl; auto].
  destruct (is_unexpected _ _); simpl; auto.
Qed.

(** A line that settles nothing leaves the pending slot as it is. *)
Lemma processLine_None c line :
  (processLine c line).2 = None ->
  pending (processLine c line).1 = pending c.
Proof.
  unfold processLine. destruct (match_line line) as [[code sep]|]; [ | reflexivity].
  destruct (sep =? 32)%N; [ | reflexivity].
  cbn [pending set_current]. destruct (pending c) as [slot|] eqn:E.
  - destruct (is_unexpected _ _); discriminate.
  - intros _. simpl. exact E.
Qed.

(** A line settles the promise only when a caller is pending and the line
    is the final line of a response; the promise is then fulfilled or
    rejected after the code of that line, and the slot is emptied. *)
Lemma processLine_Some c line x :
  (processLine c line).2 = Some x ->
  exists slot code,
    pending c = Some slot
    /\ match_line line = Some (code, 32%N)
    /\ pending (processLine c line).1 = None
    /\ x = if is_unexpected (expected slot) code
           then Reject (unexpected_response code)
           else Resolve {| code := code;
                           lines := currentResponseLines c ++ [line] |}.
Proof.
  unfold processLine.
  destruct (match_line line) as [[code sep]|]; [ | discriminate].
  destruct (N.eqb_spec sep 32) as [->|_]; [ | discriminate].
  cbn [pending set_current currentResponseLines].
  destruct (pending c) as [slot|]; [ | discriminate].
  intros H. exists slot, code. split; [reflexivity | ].
  split; [reflexivity | ].
  destruct (is_unexpected (expected slot) code); injection H as <-; auto.
Qed.

Lemma handleData_loop_frame fuel : forall c s,
  let c' := (handleData_loop fuel c s).1 in
  socket_ c' = socket_ c /\ log c' = log c /\ options c' = options c.
Proof.
  induction fuel as [|fuel IH]; intros c s; [simpl; auto | ].
  cbn [handleData_loop]. destruct (indexOf 10 (buffer c)) as [index|]; [ | simpl; auto].
  set (c1 := set_buffer _ c). set (line := strip_eol _).
  pose proof (processLine_frame c1 line) as (Hs & _ & Hl & Ho).
  destruct (processLine c1 line) as [c2 s2]. simpl in Hs, Hl, Ho.
  destruct (IH c2 (first_settlement s s2)) as (Hs' & Hl' & Ho').
  rewrite Hs', Hl', Ho', Hs, Hl, Ho. auto.
Qed.

Lemma handleData_loop_settled fuel : forall c x,
  (handleData_loop fuel c (Some x)).2 = Some x.
Proof.
  induction fuel as [|fuel IH]; intros c x; [reflexivity | ].
  cbn [handleData_loop]. destruct (indexOf 10 (buffer c)); [ | reflexivity].
  destruct (processLine _ _) as [c2 s2]. apply IH.
Qed.

(** A chunk that settles nothing leaves the pending slot as it is. *)
Lemma handleData_loop_None fuel : forall c s,
  (handleData_loop fuel c s).2 = None ->
  s = None /\ pending (handleData_loop fuel c s).1 = pending c.
Proof.
  induction fuel as [|fuel IH]; intros c s; [simpl; auto | ].
  cbn [handleData_loop]. destruct (indexOf 10 (buffer c)) as [index|]; [ | simpl; auto].
  set (c1 := set_buffer _ c). set (line := strip_eol _).
  pose proof (processLine_None c1 line) as Hp.
  destruct (processLine c1 line) as [c2 s2]. cbn [fst snd] in Hp.
  intros H. destruct (IH _ _ H) as (Hs & Hpend).
  destruct s; [discriminate | ]. destruct s2; [discriminate | ].
  split; [reflexivity | ]. rewrite Hpend. apply Hp. reflexivity.
Qed.

(** The settlement a chunk makes is decided by the slot that was pending
    when the chunk arrived and by the code of a final line. *)
Lemma handleData_loop_Some fuel : forall c x,
  (handleData_loop fuel c None).2 = Some x ->
  exists slot code lines,
    pending c = Some slot
    /\ x = if is_unexpected (expected slot) code
           then Reject (unexpected_response code)
           else Resolve {| code := code; lines := lines |}.
Proof.
  induction fuel as [|fuel IH]; intros c x; [discriminate | ].
  cbn [handleData_loop]. destruct (indexOf 10 (buffer c)) as [index|]; [ | discriminate].
  set (c1 := set_buffer _ c). set (line := strip_eol _).
  pose proof (processLine_None c1 line) as HN.
  pose proof (processLine_Some c1 line) as HS.
  destruct (processLine c1 line) as [c2 [y|]]; cbn [fst snd first_settlement] in *.
  - rewrite handleData_loop_settled. intros [= <-].
    destruct (HS y eq_refl) as (slot & code & Hp & _ & _ & ->).
    exists slot, code, (currentResponseLines c1 ++ [line]). auto.
  - intros H. destruct (IH _ _ H) as (slot & code & lines & Hp & ->).
    exists slot, code, lines. split; [ | reflexivity].
    rewrite <- Hp. symmetry. apply (HN eq_refl).
Qed.

(** With no caller pending, a chunk settles nothing: a chunk makes at
    most one settlement, the one [first_settlement] keeps. *)
Lemma handleData_loop_idle fuel : forall c s,
  pending c = None ->
  (handleData_loop fuel c s).2 = s
  /\ pending (handleData_loop fuel c s).1 = None.
Proof.
  induction fuel as [|fuel IH]; intros c s Hp; [auto | ].
  cbn [handleData_loop].
  destruct (indexOf 10 (buffer c)) as [index|]; [ | auto].
  set (c1 := set_buffer _ c). set (line := strip_eol _).
  pose proof (processLine_None c1 line) as HN.
  pose proof (processLine_Some c1 line) as HS.
  destruct (processLine c1 line) as [c2 [x|]]; cbn [fst snd] in *.
  - destruct (HS x eq_refl) as (slot & _ & Hslot & _).
    unfold c1 in Hslot. cbn [pending set_buffer] in Hslot. congruence.
  - specialize (HN eq_refl). unfold c1 in HN. cbn [pending set_buffer] in HN.
    destruct (IH c2 (first_settlement s None) ltac:(congruence)) as (H1 & H2).
    rewrite H1, H2. destruct s; auto.
Qed.

Lemma dispatch_frame ev c :
  socket_ (dispatch ev c).1 = socket_ c /\ log (dispatch ev c).1 = log c.
Proof.
  destruct ev as [chunk|e|]; cbn [dispatch].
  - unfold handleData.
    destruct (handleData_loop_frame
                (S (length (buffer (set_buffer (buffer c ++ chunk) c))))
                (set_buffer (buffer c ++ chunk) c) None) as (Hs & Hl & _).
    rewrite Hs, Hl. auto.
  - unfold failPending. destruct (pending c); auto.
  - unfold timer_fired. destruct (pending c); auto.
Qed.

(** An event that settles nothing leaves the pending slot as it is. *)
Lemma dispatch_None ev c :
  (dispatch ev c).2 = None -> pending (dispatch ev c).1 = pending c.
Proof.
  destruct ev as [chunk|e|]; cbn [dispatch].
  - unfold handleData. intros H.
    apply handleData_loop_None in H. apply H.
  - unfold failPending. destruct (pending c) eqn:E; [discriminate | intros _; exact E].
  - unfold timer_fired. destruct (pending c) eqn:E; [discriminate | intros _; exact E].
Qed.

(** The loop of [handleData] stops because no line feed is left, never
    because the bound on its passes is reached. *)
Lemma handleData_loop_drains fuel : forall c s,
  (length (buffer c) < fuel)%nat ->
  indexOf 10 (buffer (handleData_loop fuel c s).1) = None.
Proof.
  induction fuel as [|fuel IH]; intros c s Hlen; [lia | ].
  cbn [handleData_loop].
  destruct (indexOf 10 (buffer c)) as [index|] eqn:E; [ | exact E].
  set (c1 := set_buffer _ c). set (line := strip_eol _).
  pose proof (processLine_frame c1 line) as (_ & Hb & _).
  destruct (processLine c1 line) as [c2 s2]. cbn [fst] in Hb.
  apply IH. rewrite Hb. unfold c1. cbn [buffer set_buffer].
  rewrite length_drop.
  assert (buffer c <> []) by (destruct (buffer c); [discriminate | discriminate]).
  destruct (buffer c); [contradiction | simpl in *; lia].
Qed.

Lemma handleData_drains c chunk :
  indexOf 10 (buffer (handleData c chunk).1) = None.
Proof. unfold handleData. apply handleData_loop_drains. lia. Qed.

End SmtpParsing.

(** ** The SMTP client: replies on the wire *)
Section SmtpReplies.
Import JS Smtp.

Lemma digits3_value code :
  (code < 1000)%N ->
  (code / 100 < 10 /\ (code / 10) mod 10 < 10 /\ code mod 10 < 10
   /\ 100 * (code / 100) + 10 * ((code / 10) mod 10) + code mod 10 = code)%N.
Proof.
  intros Hc.
  pose proof (N.div_mod code 10 ltac:(lia)) as H1.
  pose proof (N.div_mod (code / 10) 10 ltac:(lia)) as H2.
  pose proof (N.mod_lt code 10 ltac:(lia)).
  pose proof (N.mod_lt (code / 10) 10 ltac:(lia)).
  rewrite N.Div0.div_div in H2. change (10 * 10)%N with 100%N in H2.
  generalize dependent (code / 100)%N.
  generalize dependent ((code / 10) mod 10)%N.
  generalize dependent (code mod 10)%N.
  generalize dependent (code / 10)%N.
  intros. lia.
Qed.

Lemma match_reply_line code separator text :
  (code < 1000)%N -> separator = 32%N \/ separator = 45%N ->
  plain_text text ->
  match_line (reply_line code separator text) = Some (code, separator).
Proof.
  intros Hc Hsep Htext.
  destruct (digits3_value code Hc) as (H1 & H2 & H3 & Hv).
  unfold reply_line, digits3, match_line. cbn [app].
  unfold plain_text in Htext. rewrite Htext.
  assert (Hd : forall q, (q < 10)%N -> is_digit (48 + q) = true).
  { intros q Hq. unfold is_digit.
    apply andb_true_intro. split; apply N.leb_le; lia. }
  rewrite !Hd by assumption.
  assert (Hs : ((separator =? 32) || (separator =? 45))%N = true)
    by (destruct Hsep as [-> | ->]; reflexivity).
  rewrite Hs. cbn [andb]. f_equal. f_equal.
  assert (Hsub : forall q, (48 + q - 48 = q)%N) by (intros q; lia).
  rewrite !Hsub. exact Hv.
Qed.

Lemma plain_text_no_lf text : plain_text text -> Mime.no_lf text.
Proof.
  unfold plain_text, Mime.no_lf. intros H Hin.
  rewrite forallb_forall in H. specialize (H _ Hin). discriminate H.
Qed.

Lemma reply_line_no_lf code separator text :
  (code < 1000)%N -> separator = 32%N \/ separator = 45%N ->
  plain_text text -> Mime.no_lf (reply_line code separator text).
Proof.
  intros Hc Hsep Htext.
  destruct (digits3_value code Hc) as (H1 & H2 & H3 & _).
  unfold reply_line, digits3, Mime.no_lf. cbn [app In].
  generalize dependent (code / 100)%N.
  generalize dependent ((code / 10) mod 10)%N.
  generalize dependent (code mod 10)%N.
  intros d0 H3 d1 H2 d2 H1.
  intros [H|[H|[H|[H|H]]]]; try lia.
  exact (plain_text_no_lf _ Htext H).
Qed.

Lemma indexOf_crlf line rest :
  Mime.no_lf line ->
  indexOf 10 (line ++ lit "\r\n" ++ rest) = Some (length line + 1)%nat.
Proof.
  induction line as [|c line IH]; intros Hl; [reflexivity | ].
  cbn [app indexOf length].
  destruct (N.eqb_spec c 10) as [->|_].
  - exfalso. apply Hl. left. reflexivity.
  - rewrite IH; [reflexivity | ]. intros H. apply Hl. right. exact H.
Qed.

Lemma strip_eol_crlf line : strip_eol (line ++ lit "\r\n") = line.
Proof.
  unfold strip_eol. rewrite rev_app_distr. cbn. apply rev_involutive.
Qed.

(** The result of the loop does not depend on the bound, once the bound
    exceeds the length of the buffer. *)
Lemma handleData_loop_fuel fuel1 : forall fuel2 c s,
  (length (buffer c) < fuel1)%nat -> (length (buffer c) < fuel2)%nat ->
  handleData_loop fuel1 c s = handleData_loop fuel2 c s.
Proof.
  induction fuel1 as [|fuel1 IH]; intros fuel2 c s H1 H2; [lia | ].
  destruct fuel2 as [|fuel2]; [lia | ].
  cbn [handleData_loop].
  destruct (indexOf 10 (buffer c)) as [index|] eqn:E; [ | reflexivity].
  set (c1 := set_buffer _ c). set (line := strip_eol _).
  pose proof (processLine_frame c1 line) as (_ & Hb & _).
  destruct (processLine c1 line) as [c2 s2]. cbn [fst] in Hb.
  assert (Hshorter : (length (buffer c2) < length (buffer c))%nat).
  { rewrite Hb. unfold c1. cbn [buffer set_buffer]. rewrite length_drop.
    destruct (buffer c); [discriminate | simpl; lia]. }
  apply IH; lia.
Qed.

Lemma handleData_loop_S fuel c s :
  handleData_loop (S fuel) c s
  = match indexOf 10 (buffer c) with
    | None => (c, s)
    | Some index =>
        let '(c2, s2) :=
          processLine (set_buffer (drop (index + 1) (buffer c)) c)
            (strip_eol (take (index + 1) (buffer c))) in
        handleData_loop fuel c2 (first_settlement s s2)
    end.
Proof. reflexivity. Qed.

(** One pass of the loop over a buffer that starts with a whole line. *)
Lemma handleData_loop_line c s line rest :
  Mime.no_lf line ->
  buffer c = line ++ lit "\r\n" ++ rest ->
  handleData_loop (S (length (buffer c))) c s
  = let '(c2, s2) := processLine (set_buffer rest c) line in
    handleData_loop (S (length (buffer c2))) c2 (first_settlement s s2).
Proof.
  intros Hl Hb. rewrite handleData_loop_S.
  rewrite Hb at 1. rewrite indexOf_crlf by exact Hl.
  assert (Htake : take (length line + 1 + 1) (buffer c) = line ++ lit "\r\n").
  { rewrite Hb, app_assoc. apply take_app_length'.
    rewrite length_app. simpl. lia. }
  assert (Hdrop : drop (length line + 1 + 1) (buffer c) = rest).
  { rewrite Hb, app_assoc. apply drop_app_length'.
    rewrite length_app. simpl. lia. }
  rewrite Htake, Hdrop, strip_eol_crlf.
  pose proof (processLine_frame (set_buffer rest c) line) as (_ & Hb2 & _).
  destruct (processLine (set_buffer rest c) line) as [c2 s2].
  cbn [fst buffer set_buffer] in Hb2.
  apply handleData_loop_fuel.
  - rewrite Hb2, Hb, !length_app. simpl. lia.
  - lia.
Qed.

(** A continuation line is collected and settles nothing. *)
Lemma processLine_continuation c first lines rest code text :
  (code < 1000)%N -> plain_text text ->
  processLine (receiving c first lines rest) (reply_line code 45 text)
  = (receiving c (match first with
                  | None => Some code
                  | Some x => Some x
                  end)
       (lines ++ [reply_line code 45 text]) rest, None).
Proof.
  intros Hc Ht. unfold processLine.
  rewrite match_reply_line by auto. reflexivity.
Qed.

(** The final line settles the pending promise after its code. *)
Lemma processLine_final c first lines rest code text slot :
  (code < 1000)%N -> plain_text text ->
  pending c = Some slot ->
  processLine (receiving c first lines rest) (reply_line code 32 text)
  = (set_pending None (receiving c None [] rest),
     Some (if is_unexpected (expected slot) code
           then Reject (unexpected_response code)
           else Resolve {| code := code;
                           lines := lines ++ [reply_line code 32 text] |})).
Proof.
  intros Hc Ht Hp. unfold processLine.
  rewrite match_reply_line by auto.
  cbn [N.eqb Pos.eqb pending set_current receiving currentResponseLines].
  rewrite Hp. destruct (is_unexpected (expected slot) code); reflexivity.
Qed.

Lemma receiving_buffer c first lines rest :
  buffer (receiving c first lines rest) = rest.
Proof. reflexivity. Qed.

Lemma set_buffer_receiving c first lines rest rest' :
  set_buffer rest' (receiving c first lines rest)
  = receiving c first lines rest'.
Proof. reflexivity. Qed.

(** The loop over the continuation lines of a reply. *)
Lemma handleData_loop_continuations conts : forall c first lines rest s,
  Forall (fun l => (l.1 < 1000)%N /\ plain_text l.2) conts ->
  exists first',
    handleData_loop
      (S (length (flat_map (fun line => line ++ lit "\r\n")
                    (map (fun l => reply_line l.1 45 l.2) conts) ++ rest)))
      (receiving c first lines
         (flat_map (fun line => line ++ lit "\r\n")
            (map (fun l => reply_line l.1 45 l.2) conts) ++ rest)) s
    = handleData_loop (S (length rest))
        (receiving c first'
           (lines ++ map (fun l => reply_line l.1 45 l.2) conts) rest) s.
Proof.
  induction conts as [|[code text] conts IH]; intros c first lines rest s Hwf.
  - exists first. cbn [map flat_map app]. rewrite app_nil_r. reflexivity.
  - inversion Hwf as [|? ? (Hc & Ht) Hwf']; subst. cbn [fst snd] in Hc, Ht.
    cbn [map flat_map fst snd]. rewrite <- !app_assoc.
    set (tail := flat_map _ _ ++ rest).
    pose proof (handleData_loop_line
                  (receiving c first lines
                     (reply_line code 45 text ++ lit "\r\n" ++ tail))
                  s (reply_line code 45 text) tail
                  (reply_line_no_lf _ _ _ Hc (or_intror eq_refl) Ht)
                  eq_refl) as Hstep.
    rewrite receiving_buffer in Hstep. rewrite Hstep. clear Hstep.
    rewrite set_buffer_receiving, processLine_continuation by assumption.
    cbv beta iota zeta. rewrite receiving_buffer. unfold tail.
    destruct (IH c (match first with
                    | None => Some code
                    | Some x => Some x
                    end)
                (lines ++ [reply_line code 45 text]) rest
                (first_settlement s None) Hwf') as (first' & ->).
    exists first'. rewrite <- app_assoc.
    destruct s; reflexivity.
Qed.

(** A whole reply, received in one chunk by an idle parser with a caller
    pending, settles the promise after the final code and leaves the
    parser idle. *)
Lemma handleData_reply c r slot :
  well_formed r ->
  buffer c = [] -> currentResponseLines c = [] ->
  pending c = Some slot ->
  handleData c (wire r)
  = (set_pending None (receiving c None [] []),
     Some (settle (expected slot) r)).
Proof.
  intros (Hc & Ht & Hconts) Hb Hl Hp.
  unfold handleData. rewrite Hb. cbn [app].
  replace (set_buffer (wire r) c)
    with (receiving c (currentResponseCode c) [] (wire r))
    by (unfold set_buffer, receiving; rewrite Hl; reflexivity).
  rewrite receiving_buffer.
  unfold wire, reply_lines, continuation_lines.
  rewrite flat_map_app. cbn [flat_map]. rewrite app_nil_r.
  destruct (handleData_loop_continuations (continuation r) c
              (currentResponseCode c) []
              (reply_line (reply_code r) 32 (reply_text r) ++ lit "\r\n")
              None Hconts) as (first' & Hconts').
  etransitivity; [exact Hconts' | clear Hconts'].
  cbn [app].
  pose proof (handleData_loop_line
                (receiving c first'
                   (map (fun l => reply_line l.1 45 l.2) (continuation r))
                   (reply_line (reply_code r) 32 (reply_text r)
                    ++ lit "\r\n" ++ []))
                None (reply_line (reply_code r) 32 (reply_text r)) []
                (reply_line_no_lf _ _ _ Hc (or_introl eq_refl) Ht)
                eq_refl) as Hstep.
  rewrite receiving_buffer, app_nil_r in Hstep. rewrite Hstep. clear Hstep.
  rewrite set_buffer_receiving.
  rewrite (processLine_final _ _ _ _ _ _ slot) by assumption.
  cbv beta iota zeta.
  cbn [first_settlement buffer set_pending receiving length handleData_loop
       indexOf].
  unfold settle, response_of, reply_lines, continuation_lines.
  reflexivity.
Qed.

End SmtpReplies.

(** ** The SMTP client: replies cut into chunks *)
Section SmtpChunks.
Import JS Smtp.

Lemma processLine_set_buffer c x line :
  processLine (set_buffer x c) line
  = let '(c2, s2) := processLine c line in (set_buffer x c2, s2).
Proof.
  unfold processLine. destruct (match_line line) as [[code sep]|]; [ | reflexivity].
  destruct (sep =? 32)%N; [ | reflexivity].
  cbn [pending set_current set_buffer]. destruct (pending c); [ | reflexivity].
  destruct (is_unexpected _ _); reflexivity.
Qed.

Lemma first_settlement_assoc a b c :
  first_settlement (first_settlement a b) c
  = first_settlement a (first_settlement b c).
Proof. destruct a; reflexivity. Qed.

(** A settlement made before the loop starts is the one kept. *)
Lemma handleData_loop_initial fuel : forall c s,
  handleData_loop fuel c s
  = let '(c2, s2) := handleData_loop fuel c None in
    (c2, first_settlement s s2).
Proof.
  induction fuel as [|fuel IH]; intros c s.
  - cbn. destruct s; reflexivity.
  - rewrite !handleData_loop_S.
    destruct (indexOf 10 (buffer c)) as [index|];
      [ | destruct s; reflexivity].
    destruct (processLine _ _) as [c2 s2].
    rewrite (IH c2 (first_settlement s s2)).
    rewrite (IH c2 (first_settlement None s2)).
    destruct (handleData_loop fuel c2 None) as [c3 s3].
    rewrite first_settlement_assoc. reflexivity.
Qed.

Lemma indexOf_app c s b i :
  indexOf c s = Some i -> indexOf c (s ++ b) = Some i /\ (i < length s)%nat.
Proof.
  revert i. induction s as [|u s IH]; intros i H; [discriminate | ].
  cbn [indexOf app length] in *. destruct (u =? c)%N.
  - injection H as <-. split; [reflexivity | lia].
  - destruct (indexOf c s) as [j|]; [ | discriminate].
    injection H as <-. destruct (IH j eq_refl) as (-> & Hj).
    split; [reflexivity | lia].
Qed.

(** Text that arrives after the buffer has been drained is handled as if
    it had been there from the start. *)
Lemma handleData_loop_app fuel : forall c s b,
  (length (buffer c) < fuel)%nat ->
  handleData_loop (S (length (buffer c ++ b))) (set_buffer (buffer c ++ b) c) s
  = let '(c1, s1) := handleData_loop fuel c s in
    handleData_loop (S (length (buffer c1 ++ b)))
      (set_buffer (buffer c1 ++ b) c1) s1.
Proof.
  induction fuel as [|fuel IH]; intros c s b Hlen; [lia | ].
  rewrite (handleData_loop_S fuel).
  destruct (indexOf 10 (buffer c)) as [index|] eqn:E; [ | reflexivity].
  rewrite handleData_loop_S. cbn [buffer set_buffer].
  destruct (indexOf_app _ _ b _ E) as (-> & Hi).
  rewrite take_app_le, drop_app_le by lia.
  set (rest := drop (index + 1) (buffer c)).
  set (line := strip_eol _).
  change (set_buffer (rest ++ b) (set_buffer (buffer c ++ b) c))
    with (set_buffer (rest ++ b) c).
  rewrite !processLine_set_buffer.
  destruct (processLine c line) as [c2 s2].
  assert (Hrest : (length rest < length (buffer c))%nat).
  { unfold rest. rewrite length_drop. lia. }
  specialize (IH (set_buffer rest c2) (first_settlement s s2) b).
  cbn [buffer set_buffer] in IH.
  rewrite <- IH by lia.
  apply handleData_loop_fuel; cbn [buffer set_buffer];
    rewrite !length_app; rewrite ?length_app in *; lia.
Qed.

(** Two chunks in a row are handled like their concatenation. *)
Lemma handleData_app c a b :
  handleData c (a ++ b)
  = let '(c1, s1) := handleData c a in
    let '(c2, s2) := handleData c1 b in
    (c2, first_settlement s1 s2).
Proof.
  unfold handleData. cbn [buffer set_buffer].
  pose proof (handleData_loop_app (S (length (buffer c ++ a)))
                (set_buffer (buffer c ++ a) c) None b) as H.
  cbn [buffer set_buffer] in H.
  change (set_buffer ((buffer c ++ a) ++ b) (set_buffer (buffer c ++ a) c))
    with (set_buffer ((buffer c ++ a) ++ b) c) in H.
  rewrite <- app_assoc in H. rewrite H by lia. clear H.
  destruct (handleData_loop _ (set_buffer (buffer c ++ a) c) None)
    as [c1 s1].
  apply handleData_loop_initial.
Qed.

Lemma prefix_of_line_no_lf line : forall p q,
  Mime.no_lf line -> p ++ q = line ++ lit "\r\n" -> q <> [] ->
  indexOf 10 p = None.
Proof.
  induction line as [|v line IH]; intros p q Hl Heq Hq.
  - destruct p as [|u p]; [reflexivity | ].
    cbn in Heq. injection Heq as -> Heq.
    destruct p as [|u' p].
    + reflexivity.
    + injection Heq as -> Heq. destruct p; [ | discriminate].
      cbn in Heq. subst q. contradiction.
  - destruct p as [|u p]; [reflexivity | ].
    cbn [app] in Heq. injection Heq as -> Heq.
    cbn [indexOf].
    destruct (N.eqb_spec v 10) as [->|_].
    + exfalso. apply Hl. left. reflexivity.
    + rewrite (IH p q); [reflexivity | | exact Heq | exact Hq].
      intros H. apply Hl. right. exact H.
Qed.

Lemma handleData_loop_no_lf fuel c s :
  indexOf 10 (buffer c) = None -> handleData_loop fuel c s = (c, s).
Proof.
  intros H. destruct fuel; [reflexivity | ].
  rewrite handleData_loop_S, H. reflexivity.
Qed.

(** As long as the final line of a reply is not complete, nothing is
    settled. *)
Lemma handleData_loop_prefix conts : forall c first lines final p q,
  Forall (fun l => (l.1 < 1000)%N /\ plain_text l.2) conts ->
  Mime.no_lf final ->
  p ++ q
  = flat_map (fun line => line ++ lit "\r\n")
      (map (fun l => reply_line l.1 45 l.2) conts)
    ++ final ++ lit "\r\n" ->
  q <> [] ->
  (handleData_loop (S (length p)) (receiving c first lines p) None).2 = None.
Proof.
  induction conts as [|[code text] conts IH];
    intros c first lines final p q Hwf Hfinal Heq Hq.
  - cbn [map flat_map app] in Heq.
    rewrite handleData_loop_no_lf; [reflexivity | ].
    exact (prefix_of_line_no_lf final p q Hfinal Heq Hq).
  - inversion Hwf as [|? ? (Hc & Ht) Hwf']; subst. cbn [fst snd] in Hc, Ht.
    cbn [map flat_map fst snd] in Heq. rewrite <- !app_assoc in Heq.
    set (tail := flat_map _ _ ++ final ++ lit "\r\n") in Heq.
    pose proof (reply_line_no_lf code 45 text Hc (or_intror eq_refl) Ht)
      as Hline.
    rewrite (app_assoc (reply_line code 45 text)) in Heq.
    apply app_eq_inv in Heq.
    destruct Heq as [(k & -> & Htail)|(k & Hk & _)].
    + pose proof (handleData_loop_line
                    (receiving c first lines
                       (reply_line code 45 text ++ lit "\r\n" ++ k))
                    None (reply_line code 45 text) k Hline eq_refl)
        as Hstep.
      rewrite receiving_buffer in Hstep.
      rewrite <- app_assoc. rewrite Hstep.
      rewrite set_buffer_receiving, processLine_continuation by assumption.
      cbv beta iota zeta. rewrite receiving_buffer.
      cbn [first_settlement].
      exact (IH c _ _ final k q Hwf' Hfinal (eq_sym Htail) Hq).
    + destruct (decide (k = [])) as [->|Hne].
      * rewrite app_nil_r in Hk. subst p.
        pose proof (handleData_loop_line
                      (receiving c first lines
                         (reply_line code 45 text ++ lit "\r\n" ++ []))
                      None (reply_line code 45 text) [] Hline eq_refl)
          as Hstep.
        rewrite receiving_buffer in Hstep.
        rewrite app_nil_r in Hstep. rewrite Hstep.
        rewrite set_buffer_receiving, processLine_continuation by assumption.
        cbv beta iota zeta. rewrite receiving_buffer.
        rewrite handleData_loop_no_lf; reflexivity.
      * rewrite handleData_loop_no_lf; [reflexivity | ].
        rewrite receiving_buffer.
        exact (prefix_of_line_no_lf _ p k Hline (eq_sym Hk) Hne).
Qed.

Lemma handleData_reply_prefix c r p q :
  well_formed r ->
  buffer c = [] -> currentResponseLines c = [] ->
  wire r = p ++ q -> q <> [] ->
  (handleData c p).2 = None.
Proof.
  intros (Hc & Ht & Hconts) Hb Hl Heq Hq.
  unfold handleData. rewrite Hb. cbn [app].
  replace (set_buffer p c) with (receiving c (currentResponseCode c) [] p)
    by (unfold set_buffer, receiving; rewrite Hl; reflexivity).
  rewrite receiving_buffer.
  apply (handleData_loop_prefix (continuation r) c _ []
           (reply_line (reply_code r) 32 (reply_text r)) p q Hconts).
  - apply reply_line_no_lf; auto.
  - rewrite <- Heq. unfold wire, reply_lines, continuation_lines.
    rewrite flat_map_app. cbn [flat_map]. rewrite app_nil_r. reflexivity.
  - exact Hq.
Qed.

Lemma concat_nonempty (chunks : list jsstring) :
  chunks <> [] -> Forall (fun chunk => chunk <> []) chunks ->
  concat chunks <> [].
Proof.
  intros Hne Hall. destruct Hall as [|chunk rest Hc _]; [contradiction | ].
  cbn [concat]. destruct chunk; [contradiction | discriminate].
Qed.

End SmtpChunks.

(** ** The SMTP client: sessions *)
Section SmtpSessions.
Import JS Smtp.

Lemma run_cons {A} (t : task A) ev evs :
  run t (ev :: evs) = run (deliver t ev) evs.
Proof. reflexivity. Qed.

Lemma run_app {A} (t : task A) evs1 evs2 :
  run t (evs1 ++ evs2) = run (run t evs1) evs2.
Proof. apply foldl_app. Qed.

(** Events that come after a method has finished do nothing to the
    transport. *)
Lemma run_Done {A} (r : result A) evs : forall c,
  exists c', run (Done r c) evs = Done r c'
             /\ socket_ c' = socket_ c /\ log c' = log c.
Proof.
  induction evs as [|ev evs IH]; intros c; [exists c; auto | ].
  rewrite run_cons. cbn [deliver].
  destruct (dispatch_frame ev c) as (Hs & Hl).
  destruct (IH (dispatch ev c).1) as (c' & -> & Hs' & Hl').
  exists c'. rewrite Hs', Hl', Hs, Hl. auto.
Qed.

Lemma async_bind_eq {A B} (m : async A) (f : A -> async B) c :
  (m ≫= f) c = task_bind (m c) f.
Proof. reflexivity. Qed.

Lemma sendCommand_idle c s command expected :
  idle c s ->
  sendCommand command expected c
  = Wait (set_pending
            (Some {| expected := expected;
                     timeout := default 15000 (timeoutMs (options c)) |})
            (record (Write s (command ++ lit "\r\n")) c))
         settled.
Proof.
  intros (Hs & _ & _ & Hq & Hp).
  unfold sendCommand. rewrite async_bind_eq. unfold write. rewrite Hs.
  cbn [task_bind]. unfold readResponse.
  cbn [pending record queuedResponses options]. rewrite Hp, Hq. reflexivity.
Qed.

Lemma idle_idle_after c s a : socket_ c = Some s -> idle (idle_after a c) s.
Proof. intros H. unfold idle, idle_after. cbn. auto. Qed.

(** A reply that arrives in several chunks settles the promise when its
    last chunk arrives, as if it had arrived whole. *)
Lemma run_chunked_reply {A} c (k : settlement -> client -> task A) r slot :
  well_formed r ->
  buffer c = [] -> currentResponseLines c = [] -> pending c = Some slot ->
  forall chunks p cp,
    wire r = p ++ concat chunks ->
    chunks <> [] -> Forall (fun chunk => chunk <> []) chunks ->
    handleData c p = (cp, None) ->
    run (Wait cp k) (map Data chunks)
    = k (settle (expected slot) r)
        (set_pending None (receiving c None [] [])).
Proof.
  intros Hwf Hb Hl Hp.
  induction chunks as [|chunk rest IH]; intros p cp Heq Hne Hall Hprefix;
    [contradiction | ].
  inversion Hall as [|? ? Hchunk Hrest]; subst.
  cbn [map]. rewrite run_cons. cbn [deliver dispatch].
  pose proof (handleData_app c p chunk) as Happ.
  rewrite Hprefix in Happ.
  assert (Hstep : handleData cp chunk = handleData c (p ++ chunk)).
  { rewrite Happ. destruct (handleData cp chunk). reflexivity. }
  rewrite Hstep. cbn [concat] in Heq. rewrite app_assoc in Heq.
  destruct rest as [|chunk2 rest].
  - cbn [concat] in Heq. rewrite app_nil_r in Heq. rewrite <- Heq.
    rewrite (handleData_reply c r slot Hwf Hb Hl Hp). reflexivity.
  - assert (Hmore : concat (chunk2 :: rest) <> [])
      by (apply concat_nonempty; [discriminate | exact Hrest]).
    pose proof (handleData_reply_prefix c r (p ++ chunk)
                  (concat (chunk2 :: rest)) Hwf Hb Hl Heq Hmore) as Hsilent.
    destruct (handleData c (p ++ chunk)) as [c' s'] eqn:E.
    cbn [snd] in Hsilent. subst s'.
    apply (IH (p ++ chunk) c'); [exact Heq | discriminate | exact Hrest | ].
    exact E.
Qed.

Lemma handleData_nil c : buffer c = [] -> handleData c [] = (c, None).
Proof.
  intros Hb. unfold handleData. rewrite Hb. cbn.
  destruct c. cbn in Hb. subst. reflexivity.
Qed.

Lemma wire_nonempty r : wire r <> [].
Proof.
  unfold wire, reply_lines. rewrite flat_map_app. cbn [flat_map].
  intros H. apply app_eq_nil in H. destruct H as (_ & H).
  rewrite app_nil_r in H. apply app_eq_nil in H. destruct H as (_ & H).
  discriminate H.
Qed.

(** One command and its reply, however the transport cuts the reply into
    chunks: the command is written, the reply settles the promise, and the
    method goes on from an idle client. *)
Lemma exchange {B} c s command expected r chunks
    (f : SmtpResponse -> async B) more :
  idle c s -> well_formed r -> chunked (wire r) chunks ->
  run ((sendCommand command expected ≫= f) c) (map Data chunks ++ more)
  = run (match settle expected r with
         | Resolve response =>
             f response (idle_after [Write s (command ++ lit "\r\n")] c)
         | Reject error =>
             Done (Throw error)
               (idle_after [Write s (command ++ lit "\r\n")] c)
         end) more.
Proof.
  intros Hidle Hwf (Hcat & Hall).
  rewrite async_bind_eq, (sendCommand_idle c s) by exact Hidle.
  destruct Hidle as (Hs & Hb & Hl & Hq & Hp).
  cbn [task_bind]. rewrite run_app.
  set (c1 := set_pending _ _).
  assert (Hne : chunks <> []).
  { intros ->. cbn in Hcat. exact (wire_nonempty r (eq_sym Hcat)). }
  rewrite (run_chunked_reply c1 _ r
             {| Smtp.expected := expected;
                timeout := default 15000 (timeoutMs (options c)) |}
             Hwf Hb Hl eq_refl chunks [] c1
             (eq_sym Hcat) Hne Hall (handleData_nil c1 Hb)).
  cbn [Smtp.expected].
  assert (Hc : set_pending None (receiving c1 None [] [])
               = idle_after [Write s (command ++ lit "\r\n")] c).
  { unfold c1, idle_after, set_pending, receiving, record. cbn. rewrite Hq.
    reflexivity. }
  rewrite Hc. destruct (settle expected r); reflexivity.
Qed.

Lemma settle_expected expected r :
  is_unexpected expected (reply_code r) = false ->
  settle expected r = Resolve (response_of r).
Proof. intros H. unfold settle. rewrite H. reflexivity. Qed.

Lemma settle_unexpected expected r :
  is_unexpected expected (reply_code r) = true ->
  settle expected r = Reject (unexpected_response (reply_code r)).
Proof. intros H. unfold settle. rewrite H. reflexivity. Qed.

(** C6.  However the transport cuts the replies into chunks: when the
    reply to MAIL FROM is accepted and the reply to RCPT TO has a final
    code other than 250 and 251, [sendMail] fails with the error
    "Unexpected SMTP response (code)." that names the code; only MAIL FROM
    and RCPT TO were written to the transport, whatever arrives
    afterwards: no DATA, no [end], no [destroy]; and the client still
    holds its socket. *)
Theorem rcpt_rejection_stops_sendMail
    c s input mail mail_chunks rcpt rcpt_chunks more :
  idle c s ->
  well_formed mail -> reply_code mail = 250%N ->
  chunked (wire mail) mail_chunks ->
  well_formed rcpt -> reply_code rcpt <> 250%N -> reply_code rcpt <> 251%N ->
  chunked (wire rcpt) rcpt_chunks ->
  exists c',
    run (sendMail input c)
      (map Data mail_chunks ++ map Data rcpt_chunks ++ more)
    = Done (Throw (Error (lit "Unexpected SMTP response ("
                          ++ decimal (reply_code rcpt) ++ lit ").")))
        c'
    /\ log c' = log c
                ++ [ Write s (lit "MAIL FROM:<" ++ from input ++ lit ">"
                              ++ lit "\r\n");
                     Write s (lit "RCPT TO:<" ++ to input ++ lit ">"
                              ++ lit "\r\n") ]
    /\ socket_ c' = Some s.
Proof.
  intros Hidle Hmail Hm250 Hmc Hrcpt Hr250 Hr251 Hrc.
  unfold sendMail.
  rewrite (exchange c s _ _ mail) by assumption.
  rewrite settle_expected by (rewrite Hm250; reflexivity).
  pose proof (idle_idle_after c s
                [Write s ((lit "MAIL FROM:<" ++ from input ++ lit ">")
                          ++ lit "\r\n")] (proj1 Hidle)) as Hidle1.
  rewrite (exchange _ s _ _ rcpt) by assumption.
  rewrite settle_unexpected.
  - destruct (run_Done (A := unit)
                (Throw (unexpected_response (reply_code rcpt))) more
                (idle_after
                   [Write s ((lit "RCPT TO:<" ++ to input ++ lit ">")
                             ++ lit "\r\n")]
                   (idle_after
                      [Write s ((lit "MAIL FROM:<" ++ from input ++ lit ">")
                                ++ lit "\r\n")] c)))
      as (c' & Hrun & Hsock & Hlog).
    exists c'. split; [exact Hrun | ].
    rewrite Hlog, Hsock. cbn [log socket_ idle_after].
    rewrite <- !app_assoc. split; [reflexivity | exact (proj1 Hidle)].
  - cbn [is_unexpected existsb].
    destruct (N.eqb_spec (reply_code rcpt) 250); [contradiction | ].
    destruct (N.eqb_spec (reply_code rcpt) 251); [contradiction | ].
    reflexivity.
Qed.

Lemma sample_connected_idle : idle sample_connected sample_socket.
Proof. unfold idle. cbn. auto. Qed.

Lemma sample_reply_well_formed code text :
  (code <? 1000)%N = true ->
  forallb (fun c => negb (is_line_terminator c)) (lit text) = true ->
  well_formed (sample_reply code text).
Proof.
  intros Hc Ht. unfold well_formed, sample_reply. cbn.
  split; [apply N.ltb_lt, Hc | ]. split; [exact Ht | constructor].
Qed.

Lemma whole_chunk r : chunked (wire r) [wire r].
Proof.
  split; [apply app_nil_r | ].
  constructor; [apply wire_nonempty | constructor].
Qed.

(** The failure scenario of the specification: 250 to MAIL FROM, which
    arrives in two pieces, then "550 mailbox unavailable" to RCPT TO. *)
Lemma rcpt_rejection_sample :
  exists c',
    run (sendMail sample_mail sample_connected)
      (map Data [lit "25"; lit "0 OK\r\n"]
       ++ map Data [lit "550 mailbox unavailable\r\n"]
       ++ [Data (lit "354 go ahead\r\n")])
    = Done (Throw (Error (lit "Unexpected SMTP response (550)."))) c'
    /\ log c' = [ Connect sample_socket;
                  Write sample_socket (lit "MAIL FROM:<me@example.org>\r\n");
                  Write sample_socket (lit "RCPT TO:<me@kindle.com>\r\n") ]
    /\ socket_ c' = Some sample_socket.
Proof.
  apply (rcpt_rejection_stops_sendMail sample_connected sample_socket
           sample_mail (sample_reply 250 "OK") [lit "25"; lit "0 OK\r\n"]
           (sample_reply 550 "mailbox unavailable")
           [lit "550 mailbox unavailable\r\n"]
           [Data (lit "354 go ahead\r\n")]).
  - exact sample_connected_idle.
  - apply sample_reply_well_formed; reflexivity.
  - reflexivity.
  - split; [reflexivity | repeat constructor; discriminate].
  - apply sample_reply_well_formed; reflexivity.
  - discriminate.
  - discriminate.
  - split; [reflexivity | repeat constructor; discriminate].
Defined.

(** After 250, 250 (or 251) and 354, [sendMail] has written the stuffed
    message and the closing dot, and waits for the final reply. *)
Lemma sendMail_streams_stuffed_message
    c s input mail mail_chunks rcpt rcpt_chunks go go_chunks :
  idle c s ->
  well_formed mail -> reply_code mail = 250%N ->
  chunked (wire mail) mail_chunks ->
  well_formed rcpt -> reply_code rcpt = 250%N \/ reply_code rcpt = 251%N ->
  chunked (wire rcpt) rcpt_chunks ->
  well_formed go -> reply_code go = 354%N ->
  chunked (wire go) go_chunks ->
  exists c' k,
    run (sendMail input c)
      (map Data mail_chunks ++ map Data rcpt_chunks ++ map Data go_chunks)
    = Wait c' k
    /\ log c' = log c
                ++ [ Write s (lit "MAIL FROM:<" ++ from input ++ lit ">"
                              ++ lit "\r\n");
                     Write s (lit "RCPT TO:<" ++ to input ++ lit ">"
                              ++ lit "\r\n");
                     Write s (lit "DATA\r\n");
                     Write s (Mime.dotStuff (message input) ++ lit "\r\n");
                     Write s (lit ".\r\n") ].
Proof.
  intros Hidle Hmail Hm Hmc Hrcpt Hr Hrc Hgo Hg Hgc.
  unfold sendMail.
  rewrite (exchange c s _ _ mail) by assumption.
  rewrite settle_expected by (rewrite Hm; reflexivity).
  pose proof (idle_idle_after c s
                [Write s ((lit "MAIL FROM:<" ++ from input ++ lit ">")
                          ++ lit "\r\n")] (proj1 Hidle)) as Hidle1.
  rewrite (exchange _ s _ _ rcpt) by assumption.
  rewrite settle_expected by (destruct Hr as [-> | ->]; reflexivity).
  pose proof (idle_idle_after _ s
                [Write s ((lit "RCPT TO:<" ++ to input ++ lit ">")
                          ++ lit "\r\n")] (proj1 Hidle1)) as Hidle2.
  rewrite <- (app_nil_r (map Data go_chunks)).
  rewrite (exchange _ s _ _ go) by assumption.
  rewrite settle_expected by (rewrite Hg; reflexivity).
  pose proof (idle_idle_after _ s [Write s (lit "DATA" ++ lit "\r\n")]
                (proj1 Hidle2)) as Hidle3.
  set (c3 := idle_after [Write s (lit "DATA" ++ lit "\r\n")] _) in *.
  cbn [run foldl]. rewrite async_bind_eq.
  unfold sendData, write. rewrite (proj1 Hidle3). cbn [task_bind].
  assert (Hidle4 : idle (record (Write s (Mime.dotStuff (message input)
                                          ++ lit "\r\n")) c3) s).
  { destruct Hidle3 as (? & ? & ? & ? & ?). unfold idle. cbn. auto. }
  rewrite async_bind_eq, (sendCommand_idle _ s) by exact Hidle4.
  cbn [task_bind]. eexists. eexists. split; [reflexivity | ].
  unfold c3. cbn [log set_pending record idle_after].
  rewrite <- !app_assoc. reflexivity.
Qed.

End SmtpSessions.

(** ** The SMTP client: [quit] and [connect] *)
Section SmtpLifecycle.
Import JS Smtp.

Lemma teardown_torn_down c : torn_down (teardown c).
Proof.
  unfold torn_down, teardown. destruct (socket_ c) as [s|] eqn:E.
  - cbn [socket_ record log]. rewrite E.
    exists (log c). rewrite <- app_assoc. reflexivity.
  - rewrite ?E. exact I.
Qed.

Lemma torn_down_frame c c' :
  socket_ c' = socket_ c -> log c' = log c -> torn_down c -> torn_down c'.
Proof. unfold torn_down. intros -> ->. auto. Qed.

(** [quit] either finishes at once, or waits with a continuation that
    finishes normally, through the [finally] block, on any settlement. *)
Lemma quit_starts c : quit_progress (quit c).
Proof.
  unfold quit, sendCommand. rewrite !async_bind_eq. unfold write.
  destruct (socket_ c) as [s|] eqn:Es; cbn [task_bind task_catch task_finally].
  - unfold readResponse. cbn [pending record queuedResponses].
    destruct (pending c) as [slot|] eqn:Ep;
      cbn [task_bind task_catch task_finally].
    + split; [reflexivity | apply teardown_torn_down].
    + destruct (queuedResponses c) as [|existing rest].
      * cbn [task_bind task_catch task_finally quit_progress].
        split; [discriminate | ].
        intros [response|error] c'; reflexivity.
      * destruct (is_unexpected _ _);
          cbn [task_bind task_catch task_finally];
          (split; [reflexivity | apply teardown_torn_down]).
  - split; [reflexivity | apply teardown_torn_down].
Qed.

Lemma quit_progress_deliver t ev :
  quit_progress t -> quit_progress (deliver t ev).
Proof.
  destruct t as [r c|c k]; cbn [quit_progress deliver].
  - intros (Hr & Ht). split; [exact Hr | ].
    destruct (dispatch_frame ev c) as (Hs & Hl).
    exact (torn_down_frame _ _ Hs Hl Ht).
  - intros (Hp & Hk).
    pose proof (dispatch_None ev c) as HN.
    destruct (dispatch ev c) as [c' [s|]]; cbn [fst snd] in HN.
    + rewrite Hk. split; [reflexivity | apply teardown_torn_down].
    + split; [rewrite (HN eq_refl); exact Hp | exact Hk].
Qed.

Lemma quit_progress_run evs : forall t,
  quit_progress t -> quit_progress (run t evs).
Proof.
  induction evs as [|ev evs IH]; intros t Ht; [exact Ht | ].
  rewrite run_cons. apply IH, quit_progress_deliver, Ht.
Qed.

(** With a socket, whatever else the state of the client, the first thing
    [quit] does is to write QUIT. *)
Lemma quit_writes_QUIT c s :
  socket_ c = Some s ->
  exists c1 rest,
    (quit c = Done (Ok tt) c1 \/ exists k, quit c = Wait c1 k)
    /\ log c1 = log c ++ Write s (lit "QUIT\r\n") :: rest.
Proof.
  intros Hs. unfold quit, sendCommand. rewrite !async_bind_eq.
  unfold write. rewrite Hs. unfold mret, async_ret. cbn [task_bind].
  unfold readResponse. cbn [pending record queuedResponses].
  destruct (pending c) as [slot|].
  - cbn [task_bind task_catch task_finally]. eexists. eexists.
    split; [left; reflexivity | ].
    unfold teardown. cbn [socket_ record log]. rewrite Hs.
    cbn [log record]. rewrite <- !app_assoc. reflexivity.
  - destruct (queuedResponses c) as [|existing queue].
    + cbn [task_bind task_catch task_finally]. eexists. exists [].
      split; [right; eexists; reflexivity | reflexivity].
    + destruct (is_unexpected _ _);
        cbn [task_bind task_catch task_finally]; eexists; eexists;
        (split; [left; reflexivity | ]);
        unfold teardown; cbn [socket_ record log set_queued]; rewrite Hs;
        cbn [log record set_queued]; rewrite <- !app_assoc; reflexivity.
Qed.

(** Events change neither the socket, nor the options, nor the log. *)
Lemma dispatch_options ev c : options (dispatch ev c).1 = options c.
Proof.
  destruct ev as [chunk|e|]; cbn [dispatch].
  - unfold handleData.
    destruct (handleData_loop_frame
                (S (length (buffer (set_buffer (buffer c ++ chunk) c))))
                (set_buffer (buffer c ++ chunk) c) None) as (_ & _ & Ho).
    exact Ho.
  - unfold failPending. destruct (pending c); reflexivity.
  - unfold timer_fired. destruct (pending c); reflexivity.
Qed.

Lemma run_Done_frame {A} (r : result A) evs : forall c r' c',
  run (Done r c) evs = Done r' c' ->
  r' = r /\ socket_ c' = socket_ c /\ log c' = log c
  /\ options c' = options c.
Proof.
  induction evs as [|ev evs IH]; intros c r' c' H.
  - injection H as <- <-. auto.
  - rewrite run_cons in H. cbn [deliver] in H.
    destruct (IH _ _ _ H) as (-> & Hs & Hl & Ho).
    destruct (dispatch_frame ev c) as (Hs' & Hl').
    rewrite Hs, Hl, Ho, Hs', Hl', dispatch_options. auto.
Qed.

(** A method that waits goes on, if it does, from a client with the same
    socket, options and log. *)
Lemma run_Wait_frame {A} evs : forall c (k : settlement -> client -> task A) r c',
  run (Wait c k) evs = Done r c' ->
  exists s c1 evs2,
    socket_ c1 = socket_ c /\ log c1 = log c /\ options c1 = options c
    /\ run (k s c1) evs2 = Done r c'.
Proof.
  induction evs as [|ev evs IH]; intros c k r c' H; [discriminate H | ].
  rewrite run_cons in H. cbn [deliver] in H.
  destruct (dispatch_frame ev c) as (Hs & Hl).
  pose proof (dispatch_options ev c) as Ho.
  destruct (dispatch ev c) as [c1 [s|]]; cbn [fst] in Hs, Hl, Ho.
  - exists s, c1, evs. auto.
  - destruct (IH _ _ _ _ H) as (s & c2 & evs2 & Hs2 & Hl2 & Ho2 & Hrun).
    exists s, c2, evs2. rewrite Hs2, Hl2, Ho2. auto.
Qed.

(** Whenever [quit] has finished, the client holds what it held and the
    log has grown by QUIT, [end] and [destroy] on that socket, if there is
    one. *)
Lemma quit_closes c evs r c' :
  run (quit c) evs = Done r c' -> closed_by_quit c c'.
Proof.
  intros Hrun. unfold closed_by_quit.
  assert (Hdown : forall c0 evs0 before,
            socket_ c0 = socket_ c -> log c0 = log c ++ before ->
            run (Done (Ok tt) (teardown c0)) evs0 = Done r c' ->
            socket_ c' = socket_ c
            /\ log c' = log c ++ before
                        ++ match socket_ c with
                           | Some s => [End s; Destroy s]
                           | None => []
                           end).
  { intros c0 evs0 before Hs0 Hl0 H.
    destruct (run_Done_frame _ _ _ _ _ H) as (_ & Hs' & Hl' & _).
    rewrite Hs', Hl'. unfold teardown. rewrite Hs0.
    destruct (socket_ c) as [s|]; cbn [socket_ log record].
    - rewrite Hs0, Hl0, <- !app_assoc. split; reflexivity.
    - rewrite Hs0, Hl0, app_nil_r. split; reflexivity. }
  unfold quit, sendCommand in Hrun. rewrite !async_bind_eq in Hrun.
  unfold write in Hrun.
  destruct (socket_ c) as [s|] eqn:Hs.
  - unfold mret, async_ret in Hrun. cbn [task_bind] in Hrun.
    unfold readResponse in Hrun.
    cbn [pending record queuedResponses] in Hrun.
    destruct (pending c) as [slot|].
    + cbn [task_bind task_catch task_finally] in Hrun.
      apply (Hdown (record (Write s (lit "QUIT" ++ lit "\r\n")) c) _
               [Write s (lit "QUIT\r\n")] Hs eq_refl Hrun).
    + destruct (queuedResponses c) as [|existing queue].
      * cbn [task_bind task_catch task_finally] in Hrun.
        destruct (run_Wait_frame _ _ _ _ _ Hrun)
          as (x & c1 & evs2 & Hs1 & Hl1 & _ & Hk).
        cbn [socket_ log set_pending record] in Hs1, Hl1.
        destruct x as [response|error];
          cbn [settled task_bind task_catch task_finally] in Hk;
          apply (Hdown c1 evs2 [Write s (lit "QUIT\r\n")]
                   (eq_trans Hs1 Hs) Hl1 Hk).
      * destruct (is_unexpected _ _);
          cbn [task_bind task_catch task_finally] in Hrun;
          apply (Hdown
                   (set_queued queue
                      (record (Write s (lit "QUIT" ++ lit "\r\n")) c))
                   _ [Write s (lit "QUIT\r\n")] Hs eq_refl Hrun).
  - cbn [task_bind task_catch task_finally] in Hrun.
    unfold mret, async_ret in Hrun.
    cbn [task_bind task_catch task_finally] in Hrun.
    destruct (Hdown c evs [] Hs (eq_sym (app_nil_r _)) Hrun)
      as (H1 & H2).
    split; [exact H1 | exact H2].
Qed.

(** C7.  In every state of the client and whatever the transport does,
    [quit] never throws: whenever it has finished it has returned
    normally, the client holds the socket it held, and what was done to
    that socket, if there is one, is QUIT written, then [end], then
    [destroy], which are the last things in the log; it finishes at the
    latest when the timer of its pending slot fires; without a socket it
    returns at once; with a socket it first writes QUIT; and on an idle
    connection it then waits for 221 or 250, and returns normally whether
    that promise is fulfilled or rejected. *)
Theorem quit_never_throws c evs :
  (forall r c', run (quit c) evs = Done r c' ->
     r = Ok tt /\ torn_down c' /\ closed_by_quit c c')
  /\ (exists c', run (quit c) (evs ++ [TimerFired]) = Done (Ok tt) c'
                 /\ torn_down c' /\ closed_by_quit c c')
  /\ (socket_ c = None -> quit c = Done (Ok tt) c)
  /\ (forall s, socket_ c = Some s ->
      exists c1 rest,
        (quit c = Done (Ok tt) c1 \/ exists k, quit c = Wait c1 k)
        /\ log c1 = log c ++ Write s (lit "QUIT\r\n") :: rest)
  /\ (forall s, idle c s ->
      exists c1 k,
        quit c = Wait c1 k
        /\ log c1 = log c ++ [Write s (lit "QUIT\r\n")]
        /\ expected <$> pending c1 = Some (Some [221%N; 250%N])
        /\ forall outcome c', k outcome c' = Done (Ok tt) (teardown c')).
Proof.
  pose proof (quit_progress_run evs _ (quit_starts c)) as Hinv.
  split; [ | split; [ | split; [ | split; [exact (quit_writes_QUIT c) | ]]]].
  - intros r c' Hrun. pose proof (quit_closes _ _ _ _ Hrun) as Hclosed.
    rewrite Hrun in Hinv. destruct Hinv as (Hr & Ht). auto.
  - assert (H : exists c', run (quit c) (evs ++ [TimerFired])
                           = Done (Ok tt) c' /\ torn_down c').
    { rewrite run_app. destruct (run (quit c) evs) as [r c1|c1 k].
      + destruct Hinv as (-> & Ht). cbn [run foldl deliver].
        exists (dispatch TimerFired c1).1. split; [reflexivity | ].
        destruct (dispatch_frame TimerFired c1) as (Hs & Hl).
        exact (torn_down_frame _ _ Hs Hl Ht).
      + destruct Hinv as (Hp & Hk). cbn [run foldl deliver dispatch].
        unfold timer_fired. destruct (pending c1); [ | contradiction].
        rewrite Hk. eexists. split; [reflexivity | apply teardown_torn_down]. }
    destruct H as (c' & Hrun & Ht). exists c'.
    split; [exact Hrun | ]. split; [exact Ht | ].
    exact (quit_closes _ _ _ _ Hrun).
  - intros Hs. unfold quit, sendCommand. rewrite !async_bind_eq.
    unfold write. rewrite Hs. unfold mret, async_ret.
    cbn [task_bind task_catch task_finally].
    unfold teardown. rewrite Hs. reflexivity.
  - intros s Hidle. unfold quit. rewrite async_bind_eq.
    rewrite (sendCommand_idle c s) by exact Hidle.
    cbn [task_bind task_catch task_finally].
    eexists. eexists. split; [reflexivity | ].
    split; [reflexivity | ]. split; [reflexivity | ].
    intros [response|error] c'; reflexivity.
Qed.

(** On the sample connection: a rejected QUIT, then the timer. *)
Lemma quit_never_throws_sample :
  idle sample_connected sample_socket
  /\ exists c',
       run (quit sample_connected)
         ([Data (wire (sample_reply 550 "no"))] ++ [TimerFired])
       = Done (Ok tt) c'
       /\ torn_down c'
       /\ socket_ c' = Some sample_socket
       /\ log c' = [Connect sample_socket;
                    Write sample_socket (lit "QUIT\r\n");
                    End sample_socket; Destroy sample_socket].
Proof.
  split; [exact sample_connected_idle | ].
  destruct (proj1 (proj2 (quit_never_throws sample_connected
                            [Data (wire (sample_reply 550 "no"))])))
    as (c' & Hrun & Ht & Hs & Hl).
  exists c'. split; [exact Hrun | ]. split; [exact Ht | ].
  split; [exact Hs | exact Hl].
Defined.

(** With a port the transport refuses, [connect] throws at once and
    leaves the client as it was. *)
Lemma connect_bad_port c :
  valid_port (port (options c)) = false ->
  connect c = Done (Throw (RangeError "port")) c.
Proof. intros H. unfold connect. rewrite H. reflexivity. Qed.

Lemma connect_starts opts :
  valid_port (port opts) = true ->
  exists c1 k,
    connect (SmtpClient opts) = Wait c1 k
    /\ awaits_greeting (Wait c1 k)
    /\ socket_ c1 = Some (open_transport opts)
    /\ log c1 = [Connect (open_transport opts)]
    /\ buffer c1 = [] /\ currentResponseLines c1 = [].
Proof.
  intros Hport. unfold connect. cbn [options SmtpClient]. rewrite Hport.
  rewrite async_bind_eq. unfold readResponse.
  cbn [pending record set_socket SmtpClient queuedResponses options
       task_bind].
  eexists. eexists. split; [reflexivity | ].
  split; [ | cbn; auto].
  split; [eexists; split; reflexivity | ].
  intros [response|error] c'; reflexivity.
Qed.

(** While [connect] waits and after it has finished, the session holds
    the socket it opened and has done nothing else to it. *)
Lemma connect_keeps_socket s evs : forall t : task unit,
  match t with
  | Done _ c => socket_ c = Some s /\ log c = [Connect s]
  | Wait c k => socket_ c = Some s /\ log c = [Connect s]
                /\ awaits_greeting (Wait c k)
  end ->
  match run t evs with
  | Done _ c' => socket_ c' = Some s /\ log c' = [Connect s]
  | Wait c' _ => socket_ c' = Some s /\ log c' = [Connect s]
  end.
Proof.
  induction evs as [|ev evs IH]; intros t Ht.
  - cbn [run foldl]. destruct t; tauto.
  - rewrite run_cons. apply IH.
    destruct t as [r c|c k]; cbn [deliver].
    + destruct (dispatch_frame ev c) as (Hs & Hl). rewrite Hs, Hl. exact Ht.
    + destruct Ht as (Hsock & Hlog & Hslot & Hk).
      pose proof (dispatch_frame ev c) as (Hs & Hl).
      pose proof (dispatch_None ev c) as HN.
      destruct (dispatch ev c) as [c' [x|]]; cbn [fst snd] in *.
      * rewrite Hk. destruct x; rewrite Hs, Hl; auto.
      * rewrite Hs, Hl. split; [exact Hsock | ]. split; [exact Hlog | ].
        split; [ | exact Hk].
        destruct Hslot as (slot & Hp & He). exists slot.
        rewrite (HN eq_refl). auto.
Qed.

Lemma is_unexpected_220 code :
  is_unexpected (Some [220%N]) code = false -> code = 220%N.
Proof.
  cbn [is_unexpected existsb]. destruct (N.eqb_spec code 220); [auto | discriminate].
Qed.

(** [connect] returns normally only on a data event that completes a
    response whose final code is 220. *)
Lemma connect_success_needs_220 evs : forall c k c',
  awaits_greeting (Wait c k) ->
  run (Wait c k) evs = Done (Ok tt) c' ->
  exists before chunk after cw lines,
    evs = before ++ Data chunk :: after
    /\ run (Wait c k) before = Wait cw k
    /\ (handleData cw chunk).2 = Some (Resolve {| code := 220; lines := lines |}).
Proof.
  induction evs as [|ev evs IH]; intros c k c' Hw Hrun; [discriminate | ].
  rewrite run_cons in Hrun. cbn [deliver] in Hrun.
  destruct Hw as ((slot & Hslot & Hexp) & Hk).
  pose proof (dispatch_None ev c) as HN.
  destruct (dispatch ev c) as [c1 [x|]] eqn:Ed; cbn [fst snd] in HN.
  - rewrite Hk in Hrun. destruct x as [response|error].
    + destruct ev as [chunk|e|]; cbn [dispatch] in Ed.
      * exists [], chunk, evs, c.
        assert (Hx : (handleData c chunk).2 = Some (Resolve response))
          by (rewrite Ed; reflexivity).
        unfold handleData in Hx.
        apply handleData_loop_Some in Hx.
        destruct Hx as (slot' & code & lines & Hp & Hres).
        cbn [pending set_buffer] in Hp. rewrite Hslot in Hp.
        injection Hp as <-. rewrite Hexp in Hres.
        destruct (is_unexpected (Some [220%N]) code) eqn:Eu;
          [discriminate | ].
        apply is_unexpected_220 in Eu. subst code.
        exists lines. split; [reflexivity | ]. split; [reflexivity | ].
        rewrite Ed. cbn [snd]. rewrite Hres. reflexivity.
      * unfold failPending in Ed. destruct (pending c); discriminate.
      * unfold timer_fired in Ed. destruct (pending c); discriminate.
    + destruct (run_Done (A := unit) (Throw error) evs c1) as (c2 & H2 & _).
      rewrite H2 in Hrun. discriminate.
  - assert (Hw1 : awaits_greeting (Wait c1 k)).
    { split; [ | exact Hk]. exists slot. rewrite (HN eq_refl). auto. }
    destruct (IH c1 k c' Hw1 Hrun)
      as (before & chunk & after & cw & lines & -> & Hb & Hh).
    exists (ev :: before), chunk, after, cw, lines.
    split; [reflexivity | ]. split; [ | exact Hh].
    rewrite run_cons. cbn [deliver]. rewrite Ed. exact Hb.
Qed.

(** C8, as the code has it.  On a new client, [connect] with a port that
    is not an integer from 0 to 65535 throws a range error at once: no
    transport is opened and the client holds no socket.  With any other
    port, [connect] returns normally only when a data event completes a
    greeting, of one line or several and in one chunk or several, whose
    final code is 220; a greeting with another final code makes it fail
    with that code, a transport error makes it fail with that error; and
    in each of these cases, success or failure, the client keeps the
    socket it opened and has itself neither ended nor destroyed it. *)
Theorem connect_needs_220_and_keeps_socket opts :
  let s := open_transport opts in
  let c0 := SmtpClient opts in
  (valid_port (port opts) = false ->
   connect c0 = Done (Throw (RangeError "port")) c0
   /\ forall evs, exists c',
        run (connect c0) evs = Done (Throw (RangeError "port")) c'
        /\ socket_ c' = None /\ log c' = [])
  /\ (valid_port (port opts) = true ->
      (forall r chunks more, well_formed r -> chunked (wire r) chunks ->
         exists c',
           run (connect c0) (map Data chunks ++ more)
           = Done (if (reply_code r =? 220)%N then Ok tt
                   else Throw (unexpected_response (reply_code r))) c')
      /\ (forall e more,
            exists c', run (connect c0) (SocketError e :: more)
                       = Done (Throw e) c')
      /\ (forall evs,
            match run (connect c0) evs with
            | Done _ c' | Wait c' _ =>
                socket_ c' = Some s /\ log c' = [Connect s]
            end))
  /\ (forall evs c',
        run (connect c0) evs = Done (Ok tt) c' ->
        valid_port (port opts) = true
        /\ exists before chunk after cw k lines,
             evs = before ++ Data chunk :: after
             /\ run (connect c0) before = Wait cw k
             /\ (handleData cw chunk).2
                = Some (Resolve {| code := 220; lines := lines |})).
Proof.
  intros s c0.
  assert (Hbad : valid_port (port opts) = false ->
                 connect c0 = Done (Throw (RangeError "port")) c0).
  { intros H. apply connect_bad_port. exact H. }
  split; [ | split].
  - intros Hport. split; [exact (Hbad Hport) | ].
    intros evs. rewrite (Hbad Hport).
    destruct (run_Done (A := unit) (Throw (RangeError "port")) evs c0)
      as (c' & Hrun & Hs & Hl).
    exists c'. split; [exact Hrun | ]. rewrite Hs, Hl. split; reflexivity.
  - intros Hport.
    destruct (connect_starts opts Hport)
      as (c1 & k & Hc & Hw & Hs & Hl & Hb & Hlines).
    fold c0 in Hc. fold s in Hs, Hl. rewrite Hc.
    split; [ | split].
    + intros r chunks more Hwf (Hcat & Hall). rewrite run_app.
      destruct Hw as ((slot & Hslot & Hexp) & Hk).
      assert (Hne : chunks <> []).
      { intros ->. cbn in Hcat. exact (wire_nonempty r (eq_sym Hcat)). }
      rewrite (run_chunked_reply c1 k r slot Hwf Hb Hlines Hslot chunks []
                 c1 (eq_sym Hcat) Hne Hall (handleData_nil c1 Hb)).
      rewrite Hk, Hexp. unfold settle. cbn [is_unexpected existsb].
      rewrite orb_false_r.
      destruct (reply_code r =? 220)%N; cbn [negb];
        match goal with
        | |- context [run (Done ?r ?c) more] =>
            destruct (run_Done r more c) as (c' & -> & _)
        end; eauto.
    + intros e more. rewrite run_cons. cbn [deliver dispatch].
      destruct Hw as ((slot & Hslot & Hexp) & Hk).
      unfold failPending. rewrite Hslot, Hk.
      match goal with
      | |- context [run (Done ?r ?c) more] =>
          destruct (run_Done r more c) as (c' & -> & _)
      end. eauto.
    + intros evs.
      pose proof (connect_keeps_socket s evs (Wait c1 k)
                    (conj Hs (conj Hl Hw))) as H.
      destruct (run (Wait c1 k) evs); exact H.
  - intros evs c' Hrun.
    destruct (valid_port (port opts)) eqn:Hport.
    + split; [reflexivity | ].
      destruct (connect_starts opts Hport) as (c1 & k & Hc & Hw & _).
      fold c0 in Hc. rewrite Hc in Hrun. rewrite Hc.
      destruct (connect_success_needs_220 evs c1 k c' Hw Hrun)
        as (before & chunk & after & cw & lines & H1 & H2 & H3).
      exists before, chunk, after, cw, k, lines. auto.
    + rewrite (Hbad eq_refl) in Hrun.
      destruct (run_Done (A := unit) (Throw (RangeError "port")) evs c0)
        as (c2 & H2 & _).
      rewrite H2 in Hrun. discriminate Hrun.
Qed.

(** The greeting "554 no service": [connect] fails, and the session still
    holds the open socket; it is not back in the disconnected state. *)
Lemma connect_failure_keeps_socket :
  exists c',
    run (connect (SmtpClient sample_options))
      [Data (wire (sample_reply 554 "no service"))]
    = Done (Throw (unexpected_response 554)) c'
    /\ socket_ c' = Some sample_socket
    /\ socket_ c' <> socket_ (SmtpClient sample_options)
    /\ ~ In (End sample_socket) (log c')
    /\ ~ In (Destroy sample_socket) (log c').
Proof.
  eexists. split; [vm_compute; reflexivity | ].
  cbn [socket_ log]. split; [reflexivity | ]. split; [discriminate | ].
  split; intros [H|[]]; discriminate H.
Qed.

(** The greeting "220 ready", in two chunks, on the sample options. *)
Lemma connect_sample :
  (valid_port (port sample_options) = true
   /\ well_formed (sample_reply 220 "ready")
   /\ chunked (wire (sample_reply 220 "ready")) [lit "220 re"; lit "ady\r\n"])
  /\ exists c',
       run (connect (SmtpClient sample_options))
         (map Data [lit "220 re"; lit "ady\r\n"] ++ [])
       = Done (Ok tt) c'.
Proof.
  assert (Hp : valid_port (port sample_options) = true) by reflexivity.
  assert (H : well_formed (sample_reply 220 "ready"))
    by (apply sample_reply_well_formed; reflexivity).
  assert (Hc : chunked (wire (sample_reply 220 "ready"))
                 [lit "220 re"; lit "ady\r\n"])
    by (split; [reflexivity | repeat constructor; discriminate]).
  split; [auto | ].
  destruct (proj1 (proj2 (connect_needs_220_and_keeps_socket sample_options))
              Hp)
    as (Hgreet & _).
  exact (Hgreet (sample_reply 220 "ready") _ [] H Hc).
Defined.

(** The session of the specification's scenario: greeting, EHLO with a
    reply of two lines, then [sendMail] with every reply as expected.
    Five commands go out, in order, with the stuffed message before the
    closing dot. *)
Example session_scenario :
  exists c',
    run ((_ ← connect; _ ← sendEhlo (lit "mac.local"); sendMail sample_mail)
           (SmtpClient sample_options))
      [ Data (lit "220 ready\r\n"); Data (lit "250-a\r\n250 b\r\n");
        Data (lit "250 OK\r\n"); Data (lit "250 OK\r\n");
        Data (lit "354 go\r\n"); Data (lit "250 Queued\r\n") ]
    = Done (Ok tt) c'
    /\ log c'
       = [ Connect sample_socket;
           Write sample_socket (lit "EHLO mac.local\r\n");
           Write sample_socket (lit "MAIL FROM:<me@example.org>\r\n");
           Write sample_socket (lit "RCPT TO:<me@kindle.com>\r\n");
           Write sample_socket (lit "DATA\r\n");
           Write sample_socket (lit "Subject: hi\r\n\r\n..hidden\r\nbye\r\n");
           Write sample_socket (lit ".\r\n") ].
Proof. eexists. split; vm_compute; reflexivity. Qed.

End SmtpLifecycle.

(** ** Where dot-stuffing happens *)
Section DotStuffing.
Import JS Mime Smtp.

(** C5.  [dotStuff] gives every line that starts with a period (a line
    that is just "." included) exactly one more period in front, leaves
    every other line as it is, and joins the lines with CR LF; the
    encoder does not stuff: its message is its lines joined with CR LF,
    each of them unchanged; and [sendMail] applies [dotStuff] to the
    message when it streams it, after DATA has been accepted and before
    the closing dot, however the transport cuts the replies into chunks. *)
Theorem dot_stuffing_at_send_time :
  (forall message,
     split_lines (dotStuff message) = map stuff_line (split_lines message)
     /\ crlf_only false (dotStuff message) = true)
  /\ (forall rest, stuff_line (46%N :: rest) = 46%N :: 46%N :: rest)
  /\ (forall line, head line <> Some 46%N -> stuff_line line = line)
  /\ (forall normalize env input lines,
        mimeLines normalize env input = Ok lines ->
        buildMimeMessage normalize env input = Ok (join CRLF lines)
        /\ split_lines (join CRLF lines) = flat_map split_lines lines)
  /\ (forall c s input mail mail_chunks rcpt rcpt_chunks go go_chunks,
        idle c s ->
        well_formed mail -> reply_code mail = 250%N ->
        chunked (wire mail) mail_chunks ->
        well_formed rcpt ->
        reply_code rcpt = 250%N \/ reply_code rcpt = 251%N ->
        chunked (wire rcpt) rcpt_chunks ->
        well_formed go -> reply_code go = 354%N ->
        chunked (wire go) go_chunks ->
        exists c' k,
          run (sendMail input c)
            (map Data mail_chunks ++ map Data rcpt_chunks
             ++ map Data go_chunks)
          = Wait c' k
          /\ log c'
             = log c
               ++ [ Write s (lit "MAIL FROM:<" ++ from input ++ lit ">"
                             ++ lit "\r\n");
                    Write s (lit "RCPT TO:<" ++ to input ++ lit ">"
                             ++ lit "\r\n");
                    Write s (lit "DATA\r\n");
                    Write s (dotStuff (message input) ++ lit "\r\n");
                    Write s (lit ".\r\n") ]).
Proof.
  split; [exact dotStuff_lines | ].
  split; [reflexivity | ].
  split.
  { intros [|c line] Hhead; [reflexivity | ].
    unfold stuff_line. cbn [startsWith lit lit_units
                            String.list_ascii_of_string].
    change (N_of_ascii ".") with 46%N.
    destruct (N.eqb_spec 46 c) as [<-|_]; [ | reflexivity].
    exfalso. apply Hhead. reflexivity. }
  split; [ | exact sendMail_streams_stuffed_message].
  intros normalize env input lines Hlines.
  unfold buildMimeMessage. rewrite Hlines. split; [reflexivity | ].
  apply split_lines_join.
  unfold mimeLines in Hlines.
  destruct (encodeFilenameHeader normalize _); [ | discriminate].
  cbn [mbind result_bind mret result_ret] in Hlines.
  injection Hlines as <-. discriminate.
Qed.

(** The sample message, whose third line starts with a period, as it goes
    over the wire. *)
Lemma dot_stuffing_sample :
  idle sample_connected sample_socket
  /\ exists c' k,
       run (sendMail sample_mail sample_connected)
         (map Data [lit "250 OK\r\n"]
          ++ map Data [lit "251 will"; lit " forward\r"; lit "\n"]
          ++ map Data [lit "354 go ahead\r\n"])
       = Wait c' k
       /\ log c'
          = [ Connect sample_socket;
              Write sample_socket (lit "MAIL FROM:<me@example.org>\r\n");
              Write sample_socket (lit "RCPT TO:<me@kindle.com>\r\n");
              Write sample_socket (lit "DATA\r\n");
              Write sample_socket
                (lit "Subject: hi\r\n\r\n..hidden\r\nbye\r\n");
              Write sample_socket (lit ".\r\n") ].
Proof.
  split; [exact sample_connected_idle | ].
  destruct dot_stuffing_at_send_time as (_ & _ & _ & _ & Hsend).
  apply (Hsend sample_connected sample_socket sample_mail
           (sample_reply 250 "OK") [lit "250 OK\r\n"]
           (sample_reply 251 "will forward")
           [lit "251 will"; lit " forward\r"; lit "\n"]
           (sample_reply 354 "go ahead") [lit "354 go ahead\r\n"]).
  - exact sample_connected_idle.
  - apply sample_reply_well_formed; reflexivity.
  - reflexivity.
  - split; [reflexivity | repeat constructor; discriminate].
  - apply sample_reply_well_formed; reflexivity.
  - right. reflexivity.
  - split; [reflexivity | repeat constructor; discriminate].
  - apply sample_reply_well_formed; reflexivity.
  - reflexivity.
  - split; [reflexivity | repeat constructor; discriminate].
Defined.

End DotStuffing.

(* ================================================================== *)
(** * Part III: further properties of the code                         *)
(* ================================================================== *)

(** ** The checksum: what it detects *)
Section CrcErrors.
Import JS Crc.

Lemma crc32_register buffer :
  crc32 buffer = Z.lxor (fold_left ieee_byte buffer 0xFFFFFFFF) 0xFFFFFFFF.
Proof.
  unfold crc32. rewrite ushr_spec by lia. rewrite Z.shiftr_0_r.
  rewrite ToUint32_xor, crc_fold_spec. reflexivity.
Qed.

(** Only the empty register is shifted to the empty register. *)
Lemma ieee_shift_kernel r : 0 <= r < 2 ^ 32 -> ieee_shift r = 0 -> r = 0.
Proof.
  intros Hr. unfold ieee_shift.
  rewrite Z.shiftr_div_pow2 by lia. change (2 ^ 1) with 2.
  assert (Hs : 0 <= r / 2 < 2 ^ 31).
  { split; [apply Z.div_pos; lia | apply Z.div_lt_upper_bound; lia]. }
  destruct (Z.odd r) eqn:Eodd.
  - intros H. apply Z.lxor_eq in H. unfold ieee_poly in H. lia.
  - intros H. pose proof (Zmod_odd r) as Hm. rewrite Eodd in Hm.
    pose proof (Z.div_mod r 2 ltac:(lia)). lia.
Qed.

Lemma ieee_shift_inj a b :
  0 <= a < 2 ^ 32 -> 0 <= b < 2 ^ 32 -> ieee_shift a = ieee_shift b -> a = b.
Proof.
  intros Ha Hb H. apply Z.lxor_eq.
  apply ieee_shift_kernel; [apply lxor_range; assumption | ].
  rewrite ieee_shift_lxor, H. apply Z.lxor_nilpotent.
Qed.

Lemma ieee_iter_inj k : forall a b,
  0 <= a < 2 ^ 32 -> 0 <= b < 2 ^ 32 ->
  Nat.iter k ieee_shift a = Nat.iter k ieee_shift b -> a = b.
Proof.
  induction k as [|k IH]; intros a b Ha Hb H; [exact H | ].
  cbn [Nat.iter] in H. apply IH; [assumption.. | ].
  apply ieee_shift_inj; [apply ieee_iter_range; assumption.. | exact H].
Qed.

Lemma ieee_byte_range r b : 0 <= r < 2 ^ 32 -> 0 <= ieee_byte r b < 2 ^ 32.
Proof.
  intros Hr. unfold ieee_byte. apply ieee_iter_range, lxor_range; [exact Hr | ].
  pose proof (byte_val_range b). lia.
Qed.

Lemma ieee_fold_range bs : forall r,
  0 <= r < 2 ^ 32 -> 0 <= fold_left ieee_byte bs r < 2 ^ 32.
Proof.
  induction bs as [|b bs IH]; intros r Hr; [exact Hr | ].
  cbn [fold_left]. apply IH, ieee_byte_range, Hr.
Qed.

Lemma lxor_cancel_r a b c : Z.lxor a c = Z.lxor b c -> a = b.
Proof.
  intros H. apply (f_equal (fun x => Z.lxor x c)) in H.
  rewrite !Z.lxor_assoc, Z.lxor_nilpotent, !Z.lxor_0_r in H. exact H.
Qed.

Lemma lxor_cancel_l a b c : Z.lxor c a = Z.lxor c b -> a = b.
Proof. rewrite !(Z.lxor_comm c). apply lxor_cancel_r. Qed.

Lemma ieee_byte_inj r r' b b' :
  0 <= r < 2 ^ 32 -> 0 <= r' < 2 ^ 32 ->
  ieee_byte r b = ieee_byte r' b' -> Z.lxor r (byte_val b) = Z.lxor r' (byte_val b').
Proof.
  intros Hr Hr' H. unfold ieee_byte in H.
  pose proof (byte_val_range b). pose proof (byte_val_range b').
  apply (ieee_iter_inj 8); [apply lxor_range; lia.. | exact H].
Qed.

Lemma ieee_fold_inj bs : forall r r',
  0 <= r < 2 ^ 32 -> 0 <= r' < 2 ^ 32 ->
  fold_left ieee_byte bs r = fold_left ieee_byte bs r' -> r = r'.
Proof.
  induction bs as [|b bs IH]; intros r r' Hr Hr' H; [exact H | ].
  cbn [fold_left] in H.
  apply IH in H; [ | apply ieee_byte_range; assumption..].
  apply ieee_byte_inj in H; [ | assumption..].
  exact (lxor_cancel_r _ _ _ H).
Qed.

Lemma byte_val_inj b b' : byte_val b = byte_val b' -> b = b'.
Proof.
  unfold byte_val. intros H. apply N2Z.inj in H.
  apply (f_equal Byte.of_N) in H. rewrite !Byte.of_to_N in H.
  congruence.
Qed.

(** X1.  [crc32] tells apart any two buffers that differ in exactly one
    byte: changing one byte of a buffer, whatever stands before and after
    it, changes the checksum. *)
Theorem crc32_detects_a_changed_byte before after b b' :
  b <> b' ->
  crc32 (before ++ b :: after) <> crc32 (before ++ b' :: after).
Proof.
  intros Hb H. rewrite !crc32_register in H. apply lxor_cancel_r in H.
  rewrite !fold_left_app in H. cbn [fold_left] in H.
  set (r := fold_left ieee_byte before 0xFFFFFFFF) in H.
  assert (Hr : 0 <= r < 2 ^ 32) by (apply ieee_fold_range; lia).
  apply ieee_fold_inj in H; [ | apply ieee_byte_range; exact Hr..].
  apply ieee_byte_inj in H; [ | exact Hr..].
  apply lxor_cancel_l, byte_val_inj in H. contradiction.
Qed.

End CrcErrors.

(** ** The ZIP writer: the rest of the archive *)
Section ArchiveFacts.
Import JS Zip.

Ltac peel_write H :=
  apply bind_Ok in H;
  let h := fresh "h" in
  let Hw := fresh "Hw" in
  destruct H as (h & Hw & H);
  apply writeUIntLE_Ok in Hw;
  let Hv := fresh "Hv" in
  let Hl := fresh "Hl" in
  destruct Hw as (Hv & Hl & ->); clear Hl.

Lemma length_central_section entries : forall off,
  length (central_section off entries) = sum_list (central_size <$> entries).
Proof.
  induction entries as [|e es IH]; intros off; [reflexivity | ].
  cbn [central_section fmap list_fmap sum_list sum_list_with].
  rewrite length_app, length_central_record, IH. reflexivity.
Qed.

Lemma length_end_record entries : length (end_record entries) = 22%nat.
Proof. unfold end_record. rewrite !length_app, !length_le_bytes. reflexivity. Qed.

(** The end record, when all its writes succeed. *)
Lemma endRecord_Ok entries r :
  endRecord (Z.of_nat (length entries))
    (Z.of_nat (sum_list (central_size <$> entries)))
    (Z.of_nat (sum_list (entry_size <$> entries))) = Ok r ->
  r = end_record entries
  /\ Z.of_nat (length entries) < 2 ^ 16
  /\ Z.of_nat (sum_list (central_size <$> entries)) < 2 ^ 32
  /\ Z.of_nat (sum_list (entry_size <$> entries)) < 2 ^ 32.
Proof.
  unfold endRecord, writeUInt32LE, writeUInt16LE. intros H.
  repeat peel_write H. apply writeUIntLE_Ok in H.
  destruct H as (_ & _ & ->).
  split; [ | repeat split; lia].
  unfold end_record, alloc.
  cbn [le_bytes list_inserts Nat.add replicate insert list_insert app].
  rewrite ?list_inserts_cons. reflexivity.
Qed.

(** The whole archive, byte for byte. *)
Lemma buildZip_layout entries bytes :
  buildZip entries = Ok bytes ->
  bytes = file_section entries ++ central_section 0 entries
          ++ end_record entries
  /\ archive_fits entries.
Proof.
  unfold buildZip. intros H.
  apply bind_Ok in H. destruct H as (st & Hloop & H).
  apply bind_Ok in H. destruct H as (er & Her & H).
  cbv [mret result_ret] in H. injection H as <-.
  destruct (zip_loop_Ok entries
              {| fileChunks := []; centralChunks := []; offset := 0 |}
              0%nat st eq_refl Hloop) as (Hf & Hc & Ho & Hfits).
  cbn [fileChunks centralChunks concat app] in Hf, Hc.
  rewrite Hc, Ho, length_central_section, Nat.add_0_l in Her.
  apply endRecord_Ok in Her. destruct Her as (-> & Hn & Hcs & Hfs).
  split; [ | repeat split; assumption].
  rewrite concat_app, Hf, Hc. cbn [concat]. rewrite app_nil_r. reflexivity.
Qed.

(** X2.  The archive [buildZip] returns ends with the end of central
    directory record, 22 bytes long, right after the central directory:
    its signature, disk numbers 0, the number of entries twice, the size
    of the central directory, the offset of the central directory (the
    size of the file section), and a comment length of 0; the archive has
    no byte besides the file section, the central directory and this
    record. *)
Theorem buildZip_end_of_central_directory entries bytes :
  buildZip entries = Ok bytes ->
  let files := sum_list (entry_size <$> entries) in
  let central := sum_list (central_size <$> entries) in
  let eo := (files + central)%nat in
  length bytes = (eo + 22)%nat
  /\ readUIntLE 4 bytes eo = 0x06054b50
  /\ readUIntLE 2 bytes (eo + 4) = 0
  /\ readUIntLE 2 bytes (eo + 6) = 0
  /\ readUIntLE 2 bytes (eo + 8) = Z.of_nat (length entries)
  /\ readUIntLE 2 bytes (eo + 10) = Z.of_nat (length entries)
  /\ readUIntLE 4 bytes (eo + 12) = Z.of_nat central
  /\ readUIntLE 4 bytes (eo + 16) = Z.of_nat files
  /\ readUIntLE 2 bytes (eo + 20) = 0.
Proof.
  intros Hzip files central eo.
  destruct (buildZip_layout _ _ Hzip) as (-> & _ & Hn & Hc & Hf).
  fold central in Hc. fold files in Hf.
  assert (Hdrop : drop eo (file_section entries ++ central_section 0 entries
                           ++ end_record entries)
                  = end_record entries ++ []).
  { rewrite app_assoc, app_nil_r. unfold eo, files, central.
    rewrite <- length_file_section, <- (length_central_section entries 0),
      <- length_app.
    apply drop_app_length. }
  split.
  { rewrite !length_app, length_file_section, length_central_section,
      length_end_record. unfold eo, files, central. lia. }
  rewrite <- (Nat.add_0_r eo) at 1.
  rewrite !(readUIntLE_at _ _ eo _ _ _ Hdrop).
  unfold end_record. fold files central.
  cbn [le_bytes app drop take].
  repeat split; rewrite ?take_0;
    first [apply (le_value_le_bytes 4); lia | apply (le_value_le_bytes 2); lia].
Qed.

(** The record, the name and the data of entry [n] in the file section. *)
Lemma drop_file_section_data entries : forall n e tail,
  entries !! n = Some e ->
  exists tl, drop (local_offset entries n) (file_section entries ++ tail)
             = local_record e ++ data e ++ tl.
Proof.
  induction entries as [|e0 rest IH]; intros n e tail Hn.
  - destruct n; discriminate.
  - destruct n as [|n].
    + injection Hn as <-. unfold local_offset, file_section. simpl.
      rewrite <- !app_assoc. eauto.
    + destruct (IH n e tail Hn) as (tl & Htl). exists tl.
      rewrite local_offset_S. unfold file_section in *.
      cbn [map concat]. rewrite <- !app_assoc, <- Htl.
      rewrite (app_assoc (local_record e0)).
      replace (entry_size e0)
        with (length (local_record e0 ++ data e0))
        by (rewrite length_app, length_local_record; reflexivity).
      rewrite <- drop_drop, drop_app_length. reflexivity.
Qed.

Lemma take_drop_at (buf : Buffer) o f rec tl k :
  drop o buf = rec ++ tl ->
  take k (drop (o + f) buf) = take k (drop f (rec ++ tl)).
Proof. intros H. rewrite <- drop_drop, H. reflexivity. Qed.

(** X3.  In the archive [buildZip] returns, for every entry: both
    records carry the checksum [crc32] of the data, the compression method
    0 (stored), the byte length of the UTF-8 name, and lengths 0 for the
    extra field and the comment; the name follows each record; and the
    data of the entry follows its local record, byte for byte. *)
Theorem buildZip_stores_entries entries bytes n e :
  buildZip entries = Ok bytes ->
  entries !! n = Some e ->
  let lo := local_offset entries n in
  let co := central_offset entries n in
  let nameBuffer := utf8 (name e) in
  readUIntLE 4 bytes (lo + 14) = Crc.crc32 (data e)
  /\ readUIntLE 4 bytes (co + 16) = Crc.crc32 (data e)
  /\ readUIntLE 2 bytes (lo + 8) = 0
  /\ readUIntLE 2 bytes (co + 10) = 0
  /\ readUIntLE 2 bytes (lo + 26) = Z.of_nat (length nameBuffer)
  /\ readUIntLE 2 bytes (co + 28) = Z.of_nat (length nameBuffer)
  /\ readUIntLE 2 bytes (lo + 28) = 0
  /\ readUIntLE 2 bytes (co + 30) = 0
  /\ readUIntLE 2 bytes (co + 32) = 0
  /\ take (length nameBuffer) (drop (lo + 30) bytes) = nameBuffer
  /\ take (length nameBuffer) (drop (co + 46) bytes) = nameBuffer
  /\ take (length (data e)) (drop (lo + 30 + length nameBuffer) bytes)
     = data e.
Proof.
  intros Hzip Hn lo co nameBuffer.
  destruct (buildZip_layout _ _ Hzip) as (-> & Hfits & _).
  destruct (zip_fits_lookup _ _ _ _ Hfits Hn) as (_ & _ & Hname).
  fold nameBuffer in Hname.
  pose proof (crc32_range (data e)) as Hcrc.
  destruct (drop_file_section_data _ _ _
              (central_section 0 entries ++ end_record entries) Hn)
    as (tl & Hl).
  destruct (drop_central_section _ 0%nat _ _ (end_record entries) Hn)
    as (tc & Hc).
  rewrite Nat.add_0_l in Hc. fold lo in Hl, Hc.
  assert (Hco : drop co (file_section entries ++ central_section 0 entries
                         ++ end_record entries)
                = central_record lo e ++ tc).
  { unfold co, central_offset. rewrite <- length_file_section.
    rewrite <- drop_drop, drop_app_length. exact Hc. }
  rewrite !(readUIntLE_at _ _ lo _ _ _ Hl).
  rewrite !(readUIntLE_at _ _ co _ _ _ Hco).
  rewrite (take_drop_at _ lo 30 _ _ _ Hl).
  rewrite (take_drop_at _ co 46 _ _ _ Hco).
  rewrite <- (Nat.add_assoc lo 30).
  rewrite (take_drop_at _ lo (30 + length nameBuffer) _ _ _ Hl).
  assert (Hdata : take (length (data e))
                    (drop (30 + length nameBuffer)
                       (local_record e ++ data e ++ tl)) = data e).
  { unfold nameBuffer. rewrite <- length_local_record.
    rewrite drop_app_length. apply take_app_length. }
  split; [ | split; [ | split; [ | split; [ | split; [ | split; [ | split;
    [ | split; [ | split; [ | split; [ | split; [ | exact Hdata]]]]]]]]]]];
    unfold local_record, central_record; fold nameBuffer;
    cbn [le_bytes app drop take]; rewrite ?take_0;
    try (apply (le_value_le_bytes 4); lia);
    try (apply (le_value_le_bytes 2); lia);
    apply take_app_length.
Qed.

Lemma range_only_write n v off buf : range_only (writeUIntLE n v off buf).
Proof.
  unfold range_only, writeUIntLE. intros e.
  destruct (_ || _); [intros [= <-]; eauto | ].
  destruct (_ <? _)%nat; [intros [= <-]; eauto | discriminate].
Qed.

Lemma range_only_bind {A B} (m : result A) (f : A -> result B) :
  range_only m -> (forall a, range_only (f a)) -> range_only (m ≫= f).
Proof.
  intros Hm Hf e. destruct m as [a|e']; cbn [mbind result_bind].
  - apply Hf.
  - intros [= <-]. apply Hm. reflexivity.
Qed.

Lemma range_only_ret {A} (a : A) : range_only (mret a).
Proof. intros e. discriminate. Qed.

Ltac range_only :=
  repeat first
    [ apply range_only_ret
    | apply range_only_write
    | apply range_only_bind; [ | intros ? ] ].

Lemma range_only_loop entries : forall st, range_only (zip_loop entries st).
Proof.
  induction entries as [|e rest IH]; intros st; cbn [zip_loop].
  - apply range_only_ret.
  - apply range_only_bind; [ | exact IH].
    unfold zip_step, localHeader, centralHeader, writeUInt32LE, writeUInt16LE.
    range_only.
Qed.

(** X4.  [buildZip] returns an archive exactly when every field holds its
    value (data lengths and offsets below 2^32, name lengths and the number
    of entries below 2^16); otherwise it throws, and what it throws is a
    range error of a Buffer write. *)
Theorem buildZip_fails_on_overflow_only entries :
  ((exists bytes, buildZip entries = Ok bytes) <-> archive_fits entries)
  /\ (forall e, buildZip entries = Throw e -> exists what, e = RangeError what).
Proof.
  split; [split | ].
  - intros (bytes & H). apply (buildZip_layout _ _ H).
  - intros (Hfits & Hn & Hc & Hf). apply buildZip_succeeds; assumption.
  - change (range_only (buildZip entries)). unfold buildZip.
    apply range_only_bind; [apply range_only_loop | intros st].
    unfold endRecord, writeUInt32LE, writeUInt16LE. range_only.
Qed.

End ArchiveFacts.

(** ** [escapeHtml] *)
Section EscapeFacts.
Import JS Epub.

Lemma escapeHtml_app a b : escapeHtml (a ++ b) = escapeHtml a ++ escapeHtml b.
Proof. unfold escapeHtml, replace_unit. rewrite !flat_map_app. reflexivity. Qed.

(** What [escapeHtml] makes of one code unit. *)
Lemma entity_cases c :
  (c = 38%N /\ entity c = [38; 97; 109; 112; 59]%N)
  \/ (c = 60%N /\ entity c = [38; 108; 116; 59]%N)
  \/ (c = 62%N /\ entity c = [38; 103; 116; 59]%N)
  \/ (c = 34%N /\ entity c = [38; 113; 117; 111; 116; 59]%N)
  \/ (c = 39%N /\ entity c = [38; 35; 51; 57; 59]%N)
  \/ (is_markup c = false /\ entity c = [c]).
Proof.
  unfold entity, is_markup.
  destruct (N.eqb_spec c 38); [auto | ].
  destruct (N.eqb_spec c 60); [auto 6 | ].
  destruct (N.eqb_spec c 62); [auto 6 | ].
  destruct (N.eqb_spec c 34); [auto 7 | ].
  destruct (N.eqb_spec c 39); [auto 8 | ].
  auto 10.
Qed.

Lemma escapeHtml_unit c : escapeHtml [c] = entity c.
Proof.
  destruct (entity_cases c) as [(-> & _)|[(-> & _)|[(-> & _)|[(-> & _)
    |[(-> & _)|(Hc & ->)]]]]]; try reflexivity.
  unfold is_markup in Hc. rewrite !orb_false_iff in Hc.
  destruct Hc as ((((H1 & H2) & H3) & H4) & H5).
  unfold escapeHtml, replace_unit. cbn [flat_map].
  rewrite H1. cbn [app flat_map]. rewrite H2. cbn [app flat_map].
  rewrite H3. cbn [app flat_map]. rewrite H4. cbn [app flat_map].
  rewrite H5. reflexivity.
Qed.

Lemma escapeHtml_flat_map s : escapeHtml s = flat_map entity s.
Proof.
  induction s as [|c s IH]; [reflexivity | ].
  change (c :: s) with ([c] ++ s).
  rewrite escapeHtml_app, escapeHtml_unit, IH. reflexivity.
Qed.

Lemma entity_no_markup c :
  Forall (fun u => u <> 60 /\ u <> 62 /\ u <> 34 /\ u <> 39)%N (entity c).
Proof.
  destruct (entity_cases c) as [(_ & ->)|[(_ & ->)|[(_ & ->)|[(_ & ->)
    |[(_ & ->)|(Hc & ->)]]]]];
    try (repeat constructor; discriminate).
  unfold is_markup in Hc. rewrite !orb_false_iff in Hc.
  destruct Hc as ((((_ & H2) & H3) & H4) & H5).
  apply N.eqb_neq in H2, H3, H4, H5. repeat constructor; assumption.
Qed.

Lemma length_entity c : (1 <= length (entity c))%nat.
Proof.
  destruct (entity_cases c) as [(_ & ->)|[(_ & ->)|[(_ & ->)|[(_ & ->)
    |[(_ & ->)|(_ & ->)]]]]]; cbn; lia.
Qed.

Lemma length_flat_map_entity s : (length s <= length (flat_map entity s))%nat.
Proof.
  induction s as [|c s IH]; [reflexivity | ].
  cbn [flat_map]. rewrite length_app. pose proof (length_entity c).
  cbn [length]. lia.
Qed.

(** X5.  The five replacements of [escapeHtml], made one after the other,
    amount to one pass that replaces each ampersand, angle bracket, double
    quote and apostrophe by its entity and keeps every other code unit: no
    replacement touches what an earlier one wrote.  The result holds no
    angle bracket, no double quote and no apostrophe. *)
Theorem escapeHtml_one_pass s :
  escapeHtml s = flat_map entity s
  /\ Forall (fun u => u <> 60 /\ u <> 62 /\ u <> 34 /\ u <> 39)%N
       (escapeHtml s).
Proof.
  split; [apply escapeHtml_flat_map | ].
  rewrite escapeHtml_flat_map.
  induction s as [|c s IH]; [constructor | ].
  cbn [flat_map]. apply Forall_app. split; [apply entity_no_markup | exact IH].
Qed.

Lemma flat_map_entity_inj a : forall b,
  flat_map entity a = flat_map entity b -> a = b.
Proof.
  induction a as [|c a IH]; intros [|d b] H.
  - reflexivity.
  - cbn [flat_map] in H. pose proof (length_entity d).
    apply (f_equal length) in H. rewrite length_app in H. cbn in H. lia.
  - cbn [flat_map] in H. pose proof (length_entity c).
    apply (f_equal length) in H. rewrite length_app in H. cbn in H. lia.
  - cbn [flat_map] in H.
    destruct (entity_cases c) as [(Hc & Ec)|[(Hc & Ec)|[(Hc & Ec)|[(Hc & Ec)
      |[(Hc & Ec)|(Hc & Ec)]]]]];
    destruct (entity_cases d) as [(Hd & Ed)|[(Hd & Ed)|[(Hd & Ed)|[(Hd & Ed)
      |[(Hd & Ed)|(Hd & Ed)]]]]];
    rewrite Ec, Ed in H; cbn [app] in H;
    try discriminate H;
    try (injection H as H; subst; f_equal; apply IH; assumption);
    try (injection H as H1 H; subst; discriminate Hd);
    try (injection H as H1 H; subst; discriminate Hc).
Qed.

(** X6.  [escapeHtml] loses nothing: two texts with the same escaped
    form are the same text. *)
Theorem escapeHtml_injective a b : escapeHtml a = escapeHtml b -> a = b.
Proof. rewrite !escapeHtml_flat_map. apply flat_map_entity_inj. Qed.

(** X7.  [escapeHtml] returns its input unchanged exactly when the input
    holds none of the five characters it replaces: ampersand, angle
    brackets, double quote and apostrophe. *)
Theorem escapeHtml_plain_text s :
  escapeHtml s = s <-> Forall (fun c => is_markup c = false) s.
Proof.
  rewrite escapeHtml_flat_map. split.
  - induction s as [|c s IH]; intros H; [constructor | ].
    cbn [flat_map] in H.
    pose proof (length_flat_map_entity s) as Hlen.
    destruct (entity_cases c) as [(Hc & Ec)|[(Hc & Ec)|[(Hc & Ec)|[(Hc & Ec)
      |[(Hc & Ec)|(Hc & Ec)]]]]]; rewrite Ec in H; cbn [app] in H;
      try (apply (f_equal length) in H; cbn [length] in H;
           rewrite ?length_app in H; cbn [length] in H; lia).
    injection H as H. constructor; [exact Hc | apply IH, H].
  - induction 1 as [|c s Hc _ IH]; [reflexivity | ].
    cbn [flat_map].
    destruct (entity_cases c) as [(-> & _)|[(-> & _)|[(-> & _)|[(-> & _)
      |[(-> & _)|(_ & ->)]]]]]; try discriminate Hc.
    cbn [app]. rewrite IH. reflexivity.
Qed.

End EscapeFacts.

(** ** Trimming and replacing *)
Section TrimFacts.
Import JS.

Lemma trimStart_suffix s :
  exists w, s = w ++ trimStart s /\ Forall (fun c => is_space c = true) w.
Proof.
  induction s as [|c s (w & Hs & Hw)]; [exists []; split; [reflexivity | constructor] | ].
  cbn [trimStart]. destruct (is_space c) eqn:E.
  - exists (c :: w). split; [cbn; f_equal; exact Hs | constructor; assumption].
  - exists []. split; [reflexivity | constructor].
Qed.

Lemma trimStart_head s c rest : trimStart s = c :: rest -> is_space c = false.
Proof.
  induction s as [|d s IH]; [discriminate | ].
  cbn [trimStart]. destruct (is_space d) eqn:E; [exact IH | ].
  intros [= <- _]. exact E.
Qed.

Lemma trimStart_fixed s :
  (forall c rest, s = c :: rest -> is_space c = false) -> trimStart s = s.
Proof.
  destruct s as [|c s]; [reflexivity | ].
  intros H. cbn [trimStart]. rewrite (H c s eq_refl). reflexivity.
Qed.

Lemma trimEnd_prefix s :
  exists w, s = trimEnd s ++ w /\ Forall (fun c => is_space c = true) w.
Proof.
  unfold trimEnd. destruct (trimStart_suffix (rev s)) as (w & Hs & Hw).
  exists (rev w). split.
  - rewrite <- rev_app_distr, <- Hs, rev_involutive. reflexivity.
  - apply Forall_rev. exact Hw.
Qed.

Lemma trimEnd_last s front c : trimEnd s = front ++ [c] -> is_space c = false.
Proof.
  unfold trimEnd. intros H. apply (f_equal (@rev N)) in H.
  rewrite rev_involutive, rev_app_distr in H. cbn in H.
  exact (trimStart_head _ _ _ H).
Qed.

Lemma trimEnd_fixed s :
  (forall front c, s = front ++ [c] -> is_space c = false) -> trimEnd s = s.
Proof.
  intros H. unfold trimEnd. rewrite trimStart_fixed.
  - apply rev_involutive.
  - intros c rest Hr. apply (H (rev rest) c).
    rewrite <- (rev_involutive s), Hr. reflexivity.
Qed.

Lemma trim_trimmed s : trimmed (trim s).
Proof.
  unfold trim. split.
  - intros c rest H.
    destruct (trimEnd_prefix (trimStart s)) as (w & Hw & _).
    rewrite H in Hw. exact (trimStart_head _ _ _ Hw).
  - intros front c H. exact (trimEnd_last _ _ _ H).
Qed.

Lemma trim_fixed s : trimmed s -> trim s = s.
Proof.
  intros (Hh & Hl). unfold trim. rewrite (trimStart_fixed s Hh).
  apply trimEnd_fixed, Hl.
Qed.

Lemma Forall_trimStart (P : N -> Prop) s : Forall P s -> Forall P (trimStart s).
Proof.
  intros H. destruct (trimStart_suffix s) as (w & Hs & _).
  rewrite Hs in H. apply Forall_app in H. tauto.
Qed.

Lemma Forall_trim (P : N -> Prop) s : Forall P s -> Forall P (trim s).
Proof.
  intros H. unfold trim.
  destruct (trimEnd_prefix (trimStart s)) as (w & Hs & _).
  apply Forall_trimStart in H. rewrite Hs in H. apply Forall_app in H. tauto.
Qed.

Lemma Forall_replace_runs (P : N -> Prop) cls by_ s :
  Forall P by_ -> Forall (fun c => cls c = false -> P c) s ->
  Forall P (replace_runs cls by_ s).
Proof.
  intros Hby. induction 1 as [|c s Hc Hs IH]; [constructor | ].
  cbn [replace_runs]. destruct (cls c) eqn:E.
  - destruct s as [|d s]; [exact Hby | ].
    destruct (cls d) eqn:Ed; [exact IH | ].
    apply Forall_app. split; [exact Hby | exact IH].
  - constructor; [apply Hc; reflexivity | exact IH].
Qed.

Lemma replace_runs_fixed cls by_ s :
  Forall (fun c => cls c = false) s -> replace_runs cls by_ s = s.
Proof.
  induction 1 as [|c s Hc _ IH]; [reflexivity | ].
  cbn [replace_runs]. rewrite Hc, IH. reflexivity.
Qed.

End TrimFacts.

(** ** The message encoder: header values and the attachment *)
Section HeaderFacts.
Import JS Mime.

Lemma sanitizeHeader_single_line value : single_line (sanitizeHeader value).
Proof.
  unfold sanitizeHeader, single_line. apply Forall_trim.
  apply Forall_replace_runs.
  - repeat constructor.
  - apply Forall_forall. intros c _ H. exact H.
Qed.

(** X8.  Whatever its input, the result of [sanitizeHeader] holds no
    carriage return and no line feed, neither starts nor ends with white
    space, and is left unchanged by [sanitizeHeader]. *)
Theorem sanitizeHeader_clean value :
  single_line (sanitizeHeader value)
  /\ trimmed (sanitizeHeader value)
  /\ sanitizeHeader (sanitizeHeader value) = sanitizeHeader value.
Proof.
  split; [apply sanitizeHeader_single_line | ].
  split; [apply trim_trimmed | ].
  unfold sanitizeHeader at 1.
  rewrite replace_runs_fixed by apply sanitizeHeader_single_line.
  apply trim_fixed, trim_trimmed.
Qed.

Lemma base64_char_alphabet n : base64_alphabet (base64_char n) = true.
Proof.
  unfold base64_char, base64_alphabet, is_alnum.
  destruct (N.ltb_spec n 26).
  { replace ((65 <=? 65 + n) && (65 + n <=? 90))%N with true; [reflexivity | ].
    symmetry. apply andb_true_iff. split; apply N.leb_le; lia. }
  destruct (N.ltb_spec n 52).
  { replace ((97 <=? 97 + (n - 26)) && (97 + (n - 26) <=? 122))%N with true;
      [rewrite !orb_true_r; reflexivity | ].
    symmetry. apply andb_true_iff. split; apply N.leb_le; lia. }
  destruct (N.ltb_spec n 62).
  { replace ((48 <=? 48 + (n - 52)) && (48 + (n - 52) <=? 57))%N with true;
      [rewrite !orb_true_r; reflexivity | ].
    symmetry. apply andb_true_iff. split; apply N.leb_le; lia. }
  destruct (n =? 62)%N; reflexivity.
Qed.

(** Induction three bytes at a time. *)
Lemma triples_ind (P : Buffer -> Prop) :
  P [] -> (forall a, P [a]) -> (forall a b, P [a; b]) ->
  (forall a b c rest, P rest -> P (a :: b :: c :: rest)) ->
  forall bs, P bs.
Proof.
  intros H0 H1 H2 H3.
  assert (H : forall n bs, (length bs <= n)%nat -> P bs).
  { induction n as [|n IH]; intros bs Hlen.
    - destruct bs; [exact H0 | simpl in Hlen; lia].
    - destruct bs as [|a [|b [|c rest]]]; auto.
      apply H3, IH. simpl in Hlen. lia. }
  intros bs. apply (H (length bs)). lia.
Qed.

Lemma base64_alphabet_only bs :
  Forall (fun c => base64_alphabet c = true) (base64 bs).
Proof.
  induction bs as [|a|a b|a b c rest IH] using triples_ind;
    cbn [base64]; repeat constructor;
    try apply base64_char_alphabet; assumption.
Qed.

(** X9.  The base64 text of [n] bytes has 4 * ceil(n / 3) characters, all
    of them letters, digits, [+], [/] or [=]. *)
Theorem base64_shape bs :
  length (base64 bs) = (4 * ((length bs + 2) / 3))%nat
  /\ Forall (fun c => base64_alphabet c = true) (base64 bs).
Proof.
  split; [ | apply base64_alphabet_only].
  induction bs as [|a|a b|a b c rest IH] using triples_ind;
    try reflexivity.
  cbn [base64 length]. rewrite IH.
  replace (S (S (S (length rest))) + 2)%nat
    with (1 * 3 + (length rest + 2))%nat by lia.
  rewrite Nat.div_add_l by lia. lia.
Qed.

Lemma isAscii_Forall s :
  isAscii s = true <-> Forall (fun c => (c <= 127)%N) s.
Proof.
  unfold isAscii. rewrite forallb_forall, List.Forall_forall.
  split; intros H c Hc; specialize (H c Hc).
  - apply negb_true_iff, N.ltb_ge in H. exact H.
  - apply negb_true_iff, N.ltb_ge. exact H.
Qed.

Lemma base64_alphabet_plain c :
  base64_alphabet c = true ->
  (c <= 127)%N /\ is_cr_or_lf c = false /\ is_space c = false
  /\ c <> 46%N.
Proof.
  unfold base64_alphabet, is_alnum, is_cr_or_lf, is_space.
  rewrite !orb_true_iff, !andb_true_iff, !N.leb_le, !N.eqb_eq.
  intros H.
  assert (Hc : (43 <= c <= 122)%N /\ c <> 46%N) by lia.
  destruct Hc as (Hc & Hdot).
  repeat split; try lia.
  - apply orb_false_iff. split; apply N.eqb_neq; lia.
  - repeat (apply orb_false_iff; split);
      try (apply N.eqb_neq; lia);
      apply andb_false_iff; rewrite !N.leb_gt; lia.
Qed.

Lemma encodeHeader_ascii_single_line value :
  isAscii (encodeHeader value) = true /\ single_line (encodeHeader value).
Proof.
  unfold encodeHeader. destruct (isAscii value) eqn:E.
  - split; [ | apply sanitizeHeader_single_line].
    apply isAscii_Forall. unfold sanitizeHeader. apply Forall_trim.
    apply Forall_replace_runs.
    + constructor; [cbn; lia | constructor].
    + apply isAscii_Forall in E. eapply Forall_impl; [exact E | auto].
  - pose proof (base64_alphabet_only (utf8 value)) as Hb.
    split.
    + apply isAscii_Forall. rewrite !Forall_app.
      split; [repeat constructor; cbn; lia | ].
      split; [ | repeat constructor; cbn; lia].
      eapply Forall_impl; [exact Hb | ]. intros c Hc.
      apply (base64_alphabet_plain c Hc).
    + unfold single_line. rewrite !Forall_app.
      split; [repeat constructor | ].
      split; [ | repeat constructor].
      eapply Forall_impl; [exact Hb | ]. intros c Hc.
      apply (base64_alphabet_plain c Hc).
Qed.

(** White space after the end of a text is trimmed away. *)
Lemma trimEnd_app_space s w :
  Forall (fun c => is_space c = true) w -> trimEnd (s ++ w) = trimEnd s.
Proof.
  intros Hw. unfold trimEnd. rewrite rev_app_distr. f_equal.
  apply Forall_rev in Hw. induction Hw as [|c r Hc _ IH]; [reflexivity | ].
  cbn [app trimStart]. rewrite Hc. exact IH.
Qed.

Lemma last_not_space (s : jsstring) :
  s <> [] -> Forall (fun c => is_space c = false) s ->
  forall front c, s = front ++ [c] -> is_space c = false.
Proof.
  intros _ H front c ->. apply Forall_app in H. destruct H as (_ & H).
  inversion H. assumption.
Qed.

(** The loop writes the text 76 units at a time, each piece followed by
    a line break. *)
Lemma chunk_loop_lines fuel : forall value,
  (length value <= fuel)%nat ->
  exists lines,
    chunk_loop fuel value = flat_map (fun l => l ++ CRLF) lines
    /\ concat lines = value
    /\ Forall (fun l => (0 < length l <= 76)%nat) lines
    /\ (forall i l, lines !! i = Some l -> (S i < length lines)%nat ->
                    length l = 76%nat).
Proof.
  induction fuel as [|fuel IH]; intros value Hlen.
  - destruct value; [ | simpl in Hlen; lia].
    exists []. repeat split; [constructor | intros i l H; discriminate H].
  - destruct value as [|c value].
    { exists []. repeat split; [constructor | intros i l H; discriminate H]. }
    cbn [chunk_loop].
    destruct (IH (drop 76 (c :: value))) as (lines & Hloop & Hcat & Hall & H76).
    { rewrite length_drop. simpl in *. lia. }
    exists (take 76 (c :: value) :: lines). split; [ | split; [ | split]].
    + cbn [flat_map]. rewrite Hloop, <- app_assoc. reflexivity.
    + cbn [concat]. rewrite Hcat. apply take_drop.
    + constructor; [ | exact Hall]. rewrite length_take. cbn [length]. lia.
    + intros [|i] l Hl Hi.
      * injection Hl as <-.
        change (length (take 76 (c :: value)) = 76%nat).
        rewrite length_take. cbn [length].
        destruct lines as [|l2 lines]; [simpl in Hi; lia | ].
        inversion Hall as [|? ? Hl2 _]; subst.
        assert (Hd : (0 < length (drop 76 (c :: value)))%nat).
        { rewrite <- Hcat. cbn [concat]. rewrite length_app. lia. }
        rewrite length_drop in Hd. cbn [length] in Hd. lia.
      * apply (H76 i l Hl). simpl in Hi. lia.
Qed.

Lemma flat_map_lines_join (lines : list jsstring) :
  lines <> [] ->
  flat_map (fun l => l ++ CRLF) lines = join CRLF lines ++ CRLF.
Proof.
  induction lines as [|l lines IH]; [contradiction | intros _].
  destruct lines as [|l2 lines]; [cbn; rewrite app_nil_r; reflexivity | ].
  change (flat_map (fun l => l ++ CRLF) (l :: l2 :: lines))
    with ((l ++ CRLF) ++ flat_map (fun l => l ++ CRLF) (l2 :: lines)).
  rewrite IH by discriminate.
  change (join CRLF (l :: l2 :: lines))
    with (l ++ CRLF ++ join CRLF (l2 :: lines)).
  rewrite <- !app_assoc. reflexivity.
Qed.

Lemma Forall_join (P : N -> Prop) sep (lines : list jsstring) :
  Forall P sep -> Forall (Forall P) lines -> Forall P (join sep lines).
Proof.
  intros Hsep. induction 1 as [|l lines Hl Hls IH]; [constructor | ].
  destruct lines as [|l2 lines]; [exact Hl | ].
  change (join sep (l :: l2 :: lines)) with (l ++ sep ++ join sep (l2 :: lines)).
  rewrite !Forall_app. auto.
Qed.

Lemma join_last (lines : list jsstring) front c l :
  last lines = Some l -> l <> [] ->
  join CRLF lines = front ++ [c] -> exists front', l = front' ++ [c].
Proof.
  revert front. induction lines as [|l1 lines IH]; intros front Hlast Hne Hj;
    [discriminate | ].
  destruct lines as [|l2 lines].
  - cbn in Hlast, Hj. injection Hlast as <-. eauto.
  - change (join CRLF (l1 :: l2 :: lines))
      with (l1 ++ CRLF ++ join CRLF (l2 :: lines)) in Hj.
    change (last (l1 :: l2 :: lines)) with (last (l2 :: lines)) in Hlast.
    destruct (join CRLF (l2 :: lines)) as [|x xs] eqn:Ej using rev_ind.
    + exfalso. clear IH Hj.
      revert l2 Hlast Ej. induction lines as [|l3 lines IHl]; intros l2 Hlast Ej.
      * cbn in Hlast, Ej. congruence.
      * change (join CRLF (l2 :: l3 :: lines))
          with (l2 ++ CRLF ++ join CRLF (l3 :: lines)) in Ej.
        apply app_eq_nil in Ej. destruct Ej as (_ & Ej). discriminate Ej.
    + clear IHxs. rewrite !app_assoc in Hj.
      apply app_inj_tail in Hj. destruct Hj as (_ & <-).
      apply (IH xs Hlast Hne eq_refl).
Qed.

Lemma chunkBase64_lines value :
  Forall (fun c => is_space c = false) value ->
  exists lines,
    chunkBase64 value = join CRLF lines
    /\ concat lines = value
    /\ Forall (fun l => (0 < length l <= 76)%nat) lines
    /\ (forall i l, lines !! i = Some l -> (S i < length lines)%nat ->
                    length l = 76%nat).
Proof.
  intros Hv. unfold chunkBase64.
  destruct (chunk_loop_lines (length value) value (le_n _))
    as (lines & Hloop & Hcat & Hall & H76).
  exists lines. split; [ | auto].
  rewrite Hloop. destruct lines as [|l0 lines0] eqn:El.
  { reflexivity. }
  rewrite <- El in *. assert (Hne : lines <> []) by (rewrite El; discriminate).
  rewrite flat_map_lines_join by exact Hne.
  rewrite trimEnd_app_space by (repeat constructor).
  apply trimEnd_fixed. intros front c Hj.
  destruct (last lines) as [l|] eqn:Elast.
  - assert (Hin : l ∈ lines) by (apply last_Some_elem_of, Elast).
    assert (Hl : l <> []).
    { rewrite Forall_forall in Hall. specialize (Hall l Hin).
      intros ->. simpl in Hall. lia. }
    destruct (join_last lines front c l Elast Hl Hj) as (front' & ->).
    assert (Hsp : Forall (fun c => is_space c = false) (front' ++ [c])).
    { rewrite <- Hcat in Hv. rewrite Forall_concat in Hv.
      rewrite Forall_forall in Hv. apply Hv, Hin. }
    apply Forall_app in Hsp. destruct Hsp as (_ & Hsp). inversion Hsp. assumption.
  - apply last_None in Elast. contradiction.
Qed.

(** X11.  The attachment, as [chunkBase64] lays out its base64 text, is
    a list of lines joined by CR LF: no line is empty or longer than 76
    characters, every line but the last has exactly 76, and the lines put
    end to end are the base64 text. *)
Theorem attachment_lines buffer :
  exists lines,
    chunkBase64 (base64 buffer) = join CRLF lines
    /\ concat lines = base64 buffer
    /\ Forall (fun l => (0 < length l <= 76)%nat) lines
    /\ (forall i l, lines !! i = Some l -> (S i < length lines)%nat ->
                    length l = 76%nat).
Proof.
  apply chunkBase64_lines.
  eapply Forall_impl; [apply base64_alphabet_only | ].
  intros c Hc. apply (base64_alphabet_plain c Hc).
Qed.

Lemma toAsciiFilename_printable normalize value :
  let name := toAsciiFilename normalize value in
  name <> []
  /\ Forall (fun c => (32 <= c <= 126)%N /\ c <> 34%N /\ c <> 92%N) name
  /\ trimmed name.
Proof.
  unfold toAsciiFilename.
  set (normalized := filter _ _).
  set (cleaned := trim _).
  assert (Hclean : Forall (fun c => (32 <= c <= 126)%N /\ c <> 34%N
                                    /\ c <> 92%N) cleaned
                   /\ trimmed cleaned).
  { split; [ | apply trim_trimmed].
    apply Forall_trim. apply Forall_replace_runs.
    { constructor; [cbn; lia | constructor]. }
    eapply Forall_impl.
    - apply (Forall_replace_runs
               (fun c => (32 <= c <= 126)%N /\ c <> 34%N /\ c <> 92%N)
               is_quote_or_backslash (lit " ") normalized).
      + constructor; [cbn; lia | constructor].
      + apply Forall_forall. intros c Hc Hq.
        apply list_elem_of_filter in Hc. destruct Hc as (Hp & _).
        unfold is_printable_ascii in Hp. apply andb_true_iff in Hp.
        rewrite !N.leb_le in Hp.
        unfold is_quote_or_backslash in Hq. apply orb_false_iff in Hq.
        rewrite !N.eqb_neq in Hq. tauto.
    - auto. }
  destruct cleaned as [|c cleaned'] eqn:E.
  - split; [discriminate | ]. split.
    + repeat constructor; cbn; lia.
    + split.
      * intros c rest [= <- _]. reflexivity.
      * intros front c H.
        assert (Hc : last (lit "Article.epub") = Some c)
          by (rewrite H; apply last_snoc).
        cbn in Hc. injection Hc as <-. reflexivity.
  - split; [discriminate | exact Hclean].
Qed.

Lemma hex_digit_alnum n : (n < 16)%N -> is_alnum (hex_digit n) = true.
Proof.
  intros Hn. unfold hex_digit, is_alnum.
  destruct (N.ltb_spec n 10).
  - replace ((48 <=? 48 + n) && (48 + n <=? 57))%N with true;
      [apply orb_true_r | ].
    symmetry. apply andb_true_iff. split; apply N.leb_le; lia.
  - replace ((65 <=? 55 + n) && (55 + n <=? 90))%N with true; [reflexivity | ].
    symmetry. apply andb_true_iff. split; apply N.leb_le; lia.
Qed.

Lemma percent_attr n :
  (n < 256)%N -> Forall (fun c => attr_char c = true) (percent n).
Proof.
  intros Hn. unfold percent.
  assert (H1 : (n / 16 < 16)%N) by (apply N.Div0.div_lt_upper_bound; lia).
  assert (H2 : (n mod 16 < 16)%N) by (apply N.mod_lt; lia).
  repeat constructor; unfold attr_char.
  - rewrite (hex_digit_alnum _ H1). reflexivity.
  - rewrite (hex_digit_alnum _ H2). reflexivity.
Qed.

Lemma percent_bytes_attr bs :
  Forall (fun c => attr_char c = true) (percent_bytes bs).
Proof.
  unfold percent_bytes. induction bs as [|b bs IH]; [constructor | ].
  cbn [flat_map]. apply Forall_app. split; [ | exact IH].
  apply percent_attr.
  pose proof (Byte.to_N_bounded b). lia.
Qed.

(** What [encodeURIComponent] leaves or makes: unreserved characters and
    escapes. *)
Lemma encodeURIComponent_chars n : forall s out,
  (length s <= n)%nat ->
  encodeURIComponent s = Ok out ->
  Forall (fun c => uri_unreserved c = true \/ attr_char c = true) out.
Proof.
  induction n as [|n IH]; intros s out Hlen H.
  - destruct s; [ | simpl in Hlen; lia]. injection H as <-. constructor.
  - destruct s as [|c rest]; [injection H as <-; constructor | ].
    simpl in Hlen. cbn [encodeURIComponent] in H.
    destruct (is_low_surrogate c); [discriminate | ].
    destruct (is_high_surrogate c).
    + destruct rest as [|d rest']; [discriminate | ].
      destruct (is_low_surrogate d); [ | discriminate].
      apply bind_Ok in H. destruct H as (tail & Ht & H).
      injection H as <-. apply Forall_app. split.
      * eapply Forall_impl; [apply percent_bytes_attr | auto].
      * apply (IH rest'); [simpl in Hlen; lia | exact Ht].
    + destruct (uri_unreserved c) eqn:Eu;
        apply bind_Ok in H; destruct H as (tail & Ht & H);
        injection H as <-.
      * constructor; [auto | apply (IH rest); [lia | exact Ht]].
      * apply Forall_app. split.
        -- eapply Forall_impl; [apply percent_bytes_attr | auto].
        -- apply (IH rest); [lia | exact Ht].
Qed.

Lemma encodeURIComponent_Ok n : forall s,
  (length s <= n)%nat ->
  match encodeURIComponent s with
  | Ok _ => well_formed_utf16 s = true
  | Throw e => e = URIError /\ well_formed_utf16 s = false
  end.
Proof.
  induction n as [|n IH]; intros s Hlen.
  - destruct s; [reflexivity | simpl in Hlen; lia].
  - destruct s as [|c rest]; [reflexivity | ].
    simpl in Hlen. cbn [encodeURIComponent well_formed_utf16].
    destruct (is_high_surrogate c) eqn:Eh.
    + assert (El : is_low_surrogate c = false).
      { unfold is_high_surrogate, is_low_surrogate in *.
        apply andb_true_iff in Eh. rewrite !N.leb_le in Eh.
        apply andb_false_iff. left. apply N.leb_gt. lia. }
      rewrite El.
      destruct rest as [|d rest']; [auto | ].
      destruct (is_low_surrogate d); [ | auto].
      specialize (IH rest' ltac:(simpl in Hlen; lia)).
      destruct (encodeURIComponent rest'); cbn [mbind result_bind andb];
        exact IH.
    + destruct (is_low_surrogate c); [auto | ].
      specialize (IH rest ltac:(lia)).
      destruct (uri_unreserved c);
        destruct (encodeURIComponent rest); cbn [mbind result_bind andb negb];
        exact IH.
Qed.

Lemma encodeRFC5987ValueChars_attr value :
  match encodeRFC5987ValueChars value with
  | Ok encoded =>
      well_formed_utf16 value = true
      /\ Forall (fun c => attr_char c = true) encoded
  | Throw e => e = URIError /\ well_formed_utf16 value = false
  end.
Proof.
  unfold encodeRFC5987ValueChars.
  pose proof (encodeURIComponent_Ok (length value) value (le_n _)) as Hok.
  pose proof (encodeURIComponent_chars (length value) value) as Hch.
  destruct (encodeURIComponent value) as [encoded|e];
    cbn [mbind result_bind mret result_ret]; [ | exact Hok].
  split; [exact Hok | ].
  specialize (Hch encoded (le_n _) eq_refl).
  induction Hch as [|c encoded Hc _ IH]; [constructor | ].
  cbn [flat_map]. apply Forall_app. split; [ | exact IH].
  destruct (is_rfc5987_extra c) eqn:Ex.
  - apply percent_attr. unfold is_rfc5987_extra in Ex.
    rewrite !orb_true_iff, !N.eqb_eq in Ex. lia.
  - constructor; [ | constructor]. destruct Hc as [Hc|Hc]; [ | exact Hc].
    unfold uri_unreserved in Hc. unfold is_rfc5987_extra in Ex.
    unfold attr_char.
    rewrite !orb_false_iff in Ex. destruct Ex as ((((E1 & E2) & E3) & E4) & E5).
    rewrite E1, E2, E3, E4, E5, !orb_false_r in Hc.
    rewrite !orb_true_iff in Hc. rewrite !orb_true_iff. tauto.
Qed.

(** X10.  Whatever the title, the subject [encodeHeader] returns is made
    of ASCII code units only and holds no carriage return and no line
    feed. *)
Theorem encodeHeader_safe value :
  isAscii (encodeHeader value) = true /\ single_line (encodeHeader value).
Proof. apply encodeHeader_ascii_single_line. Qed.

(** X12.  Whatever the file name and whatever normalization does to it,
    the name [toAsciiFilename] returns is not empty, is made of printable
    ASCII characters other than the double quote and the backslash, and
    neither starts nor ends with a space. *)
Theorem toAsciiFilename_safe normalize value :
  let name := toAsciiFilename normalize value in
  name <> []
  /\ Forall (fun c => (32 <= c <= 126)%N /\ c <> 34%N /\ c <> 92%N) name
  /\ trimmed name.
Proof. apply toAsciiFilename_printable. Qed.

(** X13.  [encodeRFC5987ValueChars] throws exactly on a text that is not
    well-formed UTF-16 (a surrogate without its partner), and then a URI
    error; otherwise its result is made of letters, digits, [- _ . ~] and
    percent escapes only. *)
Theorem encodeRFC5987ValueChars_safe value :
  match encodeRFC5987ValueChars value with
  | Ok encoded =>
      well_formed_utf16 value = true
      /\ Forall (fun c => attr_char c = true) encoded
  | Throw e => e = URIError /\ well_formed_utf16 value = false
  end.
Proof. apply encodeRFC5987ValueChars_attr. Qed.

End HeaderFacts.

(** ** The message encoder and dot-stuffing together *)
Section MessageFacts.
Import JS Mime.

Lemma single_line_no_lf s : single_line s -> no_lf s.
Proof.
  unfold single_line, no_lf. intros H Hin.
  rewrite List.Forall_forall in H. specialize (H _ Hin). discriminate H.
Qed.

Lemma no_lf_app a b : no_lf a -> no_lf b -> no_lf (a ++ b).
Proof. unfold no_lf. intros Ha Hb H. apply in_app_or in H. tauto. Qed.

Lemma no_lf_Forall (P : N -> Prop) s :
  (forall c, P c -> c <> 10%N) -> Forall P s -> no_lf s.
Proof.
  intros HP H Hin. rewrite List.Forall_forall in H.
  exact (HP _ (H _ Hin) eq_refl).
Qed.

Lemma stuff_line_inj a b : stuff_line a = stuff_line b -> a = b.
Proof.
  unfold stuff_line.
  destruct (startsWith (lit ".") a) eqn:Ea;
    destruct (startsWith (lit ".") b) eqn:Eb; intros H.
  - injection H as H. exact H.
  - subst b. discriminate Eb.
  - subst a. discriminate Ea.
  - exact H.
Qed.

(** X14.  No line of a dot-stuffed message is a lone full stop, so the
    end-of-data line cannot occur inside the message; and dot-stuffing
    loses no line: two messages with the same stuffed form have the same
    lines. *)
Theorem dotStuff_transparent :
  (forall message,
     Forall (fun line => line <> lit ".") (split_lines (dotStuff message)))
  /\ (forall a b, dotStuff a = dotStuff b -> split_lines a = split_lines b).
Proof.
  split.
  - intros message. rewrite (proj1 (dotStuff_lines message)).
    apply Forall_map, Forall_forall. intros line _.
    unfold stuff_line. destruct (startsWith (lit ".") line) eqn:E.
    + destruct line as [|c line]; [discriminate E | ]. discriminate.
    + intros ->. discriminate E.
  - intros a b H. apply (f_equal split_lines) in H.
    rewrite (proj1 (dotStuff_lines a)), (proj1 (dotStuff_lines b)) in H.
    revert H. generalize (split_lines a) (split_lines b).
    induction l as [|x l IH]; intros [|y l'] H; try discriminate H.
    + reflexivity.
    + injection H as H1 H2. f_equal; [apply stuff_line_inj, H1 | apply IH, H2].
Qed.

Lemma join_nested sep (pre inner post : list jsstring) :
  inner <> [] ->
  join sep (pre ++ [join sep inner] ++ post) = join sep (pre ++ inner ++ post).
Proof.
  intros Hinner.
  assert (Happ : forall a b : list jsstring, a <> [] -> b <> [] ->
                   join sep (a ++ b) = join sep a ++ sep ++ join sep b).
  { induction a as [|x a IH]; intros b Ha Hb; [contradiction | ].
    destruct a as [|y a].
    - destruct b; [contradiction | reflexivity].
    - change (join sep ((x :: y :: a) ++ b))
        with (x ++ sep ++ join sep ((y :: a) ++ b)).
      rewrite IH by (discriminate || assumption).
      change (join sep (x :: y :: a)) with (x ++ sep ++ join sep (y :: a)).
      rewrite <- !app_assoc. reflexivity. }
  assert (Hone : forall (l : jsstring) b, b <> [] ->
                   join sep (l :: b) = l ++ sep ++ join sep b).
  { intros l [|y b] Hb; [contradiction | reflexivity]. }
  destruct post as [|q post].
  - rewrite !app_nil_r. destruct pre as [|p pre]; [reflexivity | ].
    rewrite !Happ by (discriminate || assumption). reflexivity.
  - destruct pre as [|p pre].
    + cbn [app]. rewrite Hone by discriminate.
      rewrite Happ by (discriminate || assumption). reflexivity.
    + rewrite (Happ (p :: pre)) by discriminate.
      rewrite (Happ (p :: pre)) by (first [discriminate | destruct inner; [contradiction | discriminate]]).
      cbn [app]. rewrite (Hone (join sep inner)) by discriminate.
      rewrite (Happ inner) by (discriminate || assumption). reflexivity.
Qed.

Lemma map_stuff_line_fixed lines :
  Forall (fun l => startsWith (lit ".") l = false) lines ->
  map stuff_line lines = lines.
Proof.
  induction 1 as [|l lines Hl _ IH]; [reflexivity | ].
  cbn [map]. unfold stuff_line at 1. rewrite Hl, IH. reflexivity.
Qed.

(** A text made of lines without full stop in front, joined by CR LF,
    goes through [dotStuff] unchanged. *)
Lemma dotStuff_fixed lines :
  lines <> [] -> Forall no_lf lines ->
  Forall (fun l => startsWith (lit ".") l = false) lines ->
  dotStuff (join CRLF lines) = join CRLF lines.
Proof.
  intros Hne Hlf Hdot. unfold dotStuff.
  rewrite split_lines_join by exact Hne.
  rewrite flat_map_split_single by exact Hlf.
  rewrite map_stuff_line_fixed by exact Hdot. reflexivity.
Qed.

Lemma attr_char_plain c :
  attr_char c = true -> c <> 10%N /\ c <> 13%N.
Proof.
  unfold attr_char, is_alnum.
  rewrite !orb_true_iff, !andb_true_iff, !N.leb_le, !N.eqb_eq. lia.
Qed.

(** The lines of the attachment: those of [chunkBase64], or one empty
    line when there is nothing to attach. *)
Lemma attachment_payload buffer :
  exists lines,
    lines <> []
    /\ chunkBase64 (base64 buffer) = join CRLF lines
    /\ Forall no_lf lines
    /\ Forall (fun l => startsWith (lit ".") l = false) lines.
Proof.
  assert (Hplain : Forall (fun c => is_space c = false) (base64 buffer)).
  { eapply Forall_impl; [apply base64_alphabet_only | ].
    intros c Hc. apply (base64_alphabet_plain c Hc). }
  destruct (chunkBase64_lines _ Hplain) as (lines & Hj & Hcat & Hlen & _).
  destruct lines as [|l0 lines0] eqn:El.
  { exists [[]]. split; [discriminate | ]. split; [exact Hj | ].
    split; repeat constructor. intros []. }
  rewrite <- El in *. exists lines.
  split; [rewrite El; discriminate | ]. split; [exact Hj | ].
  assert (Hal : Forall (Forall (fun c => base64_alphabet c = true)) lines).
  { pose proof (base64_alphabet_only buffer) as Hb.
    rewrite <- Hcat in Hb. rewrite Forall_concat in Hb. exact Hb. }
  split.
  - eapply Forall_impl; [exact Hal | ]. intros l Hl.
    apply (no_lf_Forall _ l (fun c Hc => ltac:(
      destruct (base64_alphabet_plain c Hc) as (_ & Hcr & _);
      intros ->; discriminate Hcr)) Hl).
  - eapply Forall_impl; [exact Hal | ]. intros l Hl.
    destruct Hl as [|c l Hc _]; [reflexivity | ].
    destruct (base64_alphabet_plain c Hc) as (_ & _ & _ & Hdot).
    change (lit ".") with [46%N]. cbn [startsWith].
    apply andb_false_iff. left. apply N.eqb_neq. congruence.
Qed.

Lemma no_lf_lit_check (l : jsstring) :
  forallb (fun c => negb (c =? 10)%N) l = true -> no_lf l.
Proof.
  intros H Hin. rewrite forallb_forall in H. specialize (H _ Hin).
  discriminate H.
Qed.

Ltac no_lf_line :=
  repeat first
    [ assumption
    | apply no_lf_lit_check; reflexivity
    | apply no_lf_app ].

Lemma Ok_inj {A} (a b : A) : Ok a = Ok b -> a = b.
Proof. intros [= H]. exact H. Qed.

(** X15.  When the time and the identifier drawn by the encoder hold no
    line feed, the message [buildMimeMessage] returns has CR LF as its
    only line break and goes through [dotStuff] unchanged: what [sendMail]
    writes after DATA is the encoder's message as it is. *)
Theorem encoder_output_needs_no_stuffing normalize env input message :
  no_lf (utcNow env) -> no_lf (randomUUID env) ->
  buildMimeMessage normalize env input = Ok message ->
  dotStuff message = message /\ crlf_only false message = true.
Proof.
  intros Hnow Huuid H. unfold buildMimeMessage in H.
  apply bind_Ok in H. destruct H as (lines & Hlines & H).
  apply Ok_inj in H. subst message.
  unfold mimeLines, encodeFilenameHeader in Hlines.
  apply bind_Ok in Hlines. destruct Hlines as ((asciiName & rfcName) & Hn & Hlines).
  apply bind_Ok in Hn. destruct Hn as (rfc & Hrfc & Hn).
  apply Ok_inj in Hn. apply pair_equal_spec in Hn. destruct Hn as (<- & <-).
  cbn [fst snd] in Hlines.
  destruct (attachment_payload (epubBuffer input))
    as (payload & Hpne & Hpj & Hplf & Hpdot).
  rewrite Hpj in Hlines. apply Ok_inj in Hlines. subst lines.
  set (ascii := toAsciiFilename normalize _) in *.
  assert (Hascii : no_lf ascii).
  { destruct (toAsciiFilename_printable normalize
                (sanitizeHeader (or_else (filename input) (lit "Article.epub"))))
      as (_ & Hp & _).
    eapply no_lf_Forall; [ | exact Hp]. intros c Hc. cbv beta in Hc. lia. }
  assert (Hrfc' : no_lf rfc).
  { pose proof (encodeRFC5987ValueChars_attr
                  (sanitizeHeader (or_else (filename input) (lit "Article.epub"))))
      as Ha.
    rewrite Hrfc in Ha. destruct Ha as (_ & Ha).
    apply (no_lf_Forall _ _ (fun c Hc => proj1 (attr_char_plain c Hc)) Ha). }
  assert (Hfrom : no_lf (sanitizeHeader (senderEmail input)))
    by apply single_line_no_lf, sanitizeHeader_single_line.
  assert (Hto : no_lf (sanitizeHeader (kindleEmail input)))
    by apply single_line_no_lf, sanitizeHeader_single_line.
  assert (Hsubject : no_lf (encodeHeader (or_else (title input) (lit "Reading"))))
    by apply single_line_no_lf, encodeHeader_ascii_single_line.
  match goal with
  | |- context [join CRLF [?l0; ?l1; ?l2; ?l3; ?l4; ?l5; ?l6; ?l7; ?l8; ?l9;
                           ?l10; ?l11; ?l12; ?l13; ?l14; ?l15; ?l16; ?l17;
                           join CRLF payload; ?l19; ?l20; ?l21]] =>
      pose (pre := [l0; l1; l2; l3; l4; l5; l6; l7; l8; l9; l10; l11; l12;
                    l13; l14; l15; l16; l17] : list jsstring);
      pose (post := [l19; l20; l21] : list jsstring);
      change (join CRLF [l0; l1; l2; l3; l4; l5; l6; l7; l8; l9; l10; l11;
                         l12; l13; l14; l15; l16; l17; join CRLF payload;
                         l19; l20; l21])
        with (join CRLF (pre ++ [join CRLF payload] ++ post))
  end.
  rewrite (join_nested CRLF pre payload post Hpne).
  assert (Hlf : Forall no_lf (pre ++ payload ++ post));
    [ | assert (Hdot : Forall (fun l => startsWith (lit ".") l = false)
                         (pre ++ payload ++ post)) ].
  - rewrite !Forall_app. split; [ | split; [exact Hplf | ]];
      repeat constructor; no_lf_line.
  - rewrite !Forall_app. split; [ | split; [exact Hpdot | ]];
      repeat constructor.
  - split.
    + apply dotStuff_fixed; [ | exact Hlf | exact Hdot].
      intros Hnil. apply (f_equal length) in Hnil. cbn in Hnil. lia.
    + apply crlf_only_join, Hlf.
Qed.

Lemma single_line_app a b : single_line a -> single_line b -> single_line (a ++ b).
Proof. unfold single_line. intros Ha Hb. apply Forall_app. auto. Qed.

Lemma single_line_check (l : jsstring) :
  forallb (fun c => negb (is_cr_or_lf c)) l = true -> single_line l.
Proof.
  intros H. apply List.Forall_forall. intros c Hin.
  rewrite forallb_forall in H. apply negb_true_iff, (H _ Hin).
Qed.

Ltac single_line :=
  repeat first
    [ assumption
    | apply single_line_check; reflexivity
    | apply single_line_app ].

(** X16.  In the lines [buildMimeMessage] joins, the From, To and
    Subject headers and the two headers that carry the file name hold no
    carriage return and no line feed, whatever the addresses, the title
    and the file name are: no input adds a header line. *)
Theorem header_lines_are_single_lines normalize env input lines :
  mimeLines normalize env input = Ok lines ->
  forall i line,
    In i [1; 2; 3; 14; 16]%nat -> lines !! i = Some line -> single_line line.
Proof.
  intros Hlines i line Hi Hline.
  unfold mimeLines, encodeFilenameHeader in Hlines.
  apply bind_Ok in Hlines.
  destruct Hlines as ((asciiName & rfcName) & Hn & Hlines).
  apply bind_Ok in Hn. destruct Hn as (rfc & Hrfc & Hn).
  apply Ok_inj in Hn. apply pair_equal_spec in Hn. destruct Hn as (<- & <-).
  cbn [fst snd] in Hlines. apply Ok_inj in Hlines. subst lines.
  set (ascii := toAsciiFilename normalize _) in *.
  assert (Hascii : single_line ascii).
  { destruct (toAsciiFilename_printable normalize
                (sanitizeHeader (or_else (filename input) (lit "Article.epub"))))
      as (_ & Hp & _).
    eapply Forall_impl; [exact Hp | ]. intros c Hc. cbv beta in Hc.
    unfold is_cr_or_lf. apply orb_false_iff. split; apply N.eqb_neq; lia. }
  assert (Hrfc' : single_line rfc).
  { pose proof (encodeRFC5987ValueChars_attr
                  (sanitizeHeader (or_else (filename input) (lit "Article.epub"))))
      as Ha.
    rewrite Hrfc in Ha. destruct Ha as (_ & Ha).
    eapply Forall_impl; [exact Ha | ]. intros c Hc.
    destruct (attr_char_plain c Hc).
    unfold is_cr_or_lf. apply orb_false_iff. split; apply N.eqb_neq; lia. }
  pose proof (sanitizeHeader_single_line (senderEmail input)) as Hfrom.
  pose proof (sanitizeHeader_single_line (kindleEmail input)) as Hto.
  pose proof (proj2 (encodeHeader_ascii_single_line
                       (or_else (title input) (lit "Reading")))) as Hsubject.
  cbn [In] in Hi.
  destruct Hi as [<-|[<-|[<-|[<-|[<-|[]]]]]];
    apply (inj Some) in Hline; subst line; single_line.
Qed.

End MessageFacts.

(** ** The message encoder: when it fails *)
Section SurrogateFacts.
Import JS Mime.

Lemma well_formed_ordinary c s :
  ordinary c -> well_formed_utf16 (c :: s) = well_formed_utf16 s.
Proof. intros (Hh & Hl). cbn [well_formed_utf16]. rewrite Hh, Hl. reflexivity. Qed.

Lemma space_ordinary c : is_space c = true -> ordinary c.
Proof.
  unfold is_space, ordinary, is_high_surrogate, is_low_surrogate.
  rewrite !orb_true_iff, !andb_true_iff, !N.leb_le, !N.eqb_eq. intros H.
  split; apply andb_false_iff; rewrite !N.leb_gt; lia.
Qed.

Lemma cr_or_lf_ordinary c : is_cr_or_lf c = true -> ordinary c.
Proof.
  unfold is_cr_or_lf, ordinary, is_high_surrogate, is_low_surrogate.
  rewrite !orb_true_iff, !N.eqb_eq. intros H.
  split; apply andb_false_iff; rewrite !N.leb_gt; lia.
Qed.

Lemma replace_runs_cons cls by_ c rest :
  replace_runs cls by_ (c :: rest)
  = if cls c then
      match rest with
      | d :: _ => if cls d then replace_runs cls by_ rest
                  else by_ ++ replace_runs cls by_ rest
      | [] => by_
      end
    else c :: replace_runs cls by_ rest.
Proof. reflexivity. Qed.

Lemma replace_runs_head cls (b : N) c s :
  cls c = true -> exists r, replace_runs cls [b] (c :: s) = b :: r.
Proof.
  revert c. induction s as [|d s IH]; intros c Hc;
    rewrite replace_runs_cons, Hc.
  - eauto.
  - destruct (cls d) eqn:Ed; [ | cbn [app]; eauto].
    apply (IH d Ed).
Qed.

Lemma well_formed_replace_runs cls b n : forall s,
  (length s <= n)%nat ->
  (forall c, cls c = true -> ordinary c) -> ordinary b ->
  well_formed_utf16 (replace_runs cls [b] s) = well_formed_utf16 s.
Proof.
  induction n as [|n IH]; intros s Hlen Hcls Hb.
  - destruct s; [reflexivity | simpl in Hlen; lia].
  - destruct s as [|c rest]; [reflexivity | ]. simpl in Hlen.
    destruct (cls c) eqn:Ec.
    + rewrite (well_formed_ordinary c rest (Hcls c Ec)).
      rewrite replace_runs_cons, Ec.
      destruct rest as [|d rest']; [rewrite well_formed_ordinary by exact Hb; reflexivity | ].
      destruct (cls d) eqn:Ed.
      * apply IH; [lia | assumption..].
      * cbn [app]. rewrite well_formed_ordinary by exact Hb.
        apply IH; [lia | assumption..].
    + rewrite replace_runs_cons, Ec. cbn [well_formed_utf16].
      destruct (is_high_surrogate c).
      * destruct rest as [|d rest']; [reflexivity | ].
        destruct (cls d) eqn:Ed.
        -- destruct (replace_runs_head cls b d rest' Ed) as (r & ->).
           destruct Hb as (_ & ->). destruct (Hcls d Ed) as (_ & ->).
           reflexivity.
        -- rewrite replace_runs_cons, Ed.
           rewrite IH by (simpl in Hlen; lia || assumption). reflexivity.
      * rewrite IH by (lia || assumption). reflexivity.
Qed.

Lemma well_formed_trimStart s :
  well_formed_utf16 (trimStart s) = well_formed_utf16 s.
Proof.
  induction s as [|c s IH]; [reflexivity | ].
  cbn [trimStart]. destruct (is_space c) eqn:E; [ | reflexivity].
  rewrite IH. symmetry. apply well_formed_ordinary, space_ordinary, E.
Qed.

Lemma well_formed_snoc n : forall s o,
  (length s <= n)%nat -> ordinary o ->
  well_formed_utf16 (s ++ [o]) = well_formed_utf16 s.
Proof.
  induction n as [|n IH]; intros s o Hlen Ho.
  - destruct s; [ | simpl in Hlen; lia]. apply well_formed_ordinary, Ho.
  - destruct s as [|c rest]; [apply well_formed_ordinary, Ho | ].
    simpl in Hlen. cbn [app well_formed_utf16].
    destruct (is_high_surrogate c).
    + destruct rest as [|d rest'].
      * cbn [app]. destruct Ho as (_ & ->). reflexivity.
      * cbn [app]. rewrite IH by (simpl in Hlen; lia || assumption). reflexivity.
    + rewrite IH by (lia || assumption). reflexivity.
Qed.

Lemma well_formed_trimEnd s :
  well_formed_utf16 (trimEnd s) = well_formed_utf16 s.
Proof.
  destruct (trimEnd_prefix s) as (w & Hs & Hw).
  rewrite Hs at 2. clear Hs. generalize (trimEnd s). intros t.
  induction w as [|o w IH] using rev_ind; [rewrite app_nil_r; reflexivity | ].
  apply Forall_app in Hw. destruct Hw as (Hw & Ho).
  inversion Ho as [|? ? Ho' _]; subst.
  rewrite app_assoc, (well_formed_snoc (length (t ++ w))) by (lia || apply space_ordinary, Ho').
  apply IH, Hw.
Qed.

Lemma well_formed_sanitizeHeader value :
  well_formed_utf16 (sanitizeHeader value) = well_formed_utf16 value.
Proof.
  unfold sanitizeHeader, trim.
  rewrite well_formed_trimEnd, well_formed_trimStart.
  apply (well_formed_replace_runs is_cr_or_lf 32 (length value)).
  - lia.
  - apply cr_or_lf_ordinary.
  - apply space_ordinary. reflexivity.
Qed.

(** X17.  [buildMimeMessage] fails exactly when the file name (or
    "Article.epub" in place of an empty one) is not well-formed UTF-16,
    and then with a URI error; on every other input it returns a
    message. *)
Theorem buildMimeMessage_fails_on_lone_surrogate_only normalize env input :
  let name := or_else (filename input) (lit "Article.epub") in
  match buildMimeMessage normalize env input with
  | Ok _ => well_formed_utf16 name = true
  | Throw e => e = URIError /\ well_formed_utf16 name = false
  end.
Proof.
  intros name. unfold buildMimeMessage, mimeLines, encodeFilenameHeader.
  fold name.
  pose proof (encodeRFC5987ValueChars_attr (sanitizeHeader name)) as H.
  rewrite well_formed_sanitizeHeader in H.
  destruct (encodeRFC5987ValueChars (sanitizeHeader name)) as [rfc|e];
    cbn [mbind result_bind mret result_ret]; tauto.
Qed.

End SurrogateFacts.

(** ** The SMTP client: replies nobody waits for *)
Section QueueFacts.
Import JS Smtp Email.

(** The final line of a reply nobody waits for puts the reply in the
    queue. *)
Lemma processLine_final_queued c first lines rest code text :
  (code < 1000)%N -> plain_text text ->
  pending c = None ->
  processLine (receiving c first lines rest) (reply_line code 32 text)
  = (set_queued
       (queuedResponses c
        ++ [{| code := code; lines := lines ++ [reply_line code 32 text] |}])
       (receiving c None [] rest), None).
Proof.
  intros Hc Ht Hp. unfold processLine.
  rewrite match_reply_line by auto.
  cbn [N.eqb Pos.eqb pending set_current receiving currentResponseLines].
  rewrite Hp. reflexivity.
Qed.

Lemma handleData_reply_queued c r :
  well_formed r ->
  buffer c = [] -> currentResponseLines c = [] ->
  pending c = None ->
  handleData c (wire r)
  = (set_queued (queuedResponses c ++ [response_of r])
       (receiving c None [] []), None).
Proof.
  intros (Hc & Ht & Hconts) Hb Hl Hp.
  unfold handleData. rewrite Hb. cbn [app].
  replace (set_buffer (wire r) c)
    with (receiving c (currentResponseCode c) [] (wire r))
    by (unfold set_buffer, receiving; rewrite Hl; reflexivity).
  rewrite receiving_buffer.
  unfold wire, reply_lines, continuation_lines.
  rewrite flat_map_app. cbn [flat_map]. rewrite app_nil_r.
  destruct (handleData_loop_continuations (continuation r) c
              (currentResponseCode c) []
              (reply_line (reply_code r) 32 (reply_text r) ++ lit "\r\n")
              None Hconts) as (first' & Hconts').
  etransitivity; [exact Hconts' | clear Hconts'].
  cbn [app].
  pose proof (handleData_loop_line
                (receiving c first'
                   (map (fun l => reply_line l.1 45 l.2) (continuation r))
                   (reply_line (reply_code r) 32 (reply_text r)
                    ++ lit "\r\n" ++ []))
                None (reply_line (reply_code r) 32 (reply_text r)) []
                (reply_line_no_lf _ _ _ Hc (or_introl eq_refl) Ht)
                eq_refl) as Hstep.
  rewrite receiving_buffer, app_nil_r in Hstep. rewrite Hstep. clear Hstep.
  rewrite set_buffer_receiving.
  rewrite processLine_final_queued by assumption.
  cbv beta iota zeta.
  cbn [first_settlement buffer set_queued receiving length handleData_loop
       indexOf].
  unfold response_of, reply_lines, continuation_lines.
  reflexivity.
Qed.

(** X19.  Replies that arrive while no caller waits settle nothing and
    are queued in order of arrival; the next [readResponse] returns at
    once, without waiting, with the oldest one (or fails at once with its
    code if that is not among the expected ones), and leaves the others in
    the queue. *)
Theorem unsolicited_replies_are_queued c r1 r2 expected :
  well_formed r1 -> well_formed r2 ->
  buffer c = [] -> currentResponseLines c = [] -> pending c = None ->
  queuedResponses c = [] ->
  let c1 := (handleData c (wire r1 ++ wire r2)).1 in
  (handleData c (wire r1 ++ wire r2)).2 = None
  /\ queuedResponses c1 = [response_of r1; response_of r2]
  /\ exists c2,
       readResponse expected c1
       = Done (match settle expected r1 with
               | Resolve response => Ok response
               | Reject error => Throw error
               end) c2
       /\ queuedResponses c2 = [response_of r2]
       /\ pending c2 = None.
Proof.
  intros Hwf1 Hwf2 Hb Hl Hp Hq.
  rewrite handleData_app.
  rewrite (handleData_reply_queued c r1 Hwf1 Hb Hl Hp).
  cbv beta iota. set (cq := set_queued _ _).
  rewrite (handleData_reply_queued cq r2 Hwf2 eq_refl eq_refl Hp).
  unfold cq.
  cbn [fst snd first_settlement queuedResponses set_queued receiving].
  rewrite Hq. cbn [app].
  split; [reflexivity | ]. split; [reflexivity | ].
  unfold readResponse. cbn [pending set_queued receiving queuedResponses].
  rewrite Hp. unfold settle. cbn [code response_of].
  destruct (is_unexpected expected (reply_code r1));
    eexists; (split; [reflexivity | ]); cbn; auto.
Qed.

(** X18.  Two chunks handled one after the other leave the client as
    their concatenation handled at once does, and settle the pending
    promise the same way (the first settlement is the one that counts):
    where the transport cuts the stream does not matter to the parser. *)
Theorem handleData_chunking c a b :
  handleData c (a ++ b)
  = let '(c1, s1) := handleData c a in
    let '(c2, s2) := handleData c1 b in
    (c2, first_settlement s1 s2).
Proof. apply handleData_app. Qed.

End QueueFacts.

(** ** The SMTP client: AUTH LOGIN and STARTTLS *)
Section MethodFacts.
Import JS Smtp Email.

Lemma unexpected_code (expected : list N) code :
  ~ In code expected -> is_unexpected (Some expected) code = true.
Proof.
  intros H. cbn [is_unexpected]. apply negb_true_iff.
  apply not_true_is_false. intros Hex. apply existsb_exists in Hex.
  destruct Hex as (x & Hx & Heq). apply N.eqb_eq in Heq. subst x. auto.
Qed.

Lemma run_failed {A} (e : exn) more c :
  exists c', run (Done (A := A) (Throw e) c) more = Done (Throw e) c'
             /\ socket_ c' = socket_ c /\ log c' = log c.
Proof. apply run_Done. Qed.

(** X20.  [authLogin] sends a credential only after the step before it
    was accepted: if AUTH LOGIN is answered with a code other than 334,
    neither the user name nor the password is written; if the user name is
    answered with a code other than 334, the password is not written.  In
    both cases [authLogin] fails with the error that names the code. *)
Theorem authLogin_withholds_credentials c s username password :
  idle c s ->
  (forall first chunks more,
     well_formed first -> chunked (wire first) chunks ->
     reply_code first <> 334%N ->
     exists c',
       run (authLogin username password c) (map Data chunks ++ more)
       = Done (Throw (unexpected_response (reply_code first))) c'
       /\ log c' = log c ++ [command s (lit "AUTH LOGIN")])
  /\ (forall first chunks1 second chunks2 more,
        well_formed first -> chunked (wire first) chunks1 ->
        reply_code first = 334%N ->
        well_formed second -> chunked (wire second) chunks2 ->
        reply_code second <> 334%N ->
        exists c',
          run (authLogin username password c)
            (map Data chunks1 ++ map Data chunks2 ++ more)
          = Done (Throw (unexpected_response (reply_code second))) c'
          /\ log c' = log c ++ [command s (lit "AUTH LOGIN");
                                command s (Mime.base64 (utf8 username))]).
Proof.
  intros Hidle. split.
  - intros first chunks more Hwf Hch Hcode. unfold authLogin.
    rewrite (exchange c s _ _ first) by assumption.
    rewrite settle_unexpected
      by (apply unexpected_code; intros [H|[]]; congruence).
    destruct (run_failed (A := unit) (unexpected_response (reply_code first))
                more (idle_after [Write s (lit "AUTH LOGIN" ++ lit "\r\n")] c))
      as (c' & -> & _ & Hl).
    exists c'. split; [reflexivity | ]. rewrite Hl. reflexivity.
  - intros first chunks1 second chunks2 more Hwf1 Hch1 Hcode1 Hwf2 Hch2 Hcode2.
    unfold authLogin.
    rewrite (exchange c s _ _ first) by assumption.
    rewrite settle_expected by (rewrite Hcode1; reflexivity).
    pose proof (idle_idle_after c s
                  [Write s (lit "AUTH LOGIN" ++ lit "\r\n")] (proj1 Hidle))
      as Hidle1.
    rewrite (exchange _ s _ _ second) by assumption.
    rewrite settle_unexpected
      by (apply unexpected_code; intros [H|[]]; congruence).
    match goal with
    | |- context [run (Done (Throw ?e) ?c0) more] =>
        destruct (run_failed (A := unit) e more c0) as (c' & -> & _ & Hl)
    end.
    exists c'. split; [reflexivity | ]. rewrite Hl.
    cbn [log idle_after]. rewrite <- app_assoc. reflexivity.
Qed.

(** X21.  [startTls] wraps the socket in TLS exactly when STARTTLS is
    answered with 220: then it returns and the client holds the wrapped
    socket, with the host of its options as server name; on any other code
    it fails with the error that names the code, and the client keeps the
    socket it had, unwrapped. *)
Theorem startTls_wraps_after_220 c s reply chunks more :
  idle c s -> well_formed reply -> chunked (wire reply) chunks ->
  exists c',
    run (startTls c) (map Data chunks ++ more)
    = Done (if (reply_code reply =? 220)%N then Ok tt
            else Throw (unexpected_response (reply_code reply))) c'
    /\ if (reply_code reply =? 220)%N
       then socket_ c' = Some (TlsOver s (host (options c)))
            /\ log c' = log c ++ [command s (lit "STARTTLS");
                                  Connect (TlsOver s (host (options c)))]
       else socket_ c' = Some s
            /\ log c' = log c ++ [command s (lit "STARTTLS")].
Proof.
  intros Hidle Hwf Hch. unfold startTls.
  rewrite (exchange c s _ _ reply) by assumption.
  destruct (N.eqb_spec (reply_code reply) 220) as [Hcode|Hcode].
  - rewrite settle_expected by (rewrite Hcode; reflexivity).
    unfold upgrade. cbn [socket_ idle_after]. rewrite (proj1 Hidle).
    match goal with
    | |- context [run (Done (Ok tt) ?c0) more] =>
        destruct (run_Done (Ok tt) more c0) as (c' & -> & Hs & Hl)
    end.
    exists c'. split; [reflexivity | ]. rewrite Hs, Hl.
    cbn [socket_ log record set_socket idle_after options].
    rewrite <- app_assoc. split; reflexivity.
  - rewrite settle_unexpected
      by (apply unexpected_code; intros [H|[]]; congruence).
    match goal with
    | |- context [run (Done (Throw ?e) ?c0) more] =>
        destruct (run_failed (A := unit) e more c0) as (c' & -> & Hs & Hl)
    end.
    exists c'. split; [reflexivity | ]. rewrite Hs, Hl.
    cbn [socket_ log idle_after]. split; [exact (proj1 Hidle) | reflexivity].
Qed.

End MethodFacts.

(** ** [normalizePreferences] *)
Section PreferencesFacts.
Import JS Smtp Email.

Lemma present_trim v :
  present (trim <$> v) = true ->
  exists s, v = Some s /\ default [] (trim <$> v) = trim s
            /\ trim s <> [] /\ trimmed (trim s).
Proof.
  destruct v as [s|]; [ | discriminate]. cbn [fmap option_fmap option_map present default].
  intros H. exists s. split; [reflexivity | ]. split; [reflexivity | ].
  split; [ | apply trim_trimmed].
  destruct (trim s); [discriminate H | discriminate].
Qed.

(** The list of missing settings is the list of the five names, in the
    order of the checks, without those it does not hold. *)
Lemma missing_settings_ordered k s h port u p :
  let missing := missing_settings k s h port u p in
  missing
  = filter (fun name => name ∈ missing)
      [lit "Kindle Address"; lit "Sender Address"; lit "SMTP Server";
       lit "SMTP Port"; lit "Complete SMTP credentials"].
Proof.
  unfold missing_settings.
  destruct (present k), (present s), (present h),
    (negb (isFinite port) || le_zero port),
    (truthy u && negb (truthy p) || negb (truthy u) && truthy p);
    vm_compute; reflexivity.
Qed.

(** X22.  When [normalizePreferences] returns settings, the three
    addresses are the given ones trimmed and are not empty, the port is a
    finite number greater than zero, the security is the given one or
    "ssl", the user name is trimmed and the password is kept as given, and
    either both or neither of them is empty.  Otherwise it throws "Incomplete
    email settings: ..." and the message names exactly the settings that
    fail these checks: the names listed are those the code pushes, each
    once and in the order of the checks (Kindle Address, Sender Address,
    SMTP Server, SMTP Port, Complete SMTP credentials), and a name is
    listed if and only if its check fails. *)
Theorem normalizePreferences_checks Number preferences :
  let port := Number (default [] (Preferences.smtpPort preferences)) in
  let username := default [] (trim <$> Preferences.smtpUsername preferences) in
  let password := default [] (Preferences.smtpPassword preferences) in
  match normalizePreferences Number preferences with
  | Ok settings =>
      (exists s, Preferences.kindleEmail preferences = Some s
                 /\ kindleEmail settings = trim s /\ trim s <> [])
      /\ (exists s, Preferences.senderEmail preferences = Some s
                    /\ senderEmail settings = trim s /\ trim s <> [])
      /\ (exists s, Preferences.smtpHost preferences = Some s
                    /\ smtpHost settings = trim s /\ trim s <> [])
      /\ smtpPort settings = port
      /\ isFinite port = true /\ le_zero port = false
      /\ smtpSecurity settings
         = default ssl (Preferences.smtpSecurity preferences)
      /\ smtpUsername settings = username
      /\ smtpPassword settings = password
      /\ (username = [] <-> password = [])
  | Throw e =>
      exists missing,
        missing
        = missing_settings (trim <$> Preferences.kindleEmail preferences)
            (trim <$> Preferences.senderEmail preferences)
            (trim <$> Preferences.smtpHost preferences) port username password
        /\ missing
           = filter (fun name => name ∈ missing)
               [lit "Kindle Address"; lit "Sender Address";
                lit "SMTP Server"; lit "SMTP Port";
                lit "Complete SMTP credentials"]
        /\ missing <> []
        /\ e = Error (lit "Incomplete email settings: "
                      ++ join (lit ", ") missing ++ lit ".")
        /\ (In (lit "Kindle Address") missing
            <-> present (trim <$> Preferences.kindleEmail preferences) = false)
        /\ (In (lit "Sender Address") missing
            <-> present (trim <$> Preferences.senderEmail preferences) = false)
        /\ (In (lit "SMTP Server") missing
            <-> present (trim <$> Preferences.smtpHost preferences) = false)
        /\ (In (lit "SMTP Port") missing
            <-> isFinite port = false \/ le_zero port = true)
        /\ (In (lit "Complete SMTP credentials") missing
            <-> ~ (username = [] <-> password = []))
  end.
Proof.
  intros port username password. unfold normalizePreferences.
  fold port username password.
  set (missing := missing_settings _ _ _ _ _ _).
  assert (Hcred : forall u p : jsstring,
            truthy u && negb (truthy p) || negb (truthy u) && truthy p = false
            <-> (u = [] <-> p = [])).
  { intros [|a u] [|b p]; cbn; split; intros H;
      try reflexivity; try discriminate H;
      try (split; intros E; first [reflexivity | discriminate E]);
      destruct H as [H1 H2];
      first [discriminate (H1 eq_refl) | discriminate (H2 eq_refl)]. }
  destruct missing as [|m0 missing'] eqn:Em.
  - unfold missing, missing_settings in Em.
    destruct (present (trim <$> Preferences.kindleEmail preferences)) eqn:Ek;
      [ | discriminate Em].
    destruct (present (trim <$> Preferences.senderEmail preferences)) eqn:Es;
      [ | discriminate Em].
    destruct (present (trim <$> Preferences.smtpHost preferences)) eqn:Eh;
      [ | discriminate Em].
    destruct (negb (isFinite port) || le_zero port) eqn:Ep;
      [discriminate Em | ].
    destruct (truthy username && negb (truthy password)
              || negb (truthy username) && truthy password) eqn:Ec;
      [discriminate Em | ].
    apply orb_false_iff in Ep. destruct Ep as (Ef & Ez).
    apply negb_false_iff in Ef.
    cbn [kindleEmail senderEmail smtpHost smtpPort smtpSecurity smtpUsername
         smtpPassword].
    destruct (present_trim _ Ek) as (k & Hk & Hk' & Hkn & _).
    destruct (present_trim _ Es) as (s & Hs & Hs' & Hsn & _).
    destruct (present_trim _ Eh) as (h & Hh & Hh' & Hhn & _).
    split; [exists k; auto | ]. split; [exists s; auto | ].
    split; [exists h; auto | ].
    split; [reflexivity | ]. split; [exact Ef | ]. split; [exact Ez | ].
    split; [reflexivity | ]. split; [reflexivity | ].
    split; [reflexivity | ]. apply Hcred, Ec.
  - rewrite <- Em. exists missing. split; [reflexivity | ].
    split; [apply missing_settings_ordered | ].
    split; [rewrite Em; discriminate | ].
    split; [reflexivity | ].
    assert (Hno : forall (b : bool) (X Y : jsstring),
              In X (if b then [] else [Y]) <-> b = false /\ Y = X).
    { intros [|] X Y; cbn; intuition discriminate. }
    assert (Hyes : forall (b : bool) (X Y : jsstring),
              In X (if b then [Y] else []) <-> b = true /\ Y = X).
    { intros [|] X Y; cbn; intuition discriminate. }
    unfold missing, missing_settings.
    rewrite !in_app_iff, !Hno, !Hyes.
    pose proof (Hcred username password) as Hc.
    destruct (truthy username && negb (truthy password)
              || negb (truthy username) && truthy password);
      destruct (isFinite port); destruct (le_zero port); cbn [negb orb];
      repeat split;
      intros H;
      repeat match goal with
             | H : _ \/ _ |- _ => destruct H as [H|H]
             | H : _ /\ _ |- _ => destruct H as (? & H)
             | H : lit _ = lit _ |- _ =>
                 first [ vm_compute in H; discriminate H | clear H ]
             end;
      try discriminate; try tauto; try (intuition congruence).
Qed.

End PreferencesFacts.

(** ** Sessions: what they do to the transport *)
Section SessionFacts.
Import JS Smtp Email.

Lemma deliver_bind_Wait {A B} c (k : settlement -> client -> task A)
    (f : A -> async B) ev :
  deliver (task_bind (Wait c k) f) ev = task_bind (deliver (Wait c k) ev) f.
Proof.
  cbn [task_bind deliver]. destruct (dispatch ev c) as [c' [s|]]; reflexivity.
Qed.

(** A sequence has finished when its first part has finished, and its
    second part, if the first part returned, has finished after it. *)
Lemma run_bind_inv {A B} (f : A -> async B) evs : forall (t : task A) r c,
  run (task_bind t f) evs = Done r c ->
  exists evs1 evs2 ra c1,
    evs = evs1 ++ evs2
    /\ run t evs1 = Done ra c1
    /\ run (match ra with
            | Ok a => f a c1
            | Throw e => Done (Throw e) c1
            end) evs2 = Done r c.
Proof.
  induction evs as [|ev evs IH]; intros t r c H.
  - destruct t as [ra c1|c1 k]; [ | discriminate H].
    exists [], [], ra, c1. split; [reflexivity | ]. split; [reflexivity | ].
    destruct ra; exact H.
  - destruct t as [ra c1|c1 k].
    + exists [], (ev :: evs), ra, c1. split; [reflexivity | ].
      split; [reflexivity | ]. destruct ra; exact H.
    + rewrite run_cons, deliver_bind_Wait in H.
      destruct (IH _ _ _ H) as (evs1 & evs2 & ra & c2 & -> & H1 & H2).
      exists (ev :: evs1), evs2, ra, c2.
      split; [reflexivity | ]. split; [exact H1 | exact H2].
Qed.

Lemma effect_bind {A B} (m : async A) (f : A -> async B) opts pre mid post l1 l2 :
  effect m opts pre mid l1 ->
  (forall a, effect (f a) opts mid post l2) ->
  effect (m ≫= f) opts pre post (l1 ++ l2).
Proof.
  intros Hm Hf c evs r c' Hpre Hopts Hrun.
  rewrite async_bind_eq in Hrun.
  destruct (run_bind_inv _ _ _ _ _ Hrun) as (evs1 & evs2 & ra & c1 & -> & H1 & H2).
  destruct (Hm _ _ _ _ Hpre Hopts H1) as (Ho1 & Hs1 & Hr1).
  destruct ra as [a|e].
  - destruct Hr1 as (Hmid & Hl1).
    destruct (Hf a _ _ _ _ Hmid Ho1 H2) as (Ho2 & Hs2 & Hr2).
    split; [exact Ho2 | ]. split; [exact Hs2 | ].
    destruct r as [b|e].
    + destruct Hr2 as (Hpost & Hl2). split; [exact Hpost | ].
      rewrite Hl2, Hl1, app_assoc. reflexivity.
    + destruct Hr2 as (l' & Hp & Hl2). exists (l1 ++ l').
      split; [apply prefix_app, Hp | ].
      rewrite Hl2, Hl1, app_assoc. reflexivity.
  - destruct (run_Done_frame _ _ _ _ _ H2) as (-> & Hs & Hl & Ho).
    split; [rewrite Ho; exact Ho1 | ]. split; [rewrite Hs; exact Hs1 | ].
    destruct Hr1 as (l' & Hp & Hl1). exists l'.
    split; [apply prefix_app_r, Hp | rewrite Hl; exact Hl1].
Qed.

Lemma effect_ret {A} (a : A) opts s : effect (mret a) opts (Some s) (Some s) [].
Proof.
  intros c evs r c' Hpre Hopts Hrun. unfold mret, async_ret in Hrun.
  destruct (run_Done_frame _ _ _ _ _ Hrun) as (-> & Hs & Hl & Ho).
  rewrite Ho, Hs, Hl, Hpre, app_nil_r. auto.
Qed.

Lemma effect_write data opts s :
  effect (write data) opts (Some s) (Some s) [Write s data].
Proof.
  intros c evs r c' Hpre Hopts Hrun. unfold write in Hrun. rewrite Hpre in Hrun.
  destruct (run_Done_frame _ _ _ _ _ Hrun) as (-> & Hs & Hl & Ho).
  rewrite Ho, Hs, Hl. cbn [options socket_ log record].
  rewrite Hpre. auto.
Qed.

Lemma effect_readResponse expected opts s :
  effect (readResponse expected) opts (Some s) (Some s) [].
Proof.
  intros c evs r c' Hpre Hopts Hrun. unfold readResponse in Hrun.
  assert (Hfinal : forall (r0 : result SmtpResponse) c0 evs0,
            socket_ c0 = Some s -> options c0 = opts -> log c0 = log c ->
            run (Done r0 c0) evs0 = Done r c' ->
            options c' = opts /\ socket_ c' <> None
            /\ match r with
               | Ok _ => socket_ c' = Some s /\ log c' = log c ++ []
               | Throw _ => exists l', l' `prefix_of` [] /\ log c' = log c ++ l'
               end).
  { intros r0 c0 evs0 Hs0 Ho0 Hl0 H.
    destruct (run_Done_frame _ _ _ _ _ H) as (_ & Hs & Hl & Ho).
    rewrite Ho, Hs, Hl, Hs0, Hl0, app_nil_r.
    split; [exact Ho0 | ]. split; [discriminate | ].
    destruct r; [auto | ]. exists []. rewrite app_nil_r. auto. }
  destruct (pending c) as [slot|].
  { apply (Hfinal _ _ _ Hpre Hopts eq_refl Hrun). }
  destruct (queuedResponses c) as [|existing rest].
  - destruct (run_Wait_frame _ _ _ _ _ Hrun)
      as (x & c1 & evs2 & Hs1 & Hl1 & Ho1 & Hk).
    cbn [socket_ log options set_pending] in Hs1, Hl1, Ho1.
    unfold settled in Hk.
    destruct x as [response|error];
      apply (Hfinal _ _ _ (eq_trans Hs1 Hpre) (eq_trans Ho1 Hopts) Hl1 Hk).
  - destruct (is_unexpected expected (code existing));
      apply (Hfinal _ (set_queued rest c) _ Hpre Hopts eq_refl Hrun).
Qed.

Lemma effect_sendCommand text expected opts s :
  effect (sendCommand text expected) opts (Some s) (Some s) [command s text].
Proof.
  unfold sendCommand, command.
  apply (effect_bind _ _ opts (Some s) (Some s) (Some s)
           [Write s (text ++ lit "\r\n")] []).
  - apply effect_write.
  - intros _. apply effect_readResponse.
Qed.

(** A step whose result is dropped. *)
Lemma effect_step {A} (m : async A) opts pre post l :
  effect m opts pre post l -> effect (m ≫= fun _ => mret tt) opts pre post l.
Proof.
  intros Hm. rewrite <- (app_nil_r l).
  destruct post as [s|].
  - apply (effect_bind _ _ opts pre (Some s) (Some s) l []); [exact Hm | ].
    intros _. apply effect_ret.
  - intros c evs r c' Hpre Hopts Hrun. rewrite async_bind_eq in Hrun.
    destruct (run_bind_inv _ _ _ _ _ Hrun)
      as (evs1 & evs2 & ra & c1 & -> & H1 & H2).
    destruct (Hm _ _ _ _ Hpre Hopts H1) as (Ho1 & Hs1 & Hr1).
    destruct ra as [a|e]; [destruct Hr1 as (Hn & _); congruence | ].
    destruct (run_Done_frame _ _ _ _ _ H2) as (-> & Hs & Hl & Ho).
    rewrite Ho, Hs, Hl, app_nil_r. auto.
Qed.

Lemma effect_sendEhlo hostname opts s :
  effect (sendEhlo hostname) opts (Some s) (Some s)
    [command s (lit "EHLO " ++ Mime.sanitizeHeader
                                 (Mime.or_else hostname (lit "raycast")))].
Proof. apply effect_step, effect_sendCommand. Qed.

Lemma effect_upgrade opts s :
  effect upgrade opts (Some s) (Some (TlsOver s (host opts)))
    [Connect (TlsOver s (host opts))].
Proof.
  intros c evs r c' Hpre Hopts Hrun. unfold upgrade in Hrun.
  rewrite Hpre, Hopts in Hrun.
  destruct (run_Done_frame _ _ _ _ _ Hrun) as (-> & Hs & Hl & Ho).
  rewrite Ho, Hs, Hl. cbn [options socket_ log record set_socket].
  split; [exact Hopts | ]. split; [discriminate | auto].
Qed.

Lemma effect_startTls opts s :
  effect startTls opts (Some s) (Some (TlsOver s (host opts)))
    [command s (lit "STARTTLS"); Connect (TlsOver s (host opts))].
Proof.
  unfold startTls.
  apply (effect_bind _ _ opts (Some s) (Some s) _ [_] [_]).
  - apply effect_sendCommand.
  - intros _. apply effect_upgrade.
Qed.

Lemma effect_authLogin username password opts s :
  effect (authLogin username password) opts (Some s) (Some s)
    [command s (lit "AUTH LOGIN");
     command s (Mime.base64 (utf8 username));
     command s (Mime.base64 (utf8 password))].
Proof.
  unfold authLogin.
  apply (effect_bind _ _ opts (Some s) (Some s) (Some s) [_] [_; _]);
    [apply effect_sendCommand | intros _].
  apply (effect_bind _ _ opts (Some s) (Some s) (Some s) [_] [_]);
    [apply effect_sendCommand | intros _].
  apply effect_step, effect_sendCommand.
Qed.

Lemma effect_sendMail input opts s :
  effect (sendMail input) opts (Some s) (Some s)
    [command s (lit "MAIL FROM:<" ++ from input ++ lit ">");
     command s (lit "RCPT TO:<" ++ to input ++ lit ">");
     command s (lit "DATA");
     command s (Mime.dotStuff (message input));
     command s (lit ".")].
Proof.
  unfold sendMail.
  apply (effect_bind _ _ opts (Some s) (Some s) (Some s) [_] [_; _; _; _]);
    [apply effect_sendCommand | intros _].
  apply (effect_bind _ _ opts (Some s) (Some s) (Some s) [_] [_; _; _]);
    [apply effect_sendCommand | intros _].
  apply (effect_bind _ _ opts (Some s) (Some s) (Some s) [_] [_; _]);
    [apply effect_sendCommand | intros _].
  apply (effect_bind _ _ opts (Some s) (Some s) (Some s) [_] [_]);
    [apply effect_write | intros _].
  apply effect_step, effect_sendCommand.
Qed.

Lemma effect_verifyRecipient sender recipient opts s :
  effect (verifyRecipient sender recipient) opts (Some s) (Some s)
    [command s (lit "MAIL FROM:<" ++ sender ++ lit ">");
     command s (lit "RCPT TO:<" ++ recipient ++ lit ">");
     command s (lit "RSET")].
Proof.
  unfold verifyRecipient.
  apply (effect_bind _ _ opts (Some s) (Some s) (Some s) [_] [_; _]);
    [apply effect_sendCommand | intros _].
  apply (effect_bind _ _ opts (Some s) (Some s) (Some s) [_] [_]);
    [apply effect_sendCommand | intros _].
  apply effect_step, effect_sendCommand.
Qed.

Lemma socket_port_valid x port :
  socket_port x = Some port -> valid_port port = true.
Proof.
  destruct x as [ | negative | numerator denominator]; cbn [socket_port];
    try discriminate.
  destruct (_ && _) eqn:E; [ | discriminate].
  intros [= <-]. unfold valid_port.
  apply andb_prop in E. destruct E as (E & ->).
  apply andb_prop in E. destruct E as (_ & ->). reflexivity.
Qed.

Lemma effect_connect opts pre :
  valid_port (port opts) = true ->
  effect connect opts pre (Some (open_transport opts))
    [Connect (open_transport opts)].
Proof.
  intros Hport c evs r c' Hpre Hopts Hrun. unfold connect in Hrun.
  rewrite Hopts, Hport in Hrun.
  set (s := open_transport opts) in *.
  set (c0 := record (Connect s) (set_socket (Some s) c)) in *.
  destruct (effect_step (readResponse (Some [220%N])) opts (Some s) (Some s) []
              (effect_readResponse _ opts s) c0 evs r c' eq_refl Hopts Hrun)
    as (Ho & Hs & Hr).
  split; [exact Ho | ]. split; [exact Hs | ].
  destruct r as [a|e].
  - destruct Hr as (Hs' & Hl). split; [exact Hs' | ].
    rewrite Hl, app_nil_r. reflexivity.
  - destruct Hr as (l' & Hp & Hl). apply prefix_nil_inv in Hp. subst l'.
    exists [Connect s]. split; [reflexivity | ].
    rewrite Hl, app_nil_r. reflexivity.
Qed.

Lemma effect_session hostname settings port final l :
  let opts := client_options settings port in
  valid_port port = true ->
  effect final opts (Some (session_socket opts)) (Some (session_socket opts)) l ->
  effect (session hostname settings final) opts None
    (Some (session_socket opts)) (opening hostname settings opts ++ l).
Proof.
  intros opts Hport Hfinal. unfold session, opening, authenticates.
  set (plain := open_transport opts).
  assert (Hauth : forall s,
            effect (if truthy (smtpUsername settings)
                       && truthy (smtpPassword settings)
                    then authLogin (smtpUsername settings)
                           (smtpPassword settings)
                    else mret tt) opts (Some s) (Some s)
              (if truthy (smtpUsername settings)
                  && truthy (smtpPassword settings)
               then [command s (lit "AUTH LOGIN");
                     command s (Mime.base64 (utf8 (smtpUsername settings)));
                     command s (Mime.base64 (utf8 (smtpPassword settings)))]
               else [])).
  { intros s. destruct (_ && _); [apply effect_authLogin | apply effect_ret]. }
  change ([Connect plain; command plain (ehlo hostname)])
    with ([Connect plain] ++ [command plain (ehlo hostname)]).
  rewrite <- !app_assoc.
  apply (effect_bind _ _ opts None (Some plain)); [apply effect_connect; exact Hport | intros _].
  apply (effect_bind _ _ opts (Some plain) (Some plain));
    [apply effect_sendEhlo | intros _].
  unfold session_socket in *.
  change (security opts) with (smtpSecurity settings) in *.
  fold plain in Hfinal |- *.
  destruct (smtpSecurity settings).
  - apply (effect_bind _ _ opts (Some plain) (Some plain) _ []);
      [apply effect_ret | intros _].
    apply (effect_bind _ _ opts _ (Some plain)); [apply Hauth | intros _; exact Hfinal].
  - change [command plain (lit "STARTTLS"); Connect (TlsOver plain (host opts));
            command (TlsOver plain (host opts)) (ehlo hostname)]
      with ([command plain (lit "STARTTLS"); Connect (TlsOver plain (host opts))]
            ++ [command (TlsOver plain (host opts)) (ehlo hostname)]).
    apply (effect_bind _ _ opts (Some plain) (Some (TlsOver plain (host opts)))).
    + apply (effect_bind _ _ opts (Some plain) (Some (TlsOver plain (host opts))));
        [apply effect_startTls | intros _; apply effect_sendEhlo].
    + intros _. apply (effect_bind _ _ opts _ (Some (TlsOver plain (host opts))));
        [apply Hauth | intros _; exact Hfinal].
  - apply (effect_bind _ _ opts (Some plain) (Some plain) _ []);
      [apply effect_ret | intros _].
    apply (effect_bind _ _ opts _ (Some plain)); [apply Hauth | intros _; exact Hfinal].
Qed.

Lemma deliver_then {A} (tq : task unit) (r : result A) ev :
  deliver (task_then tq r) ev = task_then (deliver tq ev) r.
Proof.
  destruct tq as [[[]|e] c|c k]; cbn [task_then deliver]; try reflexivity.
  destruct (dispatch ev c) as [c' [s|]]; reflexivity.
Qed.

Lemma run_then {A} (r : result A) evs : forall tq,
  run (task_then tq r) evs = task_then (run tq evs) r.
Proof.
  induction evs as [|ev evs IH]; intros tq; [reflexivity | ].
  rewrite !run_cons, deliver_then. apply IH.
Qed.

Lemma deliver_finally_Wait {A} c (k : settlement -> client -> task A) cleanup ev :
  deliver (task_finally_await (Wait c k) cleanup) ev
  = task_finally_await (deliver (Wait c k) ev) cleanup.
Proof.
  cbn [task_finally_await deliver].
  destruct (dispatch ev c) as [c' [s|]]; reflexivity.
Qed.

(** A guarded body has finished when the body has finished and the
    cleanup, started then, has finished too. *)
Lemma run_finally_inv {A} cleanup evs : forall (t : task A) r c,
  run (task_finally_await t cleanup) evs = Done r c ->
  exists evs1 evs2 r0 c1,
    evs = evs1 ++ evs2
    /\ run t evs1 = Done r0 c1
    /\ task_then (run (cleanup c1) evs2) r0 = Done r c.
Proof.
  induction evs as [|ev evs IH]; intros t r c H.
  - destruct t as [r0 c1|c1 k]; [ | discriminate H].
    exists [], [], r0, c1. auto.
  - destruct t as [r0 c1|c1 k].
    + exists [], (ev :: evs), r0, c1. split; [reflexivity | ].
      split; [reflexivity | ].
      cbn [task_finally_await] in H. rewrite run_then in H. exact H.
    + rewrite run_cons, deliver_finally_Wait in H.
      destruct (IH _ _ _ H) as (evs1 & evs2 & r0 & c2 & -> & H1 & H2).
      exists (ev :: evs1), evs2, r0, c2. auto.
Qed.

(** What [quit] does to the transport, once it has finished. *)
Lemma quit_closing c s evs r c' :
  socket_ c = Some s -> run (quit c) evs = Done r c' ->
  r = Ok tt /\ socket_ c' = Some s /\ log c' = log c ++ closing s.
Proof.
  intros Hs Hrun.
  assert (Hdown : forall c0 evs0,
            socket_ c0 = Some s ->
            log c0 = log c ++ [command s (lit "QUIT")] ->
            run (Done (Ok tt) (teardown c0)) evs0 = Done r c' ->
            r = Ok tt /\ socket_ c' = Some s /\ log c' = log c ++ closing s).
  { intros c0 evs0 Hs0 Hl0 H.
    destruct (run_Done_frame _ _ _ _ _ H) as (-> & Hs' & Hl' & _).
    rewrite Hs', Hl'. unfold teardown. rewrite Hs0.
    cbn [socket_ log record]. rewrite Hs0, Hl0, <- !app_assoc.
    repeat split; reflexivity. }
  unfold quit, sendCommand in Hrun. rewrite !async_bind_eq in Hrun.
  unfold write in Hrun. rewrite Hs in Hrun.
  unfold mret, async_ret in Hrun. cbn [task_bind] in Hrun.
  unfold readResponse in Hrun. cbn [pending record queuedResponses] in Hrun.
  destruct (pending c) as [slot|].
  - cbn [task_bind task_catch task_finally] in Hrun.
    apply (Hdown (record (Write s (lit "QUIT" ++ lit "\r\n")) c) _ Hs eq_refl
             Hrun).
  - destruct (queuedResponses c) as [|existing queue].
    + cbn [task_bind task_catch task_finally] in Hrun.
      destruct (run_Wait_frame _ _ _ _ _ Hrun)
        as (x & c1 & evs2 & Hs1 & Hl1 & _ & Hk).
      cbn [socket_ log set_pending record] in Hs1, Hl1.
      destruct x as [response|error];
        cbn [settled task_bind task_catch task_finally] in Hk;
        apply (Hdown c1 evs2 (eq_trans Hs1 Hs) Hl1 Hk).
    + destruct (is_unexpected _ _);
        cbn [task_bind task_catch task_finally] in Hrun;
        apply (Hdown (set_queued queue (record (Write s (lit "QUIT" ++ lit "\r\n")) c))
                 _ Hs eq_refl Hrun).
Qed.

(** A guarded session: whatever the server and the transport do, once it
    has finished it has done a part of what its body does, from the
    start, then QUIT, [end] and [destroy]; and if it has returned, it has
    done everything its body does. *)
Lemma guarded_session opts hostname settings port final l evs r c :
  opts = client_options settings port ->
  valid_port port = true ->
  effect final opts (Some (session_socket opts)) (Some (session_socket opts)) l ->
  run (task_finally_await (session hostname settings final (SmtpClient opts)) quit)
    evs = Done r c ->
  exists done s,
    done `prefix_of` (opening hostname settings opts ++ l)
    /\ socket_ c = Some s
    /\ log c = done ++ closing s
    /\ (r = Ok tt -> done = opening hostname settings opts ++ l
                     /\ s = session_socket opts).
Proof.
  intros -> Hport Hfinal Hrun.
  destruct (run_finally_inv _ _ _ _ _ Hrun)
    as (evs1 & evs2 & r0 & c1 & -> & Hbody & Hquit).
  destruct (effect_session hostname settings port final l Hport Hfinal
              (SmtpClient (client_options settings port)) _ _ _
              eq_refl eq_refl Hbody) as (_ & Hsock & Hr0).
  destruct (socket_ c1) as [s|] eqn:Es; [clear Hsock | contradiction].
  destruct (run (quit c1) evs2) as [rq cq|cq kq] eqn:Eq; [ | discriminate Hquit].
  destruct (quit_closing _ _ _ _ _ Es Eq) as (-> & Hsq & Hlq).
  cbn [task_then] in Hquit. injection Hquit as <- <-.
  destruct r0 as [[]|e].
  - destruct Hr0 as (Hs1 & Hl1). cbn [log SmtpClient app] in Hl1.
    exists (opening hostname settings (client_options settings port) ++ l), s.
    split; [reflexivity | ]. split; [exact Hsq | ].
    split; [rewrite Hlq, Hl1; reflexivity | ].
    intros _. split; [reflexivity | congruence].
  - destruct Hr0 as (l' & Hp & Hl1). cbn [log SmtpClient app] in Hl1.
    exists l', s. split; [exact Hp | ]. split; [exact Hsq | ].
    split; [rewrite Hlq, Hl1; reflexivity | discriminate].
Qed.

Lemma sendEpubByEmail_Ok Number normalize env hostname input t :
  sendEpubByEmail Number normalize env hostname input = Ok t ->
  exists settings message port,
    normalizePreferences Number (preferences input) = Ok settings
    /\ Mime.buildMimeMessage normalize env
         {| Mime.title := title input;
            Mime.filename := filename input;
            Mime.epubBuffer := epubBuffer input;
            Mime.senderEmail := senderEmail settings;
            Mime.kindleEmail := kindleEmail settings |} = Ok message
    /\ socket_port (smtpPort settings) = Some port
    /\ t = task_finally_await
             (session hostname settings
                (sendMail {| from := senderEmail settings;
                             to := kindleEmail settings;
                             message := message |})
                (SmtpClient (client_options settings port)))
             quit.
Proof.
  unfold sendEpubByEmail. intros H.
  apply bind_Ok in H. destruct H as (settings & Hsettings & H).
  apply bind_Ok in H. destruct H as (message & Hmessage & H).
  apply bind_Ok in H. destruct H as (client & Hclient & H).
  unfold newSmtpClient in Hclient.
  destruct (socket_port (smtpPort settings)) as [port|] eqn:Eport;
    [ | discriminate Hclient].
  injection Hclient as <-. injection H as <-.
  exists settings, message, port. auto.
Qed.

(** X23.  Once the settings are complete, the message is built and the
    port is valid, a call of [sendEpubByEmail], whatever the server and
    the transport do, has on finishing done to its transport a part, from
    the start, of: connect, EHLO, (STARTTLS, TLS, EHLO), (AUTH LOGIN, user
    name, password), MAIL FROM, RCPT TO, DATA, the stuffed message, the
    closing dot; followed in every case by QUIT, [end] and [destroy] on
    the socket it holds.  If it has returned normally, it has done all of
    them. *)
Theorem sendEpubByEmail_transport Number normalize env hostname input t :
  sendEpubByEmail Number normalize env hostname input = Ok t ->
  exists settings message port,
    normalizePreferences Number (preferences input) = Ok settings
    /\ Mime.buildMimeMessage normalize env
         {| Mime.title := title input;
            Mime.filename := filename input;
            Mime.epubBuffer := epubBuffer input;
            Mime.senderEmail := senderEmail settings;
            Mime.kindleEmail := kindleEmail settings |} = Ok message
    /\ socket_port (smtpPort settings) = Some port
    /\ let opts := client_options settings port in
       let planned :=
         opening hostname settings opts
         ++ mail_commands (session_socket opts)
              {| from := senderEmail settings; to := kindleEmail settings;
                 message := message |} in
       forall evs r c,
         run t evs = Done r c ->
         exists done s,
           done `prefix_of` planned
           /\ socket_ c = Some s
           /\ log c = done ++ closing s
           /\ (r = Ok tt -> done = planned /\ s = session_socket opts).
Proof.
  intros H.
  destruct (sendEpubByEmail_Ok _ _ _ _ _ _ H)
    as (settings & message & port & Hs & Hm & Hp & ->).
  exists settings, message, port.
  split; [exact Hs | ]. split; [exact Hm | ]. split; [exact Hp | ].
  intros opts planned evs r c Hrun.
  apply (guarded_session opts hostname settings port _ _ evs r c eq_refl
           (socket_port_valid _ _ Hp) (effect_sendMail _ opts (session_socket opts)) Hrun).
Qed.

Lemma testEmailPreferences_Ok Number hostname preferences t :
  testEmailPreferences Number hostname preferences = Ok t ->
  exists settings port,
    normalizePreferences Number preferences = Ok settings
    /\ socket_port (smtpPort settings) = Some port
    /\ t = task_finally_await
             (session hostname settings
                (verifyRecipient (senderEmail settings) (kindleEmail settings))
                (SmtpClient (client_options settings port)))
             quit.
Proof.
  unfold testEmailPreferences. intros H.
  apply bind_Ok in H. destruct H as (settings & Hsettings & H).
  apply bind_Ok in H. destruct H as (client & Hclient & H).
  unfold newSmtpClient in Hclient.
  destruct (socket_port (smtpPort settings)) as [port|] eqn:Eport;
    [ | discriminate Hclient].
  injection Hclient as <-. injection H as <-.
  exists settings, port. auto.
Qed.

(** X24.  The same for [testEmailPreferences], whose last step is MAIL
    FROM, RCPT TO and RSET: on finishing it has done a part, from the
    start, of its commands, then QUIT, [end] and [destroy]; if it has
    returned normally it has done all of them. *)
Theorem testEmailPreferences_transport Number hostname preferences t :
  testEmailPreferences Number hostname preferences = Ok t ->
  exists settings port,
    normalizePreferences Number preferences = Ok settings
    /\ socket_port (smtpPort settings) = Some port
    /\ let opts := client_options settings port in
       let planned :=
         opening hostname settings opts
         ++ verify_commands (session_socket opts) (senderEmail settings)
              (kindleEmail settings) in
       forall evs r c,
         run t evs = Done r c ->
         exists done s,
           done `prefix_of` planned
           /\ socket_ c = Some s
           /\ log c = done ++ closing s
           /\ (r = Ok tt -> done = planned /\ s = session_socket opts).
Proof.
  intros H.
  destruct (testEmailPreferences_Ok _ _ _ _ H)
    as (settings & port & Hs & Hp & ->).
  exists settings, port.
  split; [exact Hs | ]. split; [exact Hp | ].
  intros opts planned evs r c Hrun.
  apply (guarded_session opts hostname settings port _ _ evs r c eq_refl
           (socket_port_valid _ _ Hp) (effect_verifyRecipient _ _ opts (session_socket opts)) Hrun).
Qed.

End SessionFacts.

(** ** Sessions: a server that answers as expected *)
Section HappyPath.
Import JS Smtp Email.

(** Sequences nested to the left and to the right finish alike. *)
Lemma run_bind_assoc {A B C} (g : A -> async B) (f : B -> async C) evs :
  forall (t : task A) r c,
    run (task_bind t (fun a => g a ≫= f)) evs = Done r c ->
    run (task_bind (task_bind t g) f) evs = Done r c.
Proof.
  induction evs as [|ev evs IH]; intros t r c H.
  - destruct t as [[a|e] c1|c1 k]; [exact H | exact H | discriminate H].
  - destruct t as [[a|e] c1|c1 k]; [exact H | exact H | ].
    rewrite run_cons in H |- *.
    change (task_bind (task_bind (Wait c1 k) g) f)
      with (task_bind (Wait c1 (fun s c' => task_bind (k s c') g)) f).
    rewrite deliver_bind_Wait in H. rewrite !deliver_bind_Wait.
    assert (Hd : deliver (Wait c1 (fun s c' => task_bind (k s c') g)) ev
                 = task_bind (deliver (Wait c1 k) ev) g).
    { cbn [deliver]. destruct (dispatch ev c1) as [c' [s|]]; reflexivity. }
    rewrite Hd. apply IH, H.
Qed.

Lemma idle_after_idle c s :
  idle c s -> currentResponseCode c = None ->
  idle_after [] (set_socket (Some s) c) = c.
Proof.
  intros (Hs & Hb & Hl & Hq & Hp) Hc. destruct c. cbn in *. subst.
  unfold idle_after, set_socket. cbn. rewrite app_nil_r. reflexivity.
Qed.

Lemma idle_after_twice l1 l2 s1 s2 c :
  idle_after l2 (set_socket (Some s2) (idle_after l1 (set_socket (Some s1) c)))
  = idle_after (l1 ++ l2) (set_socket (Some s2) c).
Proof. unfold idle_after, set_socket. cbn. rewrite app_assoc. reflexivity. Qed.

Lemma idle_after_is_idle l s c :
  idle (idle_after l (set_socket (Some s) c)) s
  /\ currentResponseCode (idle_after l (set_socket (Some s) c)) = None.
Proof. unfold idle. cbn. repeat split; reflexivity. Qed.

Lemma idle_after_options l s c :
  options (idle_after l (set_socket (Some s) c)) = options c.
Proof. reflexivity. Qed.

Lemma completes_bind {A B} (m : async A) (g : A -> async B)
    opts s s1 s2 l1 l2 codes1 codes2 :
  completes m opts s s1 l1 codes1 ->
  (forall a, completes (g a) opts s1 s2 l2 codes2) ->
  completes (m ≫= g) opts s s2 (l1 ++ l2) (codes1 ++ codes2).
Proof.
  intros Hm Hg c replies Hidle Hcode Hopts Hans.
  apply Forall2_app_inv_r in Hans.
  destruct Hans as (replies1 & replies2 & H1 & H2 & ->).
  destruct (Hm c replies1 Hidle Hcode Hopts H1) as (a1 & Ha1).
  destruct (idle_after_is_idle l1 s1 c) as (Hidle1 & Hcode1).
  destruct (Hg a1 _ replies2 Hidle1 Hcode1 Hopts H2) as (a2 & Ha2).
  exists a2. intros C f more r c' Hrun.
  unfold served. rewrite flat_map_app, <- app_assoc.
  rewrite async_bind_eq, async_bind_eq. apply run_bind_assoc.
  apply (Ha1 C (fun a => g a ≫= f)).
  apply Ha2. rewrite idle_after_twice. exact Hrun.
Qed.

Lemma completes_step {A} (m : async A) opts s s' l codes :
  completes m opts s s' l codes ->
  completes (m ≫= fun _ => mret tt) opts s s' l codes.
Proof.
  intros Hm c replies Hidle Hcode Hopts Hans.
  destruct (Hm c replies Hidle Hcode Hopts Hans) as (a & Ha).
  exists tt. intros C f more r c' Hrun.
  rewrite async_bind_eq, async_bind_eq. apply run_bind_assoc.
  apply (Ha C (fun _ => mret tt ≫= f)). exact Hrun.
Qed.

Lemma completes_ret {A} (a : A) opts s : completes (mret a) opts s s [] [].
Proof.
  intros c replies Hidle Hcode Hopts Hans. inversion Hans; subst.
  exists a. intros C f more r c' Hrun.
  rewrite (idle_after_idle c s Hidle Hcode) in Hrun. exact Hrun.
Qed.

Lemma completes_sendCommand text expected opts s :
  completes (sendCommand text (Some expected)) opts s s [command s text]
    [expected].
Proof.
  intros c replies Hidle Hcode Hopts Hans.
  inversion Hans as [|[reply chunks] codes' replies' ? (Hwf & Hch & Hin) Hrest];
    subst. inversion Hrest; subst. cbn [fst snd] in *.
  exists (response_of reply). intros C f more r c' Hrun.
  unfold served. cbn [flat_map snd]. rewrite app_nil_r.
  rewrite (exchange c s text (Some expected) reply chunks f more Hidle Hwf Hch).
  rewrite settle_expected.
  - assert (Hc : idle_after [command s text] (set_socket (Some s) c)
                 = idle_after [Write s (text ++ lit "\r\n")] c).
    { unfold idle_after, set_socket, command. cbn.
      rewrite (proj1 Hidle). reflexivity. }
    rewrite <- Hc. exact Hrun.
  - cbn [is_unexpected]. apply negb_false_iff, existsb_exists.
    exists (reply_code reply). split; [exact Hin | apply N.eqb_refl].
Qed.

Lemma completes_write data opts s :
  completes (write data) opts s s [Write s data] [].
Proof.
  intros c replies Hidle Hcode Hopts Hans. inversion Hans; subst.
  exists tt. intros C f more r c' Hrun.
  cbn [served flat_map app]. rewrite async_bind_eq. unfold write.
  rewrite (proj1 Hidle). cbn [task_bind].
  assert (Hc : record (Write s data) c
               = idle_after [Write s data] (set_socket (Some s) c)).
  { destruct Hidle as (Hs & Hb & Hl & Hq & Hp). destruct c. cbn in *. subst.
    reflexivity. }
  rewrite Hc. exact Hrun.
Qed.

Lemma completes_sendEhlo hostname opts s :
  completes (sendEhlo hostname) opts s s [command s (ehlo hostname)] [[250%N]].
Proof. apply completes_step, completes_sendCommand. Qed.

Lemma completes_upgrade opts s :
  completes upgrade opts s (TlsOver s (host opts))
    [Connect (TlsOver s (host opts))] [].
Proof.
  intros c replies Hidle Hcode Hopts Hans. inversion Hans; subst.
  exists tt. intros C f more r c' Hrun.
  cbn [served flat_map app]. rewrite async_bind_eq. unfold upgrade.
  rewrite (proj1 Hidle). cbn [task_bind].
  assert (Hc : record (Connect (TlsOver s (host (options c))))
                 (set_socket (Some (TlsOver s (host (options c)))) c)
               = idle_after [Connect (TlsOver s (host (options c)))]
                   (set_socket (Some (TlsOver s (host (options c)))) c)).
  { destruct Hidle as (Hs & Hb & Hl & Hq & Hp). destruct c. cbn in *. subst.
    reflexivity. }
  rewrite Hc. exact Hrun.
Qed.

(** STARTTLS accepted: the socket is wrapped, and what follows uses the
    wrapped socket. *)
Lemma completes_startTls opts s :
  completes startTls opts s (TlsOver s (host opts))
    [command s (lit "STARTTLS"); Connect (TlsOver s (host opts))] [[220%N]].
Proof.
  unfold startTls.
  apply (completes_bind _ _ opts s s _ [_] [_] [_] []).
  - apply completes_sendCommand.
  - intros _. apply completes_upgrade.
Qed.

Lemma completes_authLogin username password opts s :
  completes (authLogin username password) opts s s
    [command s (lit "AUTH LOGIN");
     command s (Mime.base64 (utf8 username));
     command s (Mime.base64 (utf8 password))]
    [[334]; [334]; [235]]%N.
Proof.
  unfold authLogin.
  apply (completes_bind _ _ opts s s s [_] [_; _] [_] [_; _]);
    [apply completes_sendCommand | intros _].
  apply (completes_bind _ _ opts s s s [_] [_] [_] [_]);
    [apply completes_sendCommand | intros _].
  apply completes_step, completes_sendCommand.
Qed.

Lemma completes_sendMail input opts s :
  completes (sendMail input) opts s s (mail_commands s input) mail_codes.
Proof.
  unfold sendMail, mail_commands, mail_codes.
  apply (completes_bind _ _ opts s s s [_] [_; _; _; _] [_] [_; _; _]);
    [apply completes_sendCommand | intros _].
  apply (completes_bind _ _ opts s s s [_] [_; _; _] [_] [_; _]);
    [apply completes_sendCommand | intros _].
  apply (completes_bind _ _ opts s s s [_] [_; _] [_] [_]);
    [apply completes_sendCommand | intros _].
  apply (completes_bind _ _ opts s s s [_] [_] [] [_]);
    [apply completes_write | intros _].
  apply completes_step, completes_sendCommand.
Qed.

Lemma completes_verifyRecipient sender recipient opts s :
  completes (verifyRecipient sender recipient) opts s s
    (verify_commands s sender recipient) verify_codes.
Proof.
  unfold verifyRecipient, verify_commands, verify_codes.
  apply (completes_bind _ _ opts s s s [_] [_; _] [_] [_; _]);
    [apply completes_sendCommand | intros _].
  apply (completes_bind _ _ opts s s s [_] [_] [_] [_]);
    [apply completes_sendCommand | intros _].
  apply completes_step, completes_sendCommand.
Qed.

(** The greeting: [connect] on a new client, answered with 220. *)
Lemma greeting opts replies :
  valid_port (port opts) = true ->
  answers replies [[220%N]] ->
  forall B (f : unit -> async B) more r c',
    run (f tt (idle_after [Connect (open_transport opts)]
                 (set_socket (Some (open_transport opts)) (SmtpClient opts))))
      more = Done r c' ->
    run ((connect ≫= f) (SmtpClient opts)) (served replies ++ more)
    = Done r c'.
Proof.
  intros Hport Hans B f more r c' Hrun.
  inversion Hans as [|[reply chunks] codes' replies' ? (Hwf & Hch & Hin) Hrest];
    subst. inversion Hrest; subst. cbn [fst snd] in *.
  destruct Hin as [Hcode|[]].
  unfold served. cbn [flat_map snd]. rewrite app_nil_r.
  rewrite async_bind_eq. unfold connect. cbn [options SmtpClient].
  rewrite Hport, async_bind_eq.
  unfold readResponse.
  cbn [pending record set_socket SmtpClient queuedResponses options task_bind].
  rewrite run_app.
  set (s := open_transport opts).
  set (c1 := set_pending _ _).
  destruct Hch as (Hcat & Hall).
  assert (Hne : chunks <> []).
  { intros ->. cbn in Hcat. exact (wire_nonempty reply (eq_sym Hcat)). }
  rewrite (run_chunked_reply c1 _ reply
             {| Smtp.expected := Some [220%N];
                timeout := default 15000 (timeoutMs opts) |}
             Hwf eq_refl eq_refl eq_refl chunks [] c1
             (eq_sym Hcat) Hne Hall (handleData_nil c1 eq_refl)).
  cbn [Smtp.expected]. rewrite settle_expected
    by (rewrite <- Hcode; reflexivity).
  cbn [settled task_bind]. exact Hrun.
Qed.

(** The session after the greeting. *)
Lemma completes_after_greeting hostname settings port (final : async unit)
    lf codesf :
  let opts := client_options settings port in
  completes final opts (session_socket opts) (session_socket opts) lf codesf ->
  completes
    (_ ← sendEhlo hostname;
     _ ← match smtpSecurity settings with
         | starttls => _ ← startTls; sendEhlo hostname
         | _ => mret tt
         end;
     _ ← (if truthy (smtpUsername settings) && truthy (smtpPassword settings)
          then authLogin (smtpUsername settings) (smtpPassword settings)
          else mret tt);
     final)
    opts (open_transport opts) (session_socket opts)
    (drop 1 (opening hostname settings opts) ++ lf)
    (drop 1 (opening_codes settings) ++ codesf).
Proof.
  intros opts Hfinal.
  unfold opening, opening_codes, authenticates, session_socket in *.
  change (security opts) with (smtpSecurity settings) in *.
  set (plain := open_transport opts) in *.
  cbn [drop app].
  assert (Hauth : forall s,
            completes (if truthy (smtpUsername settings)
                          && truthy (smtpPassword settings)
                       then authLogin (smtpUsername settings)
                              (smtpPassword settings)
                       else mret tt) opts s s
              (if truthy (smtpUsername settings)
                  && truthy (smtpPassword settings)
               then [command s (lit "AUTH LOGIN");
                     command s (Mime.base64 (utf8 (smtpUsername settings)));
                     command s (Mime.base64 (utf8 (smtpPassword settings)))]
               else [])
              (if truthy (smtpUsername settings)
                  && truthy (smtpPassword settings)
               then [[334]; [334]; [235]]%N else [])).
  { intros s. destruct (_ && _); [apply completes_authLogin | apply completes_ret]. }
  apply (completes_bind _ _ opts plain plain _ [_] _ [_] _);
    [apply completes_sendEhlo | intros _].
  rewrite <- !app_assoc.
  destruct (smtpSecurity settings).
  - apply (completes_bind _ _ opts plain plain plain [] _ [] _);
      [apply completes_ret | intros _].
    apply (completes_bind _ _ opts plain plain plain);
      [apply Hauth | intros _; exact Hfinal].
  - change [command plain (lit "STARTTLS"); Connect (TlsOver plain (host opts));
            command (TlsOver plain (host opts)) (ehlo hostname)]
      with ([command plain (lit "STARTTLS"); Connect (TlsOver plain (host opts))]
            ++ [command (TlsOver plain (host opts)) (ehlo hostname)]).
    change [[220%N]; [250%N]] with ([[220%N]] ++ [[250%N]]).
    apply (completes_bind _ _ opts plain (TlsOver plain (host opts))).
    + apply (completes_bind _ _ opts plain (TlsOver plain (host opts)));
        [apply completes_startTls | intros _; apply completes_sendEhlo].
    + intros _.
      apply (completes_bind _ _ opts _ (TlsOver plain (host opts)));
        [apply Hauth | intros _; exact Hfinal].
  - apply (completes_bind _ _ opts plain plain plain [] _ [] _);
      [apply completes_ret | intros _].
    apply (completes_bind _ _ opts plain plain plain);
      [apply Hauth | intros _; exact Hfinal].
Qed.

Lemma session_goes_through hostname settings port (final : async unit)
    lf codesf replies :
  let opts := client_options settings port in
  valid_port port = true ->
  completes final opts (session_socket opts) (session_socket opts) lf codesf ->
  answers replies (opening_codes settings ++ codesf) ->
  forall B (f : unit -> async B) more r c',
    run (f tt (idle_after (opening hostname settings opts ++ lf)
                 (set_socket (Some (session_socket opts)) (SmtpClient opts))))
      more = Done r c' ->
    run ((session hostname settings final ≫= f) (SmtpClient opts))
      (served replies ++ more) = Done r c'.
Proof.
  intros opts Hport Hfinal Hans B f more r c' Hrun.
  change (opening_codes settings)
    with ([[220%N]] ++ drop 1 (opening_codes settings)) in Hans.
  rewrite <- app_assoc in Hans.
  apply Forall2_app_inv_r in Hans.
  destruct Hans as (replies1 & replies2 & H1 & H2 & ->).
  unfold served. rewrite flat_map_app, <- app_assoc.
  unfold session. rewrite async_bind_eq, async_bind_eq.
  apply run_bind_assoc.
  apply (greeting opts replies1 Hport H1 B).
  destruct (idle_after_is_idle [Connect (open_transport opts)]
              (open_transport opts) (SmtpClient opts)) as (Hidle & Hcode).
  destruct (completes_after_greeting hostname settings port final lf codesf
              Hfinal _ replies2 Hidle Hcode eq_refl H2) as ([] & Ha).
  apply Ha. rewrite idle_after_twice. exact Hrun.
Qed.

(** A guarded body that returns: the cleanup runs after it. *)
Lemma run_finally_Ok {A} evs : forall (t : task A) b c',
  run (task_bind t (fun a c => task_then (quit c) (Ok a))) evs
  = Done (Ok b) c' ->
  run (task_finally_await t quit) evs = Done (Ok b) c'.
Proof.
  induction evs as [|ev evs IH]; intros t b c' H.
  - destruct t as [[a|e] c1|c1 k]; [exact H | discriminate H | discriminate H].
  - destruct t as [[a|e] c1|c1 k].
    + exact H.
    + destruct (run_Done_frame _ _ _ _ _ H) as (Hr & _). discriminate Hr.
    + rewrite run_cons in H |- *.
      rewrite deliver_bind_Wait in H. rewrite deliver_finally_Wait.
      apply IH, H.
Qed.

(** QUIT answered with 221 or 250. *)
Lemma quit_goes_through c s replies :
  idle c s -> answers replies closing_codes ->
  exists c',
    run (task_then (quit c) (Ok tt)) (served replies) = Done (Ok tt) c'
    /\ socket_ c' = Some s /\ log c' = log c ++ closing s.
Proof.
  intros Hidle Hans.
  inversion Hans as [|[reply chunks] codes' replies' ? (Hwf & Hch & Hin) Hrest];
    subst. inversion Hrest; subst. cbn [fst snd] in *.
  unfold served. cbn [flat_map snd]. rewrite app_nil_r.
  rewrite run_then.
  destruct (run (quit c) (map Data chunks)) as [rq cq|cq kq] eqn:Erun.
  - destruct (quit_closing c s _ _ _ (proj1 Hidle) Erun) as (-> & Hs & Hl).
    exists cq. auto.
  - exfalso. revert Erun. unfold quit. rewrite async_bind_eq.
    rewrite (sendCommand_idle c s) by exact Hidle.
    cbn [task_bind task_catch task_finally].
    destruct Hidle as (Hs & Hb & Hl & Hq & Hp).
    destruct Hch as (Hcat & Hall).
    assert (Hne : chunks <> []).
    { intros ->. cbn in Hcat. exact (wire_nonempty reply (eq_sym Hcat)). }
    set (c1 := set_pending _ _).
    rewrite (run_chunked_reply c1 _ reply
               {| Smtp.expected := Some [221%N; 250%N];
                  timeout := default 15000 (timeoutMs (options c)) |}
               Hwf Hb Hl eq_refl chunks [] c1
               (eq_sym Hcat) Hne Hall (handleData_nil c1 Hb)).
    destruct (settle _ reply); discriminate.
Qed.

Lemma session_succeeds hostname settings port (final : async unit)
    lf codesf replies :
  let opts := client_options settings port in
  valid_port port = true ->
  completes final opts (session_socket opts) (session_socket opts) lf codesf ->
  answers replies (opening_codes settings ++ codesf ++ closing_codes) ->
  exists c,
    run (task_finally_await
           (session hostname settings final (SmtpClient opts)) quit)
      (served replies) = Done (Ok tt) c
    /\ socket_ c = Some (session_socket opts)
    /\ log c = opening hostname settings opts ++ lf
               ++ closing (session_socket opts).
Proof.
  intros opts Hport Hfinal Hans.
  rewrite app_assoc in Hans. apply Forall2_app_inv_r in Hans.
  destruct Hans as (replies1 & replies2 & H1 & H2 & ->).
  destruct (idle_after_is_idle (opening hostname settings opts ++ lf)
              (session_socket opts) (SmtpClient opts)) as (Hidle & _).
  destruct (quit_goes_through _ _ replies2 Hidle H2) as (c & Hquit & Hs & Hl).
  exists c. split; [ | split; [exact Hs | ]].
  - apply run_finally_Ok.
    unfold served. rewrite flat_map_app.
    apply (session_goes_through hostname settings port final lf codesf
             replies1 Hport Hfinal H1 unit
             (fun a c => task_then (quit c) (Ok a))).
    exact Hquit.
  - rewrite Hl. cbn [log idle_after set_socket SmtpClient app].
    rewrite <- app_assoc. reflexivity.
Qed.

(** X25.  When the server answers every step of the session with a
    well-formed reply of an expected code, however the replies are cut
    into chunks, [sendEpubByEmail] returns normally. *)
Theorem sendEpubByEmail_succeeds Number normalize env hostname input t
    settings replies :
  sendEpubByEmail Number normalize env hostname input = Ok t ->
  normalizePreferences Number (preferences input) = Ok settings ->
  answers replies (opening_codes settings ++ mail_codes ++ closing_codes) ->
  exists c, run t (served replies) = Done (Ok tt) c.
Proof.
  intros H Hsettings Hans.
  destruct (sendEpubByEmail_Ok _ _ _ _ _ _ H)
    as (settings' & message & port & Hs & Hm & Hp & ->).
  rewrite Hsettings in Hs. injection Hs as <-.
  destruct (session_succeeds hostname settings port _ _ _ replies
              (socket_port_valid _ _ Hp)
              (completes_sendMail
                 {| from := senderEmail settings; to := kindleEmail settings;
                    message := message |} _ _) Hans) as (c & Hrun & _).
  exists c. exact Hrun.
Qed.

(** X26.  When the server answers every step of the test session with a
    well-formed reply of an expected code, however the replies are cut
    into chunks, [testEmailPreferences] returns normally. *)
Theorem testEmailPreferences_succeeds Number hostname preferences t
    settings replies :
  testEmailPreferences Number hostname preferences = Ok t ->
  normalizePreferences Number preferences = Ok settings ->
  answers replies (opening_codes settings ++ verify_codes ++ closing_codes) ->
  exists c, run t (served replies) = Done (Ok tt) c.
Proof.
  intros H Hsettings Hans.
  destruct (testEmailPreferences_Ok _ _ _ _ H)
    as (settings' & port & Hs & Hp & ->).
  rewrite Hsettings in Hs. injection Hs as <-.
  destruct (session_succeeds hostname settings port _ _ _ replies
              (socket_port_valid _ _ Hp)
              (completes_verifyRecipient (senderEmail settings)
                 (kindleEmail settings) _ _) Hans) as (c & Hrun & _).
  exists c. exact Hrun.
Qed.

End HappyPath.

(** ** Sessions: they stop *)
Section TimerFacts.
Import JS Smtp Email.

Lemma abortable_bind {A B} (t : task A) (f : A -> async B) :
  abortable t -> (forall a c, abortable (f a c)) ->
  abortable (task_bind t f).
Proof.
  intros Ht Hf. induction Ht as [[a|e] c|c k Hp Hrej Hres IH].
  - apply Hf.
  - constructor.
  - cbn [task_bind]. constructor.
    + exact Hp.
    + intros e c'. rewrite Hrej. reflexivity.
    + intros response c'. apply IH.
Qed.

Lemma abortable_async_bind {A B} (m : async A) (f : A -> async B) :
  (forall c, abortable (m c)) -> (forall a c, abortable (f a c)) ->
  forall c, abortable ((m ≫= f) c).
Proof. intros Hm Hf c. rewrite async_bind_eq. apply abortable_bind; auto. Qed.

Lemma abortable_ret {A} (a : A) c : abortable ((mret a : async A) c).
Proof. constructor. Qed.

Lemma abortable_write data c : abortable (write data c).
Proof. unfold write. destruct (socket_ c); constructor. Qed.

Lemma abortable_readResponse expected c : abortable (readResponse expected c).
Proof.
  unfold readResponse. destruct (pending c); [constructor | ].
  destruct (queuedResponses c).
  - constructor; [discriminate | reflexivity | intros; constructor].
  - destruct (is_unexpected _ _); constructor.
Qed.

Lemma abortable_sendCommand text expected c :
  abortable (sendCommand text expected c).
Proof.
  apply abortable_async_bind; [apply abortable_write | ].
  intros _. apply abortable_readResponse.
Qed.

Lemma abortable_step {A} (m : async A) :
  (forall c, abortable (m c)) ->
  forall c, abortable ((m ≫= fun _ => mret tt) c).
Proof.
  intros Hm. apply abortable_async_bind; [exact Hm | ].
  intros _ c. apply abortable_ret.
Qed.

Lemma abortable_session hostname settings final :
  (forall c, abortable (final c)) ->
  forall c, abortable (session hostname settings final c).
Proof.
  intros Hfinal c. unfold session.
  apply abortable_async_bind.
  { intros c0. unfold connect.
    destruct (valid_port (port (options c0))); [ | constructor].
    apply (abortable_step (readResponse (Some [220%N]))
             (abortable_readResponse _)). }
  intros _. apply abortable_async_bind.
  { apply abortable_step, abortable_sendCommand. }
  intros _. apply abortable_async_bind.
  { intros c0. destruct (smtpSecurity settings); try apply abortable_ret.
    apply abortable_async_bind.
    - intros c1. unfold startTls. apply abortable_async_bind.
      + apply abortable_sendCommand.
      + intros _ c2. unfold upgrade. destruct (socket_ c2); constructor.
    - intros _. apply abortable_step, abortable_sendCommand. }
  intros _. apply abortable_async_bind.
  { intros c0. destruct (_ && _); [ | apply abortable_ret].
    unfold authLogin. apply abortable_async_bind;
      [apply abortable_sendCommand | intros _].
    apply abortable_async_bind; [apply abortable_sendCommand | intros _].
    apply abortable_step, abortable_sendCommand. }
  intros _. exact Hfinal.
Qed.

Lemma abortable_sendMail input c : abortable (sendMail input c).
Proof.
  unfold sendMail.
  apply abortable_async_bind; [apply abortable_sendCommand | intros _].
  apply abortable_async_bind; [apply abortable_sendCommand | intros _].
  apply abortable_async_bind; [apply abortable_sendCommand | intros _].
  apply abortable_async_bind; [apply abortable_write | intros _].
  apply abortable_step, abortable_sendCommand.
Qed.

Lemma abortable_verifyRecipient sender recipient c :
  abortable (verifyRecipient sender recipient c).
Proof.
  unfold verifyRecipient.
  apply abortable_async_bind; [apply abortable_sendCommand | intros _].
  apply abortable_async_bind; [apply abortable_sendCommand | intros _].
  apply abortable_step, abortable_sendCommand.
Qed.

Lemma abortable_deliver {A} (t : task A) ev :
  abortable t -> abortable (deliver t ev).
Proof.
  intros Ht. destruct Ht as [r c|c k Hp Hrej Hres]; cbn [deliver].
  - constructor.
  - pose proof (dispatch_None ev c) as HN.
    destruct (dispatch ev c) as [c' [[response|e]|]]; cbn [fst snd] in HN.
    + apply Hres.
    + rewrite Hrej. constructor.
    + constructor; [rewrite (HN eq_refl); exact Hp | exact Hrej | exact Hres].
Qed.

Lemma abortable_run {A} evs : forall t : task A,
  abortable t -> abortable (run t evs).
Proof.
  induction evs as [|ev evs IH]; intros t Ht; [exact Ht | ].
  rewrite run_cons. apply IH, abortable_deliver, Ht.
Qed.

(** When the timer fires, a method that waits throws. *)
Lemma abortable_timer {A} (t : task A) :
  abortable t -> exists r c, deliver t TimerFired = Done r c.
Proof.
  intros Ht. destruct Ht as [r c|c k Hp Hrej Hres]; cbn [deliver dispatch].
  - eauto.
  - unfold timer_fired. destruct (pending c); [ | contradiction].
    rewrite Hrej. eauto.
Qed.

Lemma quit_progress_timer t :
  quit_progress t -> exists c, deliver t TimerFired = Done (Ok tt) c.
Proof.
  destruct t as [r c|c k]; cbn [quit_progress deliver dispatch].
  - intros (-> & _). eauto.
  - intros (Hp & Hk). unfold timer_fired.
    destruct (pending c); [ | contradiction]. rewrite Hk. eauto.
Qed.

(** A guarded session, at any time: its body is under way, or [quit]
    is. *)
Lemma run_finally_cases {A} evs : forall t : task A,
  abortable t ->
  (exists t', abortable t'
              /\ run (task_finally_await t quit) evs
                 = task_finally_await t' quit)
  \/ (exists tq r, quit_progress tq
                   /\ run (task_finally_await t quit) evs = task_then tq r).
Proof.
  induction evs as [|ev evs IH]; intros t Ht.
  - left. exists t. auto.
  - rewrite run_cons. destruct Ht as [r c|c k Hp Hrej Hres].
    + right. exists (run (quit c) (ev :: evs)), r.
      split; [apply quit_progress_run, quit_starts | ].
      cbn [task_finally_await]. rewrite <- run_cons, run_then. reflexivity.
    + rewrite deliver_finally_Wait.
      apply IH, abortable_deliver. constructor; assumption.
Qed.

Lemma guarded_session_stops {A} (t : task A) evs :
  abortable t ->
  exists r c,
    run (task_finally_await t quit) (evs ++ [TimerFired; TimerFired])
    = Done r c.
Proof.
  intros Ht. rewrite run_app.
  destruct (run_finally_cases evs t Ht) as [(t' & Ht' & ->)|(tq & r & Hq & ->)].
  - rewrite run_cons.
    destruct Ht' as [r c|c k Hp Hrej Hres].
    + cbn [task_finally_await]. rewrite <- run_cons, run_then.
      pose proof (quit_progress_run [TimerFired] _ (quit_starts c)) as Hq.
      destruct (quit_progress_timer _ Hq) as (c' & Hc').
      change (run (quit c) [TimerFired; TimerFired])
        with (deliver (run (quit c) [TimerFired]) TimerFired).
      rewrite Hc'. cbn [task_then]. eauto.
    + rewrite deliver_finally_Wait. cbn [deliver dispatch].
      unfold timer_fired. destruct (pending c); [ | contradiction].
      rewrite Hrej. cbn [task_finally_await].
      rewrite run_then.
      destruct (quit_progress_timer _ (quit_starts (set_pending None c)))
        as (c' & Hc').
      change (run (quit (set_pending None c)) [TimerFired])
        with (deliver (quit (set_pending None c)) TimerFired).
      rewrite Hc'. cbn [task_then]. eauto.
  - rewrite run_then.
    pose proof (quit_progress_run [TimerFired] _ Hq) as Hq1.
    destruct (quit_progress_timer _ Hq1) as (c' & Hc').
    change (run tq [TimerFired; TimerFired])
      with (deliver (run tq [TimerFired]) TimerFired).
    rewrite Hc'. cbn [task_then]. destruct r; eauto.
Qed.

(** X27.  No session waits for ever: whatever has happened so far, a
    call of [sendEpubByEmail] or of [testEmailPreferences] has finished
    once the timer of a pending response has expired twice more (once for
    the step under way, once for QUIT). *)
Theorem sessions_stop_on_timers :
  (forall Number normalize env hostname input t evs,
     sendEpubByEmail Number normalize env hostname input = Ok t ->
     exists r c, run t (evs ++ [TimerFired; TimerFired]) = Done r c)
  /\ (forall Number hostname preferences t evs,
        testEmailPreferences Number hostname preferences = Ok t ->
        exists r c, run t (evs ++ [TimerFired; TimerFired]) = Done r c).
Proof.
  split.
  - intros Number normalize env hostname input t evs H.
    destruct (sendEpubByEmail_Ok _ _ _ _ _ _ H)
      as (settings & message & port & _ & _ & _ & ->).
    apply guarded_session_stops, abortable_session, abortable_sendMail.
  - intros Number hostname preferences t evs H.
    destruct (testEmailPreferences_Ok _ _ _ _ H)
      as (settings & port & _ & _ & ->).
    apply guarded_session_stops, abortable_session.
    intros c. apply abortable_verifyRecipient.
Qed.

End TimerFacts.

(** ** [sanitizeFilename] *)
Section FilenameFacts.
Import JS Article.

(** After the runs of a class are replaced by a unit of the class, the
    only units of the class left are that unit. *)
Lemma replace_runs_only cls (b : N) s :
  Forall (fun c => cls c = true -> c = b) (replace_runs cls [b] s).
Proof.
  induction s as [|c s IH]; [constructor | ].
  cbn [replace_runs]. destruct (cls c) eqn:E.
  - destruct s as [|d s]; [repeat constructor | ].
    destruct (cls d); [exact IH | ].
    constructor; [reflexivity | exact IH].
  - constructor; [congruence | exact IH].
Qed.

(** X28.  The name [sanitizeFilename] returns has at most 120 code
    units, none of them a path separator or another character of the
    class it removes, none a control character, and its only white space
    is the space. *)
Theorem sanitizeFilename_safe input :
  let name := sanitizeFilename input in
  (length name <= 120)%nat
  /\ Forall (fun c => is_forbidden c = false /\ (31 < c)%N /\ c <> 127%N
                      /\ (is_space c = true -> c = 32%N)) name.
Proof.
  unfold sanitizeFilename. split.
  - rewrite length_take. lia.
  - apply Forall_take.
    set (visible := filter _ _).
    assert (Hvisible : Forall (fun c => is_forbidden c = false /\ (31 < c)%N
                                        /\ c <> 127%N) visible).
    { apply Forall_forall. intros c Hc.
      apply list_elem_of_filter in Hc. destruct Hc as (Hv & Hin).
      unfold is_visible in Hv. apply andb_true_iff in Hv.
      destruct Hv as (H31 & H127).
      apply N.ltb_lt in H31. apply negb_true_iff, N.eqb_neq in H127.
      split; [ | auto].
      assert (Hf : Forall (fun c => is_forbidden c = false)
                     (replace_runs is_forbidden (lit " ") (trim input))).
      { apply Forall_replace_runs; [repeat constructor | ].
        apply Forall_forall. auto. }
      rewrite Forall_forall in Hf. apply Hf, Hin. }
    pose proof (replace_runs_only is_space 32 visible) as Honly.
    pose proof (Forall_replace_runs
                  (fun c => is_forbidden c = false /\ (31 < c)%N /\ c <> 127%N)
                  is_space (lit " ") visible) as Hkeep.
    change (lit " ") with [32%N] in *.
    assert (Hk : Forall (fun c => is_forbidden c = false /\ (31 < c)%N
                                  /\ c <> 127%N)
                   (replace_runs is_space [32%N] visible)).
    { apply Hkeep.
      - constructor; [ | constructor]. split; [reflexivity | lia].
      - eapply Forall_impl; [exact Hvisible | auto]. }
    clear Hkeep. induction Hk as [|c l Hc Hl IH]; [constructor | ].
    inversion Honly; subst. constructor; [tauto | auto].
Qed.

End FilenameFacts.

(** ** The properties at sample inputs *)
Section Samples.
Import JS Crc Zip Epub Mime Smtp Email.

(** Two buffers that differ in their second byte. *)
Lemma crc32_detects_a_changed_byte_sample :
  x4b <> x4c
  /\ crc32 ([x50] ++ x4b :: [x03])%byte
     <> crc32 ([x50] ++ x4c :: [x03])%byte.
Proof.
  assert (H : x4b <> x4c) by discriminate.
  split; [exact H | ].
  exact (crc32_detects_a_changed_byte [x50]%byte [x03]%byte x4b x4c H).
Defined.

(** The end record of the sample archive counts its entries. *)
Lemma buildZip_end_of_central_directory_sample :
  let entries := epubEntries Epub.sample_uuid Epub.sample_options in
  buildZip entries = Ok sample_epub
  /\ length sample_epub
     = (sum_list (entry_size <$> entries)
        + sum_list (central_size <$> entries) + 22)%nat.
Proof.
  assert (H : buildZip (epubEntries Epub.sample_uuid Epub.sample_options)
              = Ok sample_epub) by (vm_compute; reflexivity).
  split; [exact H | ].
  exact (proj1 (buildZip_end_of_central_directory _ _ H)).
Defined.

(** The cover image of the sample archive is stored as it is. *)
Lemma buildZip_stores_entries_sample :
  let entries := epubEntries Epub.sample_uuid Epub.sample_options in
  let cover := {| Zip.name := lit "OEBPS/images/cover.jpg";
                  Zip.data := [xff; xd8; xff]%byte |} in
  buildZip entries = Ok sample_epub
  /\ entries !! 6%nat = Some cover
  /\ readUIntLE 4 sample_epub (local_offset entries 6 + 14)
     = crc32 (Zip.data cover).
Proof.
  assert (H1 : buildZip (epubEntries Epub.sample_uuid Epub.sample_options)
               = Ok sample_epub) by (vm_compute; reflexivity).
  assert (H2 : epubEntries Epub.sample_uuid Epub.sample_options !! 6%nat
               = Some {| Zip.name := lit "OEBPS/images/cover.jpg";
                         Zip.data := [xff; xd8; xff]%byte |})
    by (vm_compute; reflexivity).
  split; [exact H1 | ]. split; [exact H2 | ].
  exact (proj1 (buildZip_stores_entries _ _ _ _ H1 H2)).
Defined.

(** A text written in two ways. *)
Lemma escapeHtml_injective_sample :
  escapeHtml (lit "a&b") = escapeHtml [97; 38; 98]%N
  /\ lit "a&b" = [97; 38; 98]%N.
Proof.
  assert (H : escapeHtml (lit "a&b") = escapeHtml [97; 38; 98]%N)
    by reflexivity.
  split; [exact H | ].
  exact (escapeHtml_injective _ _ H).
Defined.

Lemma sample_env_no_lf :
  no_lf (utcNow sample_env_1) /\ no_lf (randomUUID sample_env_1).
Proof.
  split; intros H; vm_compute in H;
    repeat (destruct H as [H | H]; [discriminate H | ]); exact H.
Qed.

(** The sample message goes out as it is. *)
Lemma encoder_output_needs_no_stuffing_sample :
  exists message,
    buildMimeMessage (fun s => s) sample_env_1 sample_input = Ok message
    /\ dotStuff message = message.
Proof.
  destruct (buildMimeMessage (fun s => s) sample_env_1 sample_input)
    as [message | e] eqn:E; [ | vm_compute in E; discriminate E].
  exists message. split; [reflexivity | ].
  exact (proj1 (encoder_output_needs_no_stuffing (fun s => s) sample_env_1
                  sample_input message (proj1 sample_env_no_lf)
                  (proj2 sample_env_no_lf) E)).
Defined.

(** The subject line of the sample message. *)
Lemma header_lines_are_single_lines_sample :
  exists lines,
    mimeLines (fun s => s) sample_env_1 sample_input = Ok lines
    /\ lines !! 3%nat = Some (lit "Subject: Hello")
    /\ single_line (lit "Subject: Hello").
Proof.
  destruct (mimeLines (fun s => s) sample_env_1 sample_input)
    as [lines | e] eqn:E; [ | vm_compute in E; discriminate E].
  assert (H : lines !! 3%nat = Some (lit "Subject: Hello")).
  { vm_compute in E. injection E as <-. reflexivity. }
  exists lines. split; [reflexivity | ]. split; [exact H | ].
  apply (header_lines_are_single_lines (fun s => s) sample_env_1
           sample_input lines E 3%nat (lit "Subject: Hello"));
    [cbn; auto | exact H].
Defined.

(** Two replies in one chunk before anyone asks. *)
Lemma unsolicited_replies_are_queued_sample :
  queuedResponses
    (handleData sample_connected
       (wire (sample_reply 250 "ok") ++ wire (sample_reply 354 "go"))).1
  = [response_of (sample_reply 250 "ok");
     response_of (sample_reply 354 "go")].
Proof.
  apply (unsolicited_replies_are_queued sample_connected
           (sample_reply 250 "ok") (sample_reply 354 "go")
           (Some [250%N]));
    first [ apply sample_reply_well_formed; reflexivity | reflexivity ].
Defined.

(** A server that refuses AUTH LOGIN gets no credential. *)
Lemma authLogin_withholds_credentials_sample :
  exists c',
    run (authLogin (lit "me") (lit "secret") sample_connected)
      (map Data [wire (sample_reply 504 "no")] ++ [])
    = Done (Throw (unexpected_response 504)) c'
    /\ log c' = log sample_connected
                ++ [command sample_socket (lit "AUTH LOGIN")].
Proof.
  apply (proj1 (authLogin_withholds_credentials sample_connected
                  sample_socket (lit "me") (lit "secret")
                  sample_connected_idle)
           (sample_reply 504 "no") [wire (sample_reply 504 "no")] []).
  - apply sample_reply_well_formed; reflexivity.
  - apply whole_chunk.
  - discriminate.
Defined.

(** The server accepts STARTTLS. *)
Lemma startTls_wraps_after_220_sample :
  exists c',
    run (startTls sample_connected)
      (map Data [wire (sample_reply 220 "go")] ++ [])
    = Done (Ok tt) c'
    /\ socket_ c' = Some (TlsOver sample_socket (lit "smtp.example.org"))
    /\ log c' = log sample_connected
                ++ [command sample_socket (lit "STARTTLS");
                    Connect (TlsOver sample_socket (lit "smtp.example.org"))].
Proof.
  apply (startTls_wraps_after_220 sample_connected sample_socket
           (sample_reply 220 "go") [wire (sample_reply 220 "go")] []).
  - exact sample_connected_idle.
  - apply sample_reply_well_formed; reflexivity.
  - apply whole_chunk.
Defined.

Lemma sample_normalized :
  normalizePreferences sample_Number sample_preferences = Ok sample_settings.
Proof. vm_compute. reflexivity. Qed.

(** The sample calls get as far as the session. *)
Lemma sample_send_starts :
  exists t,
    sendEpubByEmail sample_Number (fun s => s) sample_env_1 (lit "laptop")
      sample_send = Ok t.
Proof.
  unfold sendEpubByEmail. cbn [preferences sample_send].
  rewrite sample_normalized. cbn [mbind result_bind].
  destruct (buildMimeMessage _ _ _) as [message | e] eqn:E;
    [ | vm_compute in E; discriminate E].
  cbn [mbind result_bind]. eexists. reflexivity.
Qed.

Lemma sample_test_starts :
  exists t,
    testEmailPreferences sample_Number (lit "laptop") sample_preferences
    = Ok t.
Proof.
  unfold testEmailPreferences.
  rewrite sample_normalized. eexists. reflexivity.
Qed.

Lemma sample_answer_expected code expected :
  (code <? 1000)%N = true -> In code expected ->
  well_formed (sample_answer code).1
  /\ chunked (wire (sample_answer code).1) (sample_answer code).2
  /\ In (reply_code (sample_answer code).1) expected.
Proof.
  intros Hc Hin. split; [apply sample_reply_well_formed; [exact Hc | reflexivity] | ].
  split; [apply whole_chunk | exact Hin].
Qed.

Lemma sample_server_answers :
  answers sample_server
    (opening_codes sample_settings ++ mail_codes ++ closing_codes).
Proof.
  unfold answers, sample_server.
  change (opening_codes sample_settings ++ mail_codes ++ closing_codes)
    with [[220]; [250]; [220]; [250]; [334]; [334]; [235];
          [250]; [250; 251]; [354]; [250]; [221; 250]]%N.
  cbn [map].
  repeat (constructor;
          [apply sample_answer_expected; [reflexivity | cbn; auto] | ]).
  constructor.
Qed.

Lemma sample_test_server_answers :
  answers sample_test_server
    (opening_codes sample_settings ++ verify_codes ++ closing_codes).
Proof.
  unfold answers, sample_test_server.
  change (opening_codes sample_settings ++ verify_codes ++ closing_codes)
    with [[220]; [250]; [220]; [250]; [334]; [334]; [235];
          [250]; [250; 251]; [250]; [221; 250]]%N.
  cbn [map].
  repeat (constructor;
          [apply sample_answer_expected; [reflexivity | cbn; auto] | ]).
  constructor.
Qed.

(** The sample delivery: whatever happens, the connection is closed on
    the socket that was opened. *)
Lemma sendEpubByEmail_transport_sample :
  exists t,
    sendEpubByEmail sample_Number (fun s => s) sample_env_1 (lit "laptop")
      sample_send = Ok t
    /\ forall evs r c,
         run t evs = Done r c ->
         exists done s, socket_ c = Some s /\ log c = done ++ closing s.
Proof.
  destruct sample_send_starts as (t & Ht).
  exists t. split; [exact Ht | ].
  destruct (sendEpubByEmail_transport _ _ _ _ _ _ Ht)
    as (settings & message & port & _ & _ & _ & H).
  intros evs r c Hrun.
  destruct (H evs r c Hrun) as (done & s & _ & Hs & Hl & _).
  exists done, s. split; [exact Hs | exact Hl].
Defined.

(** The sample test, likewise. *)
Lemma testEmailPreferences_transport_sample :
  exists t,
    testEmailPreferences sample_Number (lit "laptop") sample_preferences
    = Ok t
    /\ forall evs r c,
         run t evs = Done r c ->
         exists done s, socket_ c = Some s /\ log c = done ++ closing s.
Proof.
  destruct sample_test_starts as (t & Ht).
  exists t. split; [exact Ht | ].
  destruct (testEmailPreferences_transport _ _ _ _ Ht)
    as (settings & port & _ & _ & H).
  intros evs r c Hrun.
  destruct (H evs r c Hrun) as (done & s & _ & Hs & Hl & _).
  exists done, s. split; [exact Hs | exact Hl].
Defined.

(** The sample delivery with a server that accepts every step. *)
Lemma sendEpubByEmail_succeeds_sample :
  exists t c,
    sendEpubByEmail sample_Number (fun s => s) sample_env_1 (lit "laptop")
      sample_send = Ok t
    /\ run t (served sample_server) = Done (Ok tt) c.
Proof.
  destruct sample_send_starts as (t & Ht).
  destruct (sendEpubByEmail_succeeds _ _ _ _ _ t sample_settings
              sample_server Ht sample_normalized sample_server_answers)
    as (c & Hc).
  exists t, c. split; [exact Ht | exact Hc].
Defined.

(** The sample test with such a server. *)
Lemma testEmailPreferences_succeeds_sample :
  exists t c,
    testEmailPreferences sample_Number (lit "laptop") sample_preferences
    = Ok t
    /\ run t (served sample_test_server) = Done (Ok tt) c.
Proof.
  destruct sample_test_starts as (t & Ht).
  destruct (testEmailPreferences_succeeds _ _ _ t sample_settings
              sample_test_server Ht sample_normalized
              sample_test_server_answers)
    as (c & Hc).
  exists t, c. split; [exact Ht | exact Hc].
Defined.

(** The sample delivery with a server that never answers. *)
Lemma sessions_stop_on_timers_sample :
  exists t r c,
    sendEpubByEmail sample_Number (fun s => s) sample_env_1 (lit "laptop")
      sample_send = Ok t
    /\ run t ([] ++ [TimerFired; TimerFired]) = Done r c.
Proof.
  destruct sample_send_starts as (t & Ht).
  destruct (proj1 sessions_stop_on_timers _ _ _ _ _ t [] Ht) as (r & c & H).
  exists t, r, c. split; [exact Ht | exact H].
Defined.

End Samples.
